(** * Open-CS-408: question bank and workbook generator

    A shallow embedding of [questions/generate_pdf.py] (catalog loader,
    section builder, outline stage, command-line entry point) and of the
    store operations of [questions/manager.py] (identifier assignment,
    insert, update, duplicate), with the properties of the specification
    stated and proved over it. *)

From Stdlib Require Import ZArith Lia.
From Stdlib Require Import DecimalString.
From Stdlib Require DecimalFacts DecimalPos DecimalN.
From stdpp Require Import base decidable option list sorting strings gmap.

Open Scope string_scope.
Open Scope list_scope.

(** ** Exceptions and fallible results *)

(** The Python exceptions the embedded code can raise. *)
Inductive exn :=
| KeyError (key : string)
| TypeError
| ValueError (what : string)
| FileNotFoundError (path : string)
| IntegrityError (what : string)
| OSError (what : string)
| PdfReadError (path : string)
| LayoutError.

Inductive result (A : Type) :=
| Ok (a : A)
| Raise (e : exn).
Arguments Ok {A} a.
Arguments Raise {A} e.

Global Instance result_bind : MBind result := λ A B k r,
  match r with
  | Ok a => k a
  | Raise e => Raise e
  end.

Definition is_Ok {A} (r : result A) : Prop := ∃ a, r = Ok a.

(** ** Records

    A row of table [questions] (manager.py, [init_database]); [dict(row)]
    in generate_pdf.py has exactly these seventeen keys.  Columns declared
    [NOT NULL] are strings, the others are [None] or a string. *)
Record Question := {
  id : string;
  subject_code : string;
  chapter_num : string;
  question_type : string;
  status : string;
  question_text : string;
  option_a : option string;
  option_b : option string;
  option_c : option string;
  option_d : option string;
  correct_answer : string;
  explanation : option string;
  knowledge : option string;
  notes : option string;
  created_date : string;
  last_modified : string;
  image_path : option string
}.

Global Instance Question_eq_dec : EqDecision Question.
Proof. solve_decision. Defined.

(** ** Configuration (generate_pdf.py, lines 26-45) *)

Definition DB_PATH : string := "questions.db".
Definition OUTPUT_PDF : string := "Open-CS-408习题册.pdf".
Definition FONT_PATH : string := "fonts/NotoSansSC-Regular.ttf".

(** A Python dict whose insertion order is observed ([list(d.keys())],
    [enumerate(d.keys())]) is an association list. *)
Record SubjectInfo := {
  name : string;
  chapters : list (string * string)
}.

Definition SUBJECTS : list (string * SubjectInfo) :=
  [ ("DS", {| name := "数据结构";
              chapters := [("01", "基本概念"); ("02", "线性表");
                           ("03", "栈、队列和数组"); ("04", "树与二叉树");
                           ("05", "图"); ("06", "查找"); ("07", "排序")] |});
    ("CO", {| name := "计算机组成原理";
              chapters := [("01", "计算机系统概述"); ("02", "数据的表示和运算");
                           ("03", "存储器层次结构"); ("04", "指令系统");
                           ("05", "中央处理器"); ("06", "总线和输入输出系统")] |});
    ("OS", {| name := "操作系统";
              chapters := [("01", "操作系统概述"); ("02", "进程管理");
                           ("03", "内存管理"); ("04", "文件管理");
                           ("05", "输入输出管理")] |});
    ("CN", {| name := "计算机网络";
              chapters := [("01", "计算机网络体系结构"); ("02", "物理层");
                           ("03", "数据链路层"); ("04", "网络层");
                           ("05", "传输层"); ("06", "应用层")] |}) ].

(** [d[k]] and [d.get(k)] on an association list. *)
Fixpoint assoc {V} (k : string) (d : list (string * V)) : option V :=
  match d with
  | [] => None
  | (k', v) :: d' => if decide (k = k') then Some v else assoc k d'
  end.

Definition keys {V} (d : list (string * V)) : list string := d.*1.

(** [enumerate] *)
Fixpoint enumerate_from {A} (start : nat) (l : list A) : list (nat * A) :=
  match l with
  | [] => []
  | x :: l' => (start, x) :: enumerate_from (S start) l'
  end.

(** [SUBJECT_ORDER = list(SUBJECTS.keys())] *)
Definition SUBJECT_ORDER : list string := keys SUBJECTS.

(** [CHAPTER_ORDER_MAP]: for each subject, chapter number to its position. *)
Definition CHAPTER_ORDER_MAP : list (string * list (string * nat)) :=
  map (λ '(subject_code, info),
         (subject_code,
          map (λ '(idx, ch_num), (ch_num, idx))
              (enumerate_from 0 (keys (chapters info)))))
      SUBJECTS.

(** [l.index(x)] for [x in l]. *)
Fixpoint index_of (x : string) (l : list string) : option nat :=
  match l with
  | [] => None
  | y :: l' => if decide (x = y) then Some 0 else S <$> index_of x l'
  end.

(** ** Catalog loader (generate_pdf.py, [fetch_published_questions]) *)

(** The key of [sort_key]: a tuple [(int, int, str)]. *)
Definition SortKey : Type := nat * nat * string.

Definition sort_key (q : Question) : SortKey :=
  let sub := subject_code q in
  let chap := chapter_num q in
  let sub_idx := default 999 (index_of sub SUBJECT_ORDER) in
  let chap_idx :=
    match assoc sub CHAPTER_ORDER_MAP with
    | Some m => default 999 (assoc chap m)
    | None => 999
    end in
  (sub_idx, chap_idx, id q).

(** Python's tuple comparison [k1 <= k2]: lexicographic, strings compared
    code unit by code unit. *)
Definition key_le (k1 k2 : SortKey) : Prop :=
  let '(s1, c1, i1) := k1 in
  let '(s2, c2, i2) := k2 in
  s1 < s2 ∨ (s1 = s2 ∧ (c1 < c2 ∨ (c1 = c2 ∧ String.le i1 i2))).

Global Instance key_le_dec : RelDecision key_le.
Proof. intros [[s1 c1] i1] [[s2 c2] i2]. unfold key_le. apply _. Defined.

(** [list.sort(key=...)] is a stable sort: an element is placed before the
    first element whose key is not smaller than its own. *)
Fixpoint insert_by {A K} (le : K → K → Prop) `{!RelDecision le}
    (key : A → K) (x : A) (l : list A) : list A :=
  match l with
  | [] => [x]
  | y :: l' =>
      if decide (le (key x) (key y)) then x :: y :: l'
      else y :: insert_by le key x l'
  end.

Fixpoint sort_by {A K} (le : K → K → Prop) `{!RelDecision le}
    (key : A → K) (l : list A) : list A :=
  match l with
  | [] => []
  | x :: l' => insert_by le key x (sort_by le key l')
  end.

(** The records eligible for the document. *)
Definition published (rows : list Question) : list Question :=
  filter (λ q, status q = "published") rows.

(** The query [SELECT * FROM questions WHERE status = 'published'
    ORDER BY id] over the rows of the table. *)
Definition select_published (rows : list Question) : list Question :=
  sort_by String.le id (published rows).

Definition fetch_published_questions (rows : list Question) : list Question :=
  let questions := select_published rows in
  sort_by key_le sort_key questions.

(** The order a key induces on the elements. *)
Definition by_key {A K} (le : K → K → Prop) (key : A → K) : relation A :=
  λ x y, le (key x) (key y).

(** The configured display ranks of a record's subject and chapter, when
    they have one. *)
Definition group_rank (q : Question) : option nat :=
  index_of (subject_code q) SUBJECT_ORDER.

Definition subgroup_rank (q : Question) : option nat :=
  m ← assoc (subject_code q) CHAPTER_ORDER_MAP;
  assoc (chapter_num q) m.

(** The reading of the specification under which every record with an
    unranked subject or chapter comes after every record whose subject
    and chapter are both ranked. *)
Definition unranked_last (out : list Question) : Prop :=
  ∀ i j x y, out !! i = Some x → out !! j = Some y →
    group_rank x = None ∨ subgroup_rank x = None →
    is_Some (group_rank y) ∧ is_Some (subgroup_rank y) →
    j < i.

(** ** Section builder (generate_pdf.py, [generate_content_pdf]) *)

(** [itertools.groupby] over a list: the maximal runs of adjacent elements
    with equal keys, each with its key. *)
Fixpoint groupby {A} (key : A → string) (l : list A) : list (string * list A) :=
  match l with
  | [] => []
  | x :: l' =>
      match groupby key l' with
      | (k, g) :: rest =>
          if decide (key x = k) then (k, x :: g) :: rest
          else (key x, [x]) :: (k, g) :: rest
      | [] => [(key x, [x])]
      end
  end.

(** [str(n)] for a non-negative integer. *)
Definition str_of_nat (n : nat) : string :=
  NilZero.string_of_uint (Nat.to_uint n).

(** [s.replace('\n', '<br/>')] *)
Fixpoint replace_newlines (s : string) : string :=
  match s with
  | EmptyString => EmptyString
  | String c s' =>
      if decide (c = Ascii.ascii_of_nat 10) then "<br/>" +:+ replace_newlines s'
      else String c (replace_newlines s')
  end.

Inductive ParagraphStyle :=
| normal_style
| subject_title_style
| chapter_title_style
| cover_title_style.

(** The text of a paragraph.  The three f-strings of the source keep the
    values they interpolate; [render] is the string handed to
    [Paragraph]. *)
Inductive Text :=
| Literal (s : string)
| ItemText (question_index : nat) (q : Question)
| ChoiceText (opt : string) (val : string)
| AnswerText (i : nat) (q : Question).

Definition render (t : Text) : string :=
  match t with
  | Literal s => s
  | ItemText question_index q =>
      str_of_nat question_index +:+ ". " +:+ replace_newlines (question_text q)
  | ChoiceText opt val => opt +:+ ". " +:+ val
  | AnswerText i q => str_of_nat i +:+ ". 参考答案：" +:+ correct_answer q
  end.

(** Flowables of the story; lengths are in points ([inch = 72]). *)
Inductive Flowable :=
| Paragraph (text : Text) (style : ParagraphStyle)
| Spacer (width height : Z)
| PageBreak
| PlatypusImage (path : string) (width : Z).

Definition inch : Z := 72.

(** What the generator sees of the image assets on disk and of the
    paragraph parser of the library. *)
Record Assets := {
  path_exists : string → bool;   (* [Path(p).exists()] *)
  image_opens : string → bool;   (* [PlatypusImage(p, ...)] does not raise *)
  markup_ok : string → bool      (* [Paragraph(text, style)] does not raise:
                                    the text parses as paragraph markup *)
}.

(** Truth value of an optional string: [None] and the empty string are
    false. *)
Definition truthy (v : option string) : option string :=
  match v with
  | Some s => if decide (s = "") then None else Some s
  | None => None
  end.

(** The constructor [PlatypusImage(image_path, width=max_width)]. *)
Definition new_image (fs : Assets) (image_path : string) (width : Z)
    : result Flowable :=
  if image_opens fs image_path then Ok (PlatypusImage image_path width)
  else Raise (OSError image_path).

(** [safe_image]: the [try ... except Exception: return None] absorbs
    whatever the constructor raises. *)
Definition safe_image (fs : Assets) (image_path : option string)
    : option Flowable :=
  match truthy image_path with
  | None => None
  | Some p =>
      if negb (path_exists fs p) then None
      else match new_image fs p (5 * inch) with
           | Ok img => Some img
           | Raise _ => None
           end
  end.

(** [q.get(f"option_{opt.lower()}")] for [opt] in ["ABCD"]. *)
Definition options (q : Question) : list (string * option string) :=
  [("A", option_a q); ("B", option_b q); ("C", option_c q); ("D", option_d q)].

(** [Paragraph(text, style)]: the constructor parses the text as markup
    and raises [ValueError] when it is not well formed; the exception is
    kept with the text that was refused. *)
Definition new_paragraph (fs : Assets) (text : Text) (style : ParagraphStyle)
    : result Flowable :=
  if markup_ok fs (render text) then Ok (Paragraph text style)
  else Raise (ValueError (render text)).

(** [story.append(Paragraph(text, style))] *)
Definition append_paragraph (fs : Assets) (text : Text)
    (style : ParagraphStyle) (story : list Flowable)
    : result (list Flowable) :=
  p ← new_paragraph fs text style;
  Ok (story ++ [p]).

(** The loop [for opt in "ABCD"]. *)
Fixpoint options_loop (fs : Assets) (opts : list (string * option string))
    (story : list Flowable) : result (list Flowable) :=
  match opts with
  | [] => Ok story
  | (opt, v) :: opts' =>
      match truthy v with
      | Some val =>
          story ← append_paragraph fs (ChoiceText opt val) normal_style story;
          options_loop fs opts' story
      | None => options_loop fs opts' story
      end
  end.

(** Body of the loop [for q in chapter_group] (lines 167-183); the state
    is the story and [question_index]. *)
Definition item_step (fs : Assets) (q : Question)
    (st : list Flowable * nat) : result (list Flowable * nat) :=
  let '(story, question_index) := st in
  story ← append_paragraph fs (ItemText question_index q) normal_style story;
  story ← (if decide (question_type q = "single_choice")
           then options_loop fs (options q) story else Ok story);
  let story :=
    match safe_image fs (image_path q) with
    | Some img => story ++ [Spacer 1 6; img]
    | None => story
    end in
  Ok (story ++ [Spacer 1 12], question_index + 1).

Fixpoint chapter_group_loop (fs : Assets) (chapter_group : list Question)
    (st : list Flowable * nat) : result (list Flowable * nat) :=
  match chapter_group with
  | [] => Ok st
  | q :: rest =>
      st ← item_step fs q st;
      chapter_group_loop fs rest st
  end.

(** [d[k]], raising [KeyError]. *)
Definition getitem {V} (k : string) (d : list (string * V)) : result V :=
  match assoc k d with
  | Some v => Ok v
  | None => Raise (KeyError k)
  end.

(** The loop over [groupby(subject_group, chapter_num)] (lines 162-183). *)
Fixpoint chapters_loop (fs : Assets) (subject_code : string)
    (groups : list (string * list Question))
    (st : list Flowable * nat) : result (list Flowable * nat) :=
  match groups with
  | [] => Ok st
  | (chapter_num, chapter_group) :: rest =>
      info ← getitem subject_code SUBJECTS;
      chapter_name ← getitem chapter_num (chapters info);
      story ← append_paragraph fs (Literal chapter_name) chapter_title_style
                st.1;
      st ← chapter_group_loop fs chapter_group (story, st.2);
      chapters_loop fs subject_code rest st
  end.

(** The loop over [groupby(questions, subject_code)] (lines 156-187). *)
Fixpoint subjects_loop (fs : Assets)
    (groups : list (string * list Question))
    (st : list Flowable * nat) : result (list Flowable * nat) :=
  match groups with
  | [] => Ok st
  | (subject_code, subject_group) :: rest =>
      info ← getitem subject_code SUBJECTS;
      story ← append_paragraph fs (Literal (name info)) subject_title_style
                st.1;
      st ← chapters_loop fs subject_code (groupby chapter_num subject_group)
             (story, st.2);
      subjects_loop fs rest (st.1 ++ [PageBreak], st.2)
  end.

(** Body of the loop [for i, q in enumerate(questions, 1)] (lines 194-208). *)
Definition answer_step (fs : Assets) (i : nat) (q : Question)
    (story : list Flowable) : result (list Flowable) :=
  story ← append_paragraph fs (AnswerText i q) normal_style story;
  story ← match truthy (explanation q) with
          | Some e =>
              story ← append_paragraph fs (Literal "解析：") normal_style story;
              append_paragraph fs (Literal (replace_newlines e)) normal_style
                story
          | None => Ok story
          end;
  let story :=
    match truthy (image_path q) with
    | Some _ =>
        match safe_image fs (image_path q) with
        | Some img => story ++ [Spacer 1 6; img]
        | None => story
        end
    | None => story
    end in
  Ok (story ++ [Spacer 1 12]).

Fixpoint answers_loop (fs : Assets) (iqs : list (nat * Question))
    (story : list Flowable) : result (list Flowable) :=
  match iqs with
  | [] => Ok story
  | (i, q) :: rest =>
      story ← answer_step fs i q story;
      answers_loop fs rest story
  end.

(** The cover and the heading of the items part (lines 141-151); [now] is
    [datetime.now().strftime('%Y年%m月%d日')]. *)
Definition cover (fs : Assets) (now : string) : result (list Flowable) :=
  let story := [Spacer 1 108] in
  story ← append_paragraph fs (Literal "Open-CS-408") cover_title_style story;
  story ← append_paragraph fs (Literal "习题册") cover_title_style story;
  let story := story ++ [Spacer 1 36] in
  story ← append_paragraph fs (Literal ("生成时间：" +:+ now)) normal_style
            story;
  let story := story ++ [PageBreak] in
  story ← append_paragraph fs (Literal "习题") chapter_title_style story;
  Ok (story ++ [Spacer 1 12]).

(** The list [story] of [generate_content_pdf] when [doc.build] is
    reached, or the exception raised before. *)
Definition story (fs : Assets) (now : string) (questions : list Question)
    : result (list Flowable) :=
  story ← cover fs now;
  let question_index := 1 in
  st ← subjects_loop fs (groupby subject_code questions)
         (story, question_index);
  story ← append_paragraph fs (Literal "答案解析") chapter_title_style st.1;
  let story := story ++ [Spacer 1 12] in
  answers_loop fs (enumerate_from 1 questions) story.

(** *** The story when every text is accepted

    The same loops with the paragraph constructor applied without its
    check: the blocks the generator appends in a run in which the parser
    refuses nothing.  A story that is built is this one (see
    [story_refines]). *)
Fixpoint options_plan (opts : list (string * option string))
    (story : list Flowable) : list Flowable :=
  match opts with
  | [] => story
  | (opt, v) :: opts' =>
      match truthy v with
      | Some val =>
          options_plan opts'
            (story ++ [Paragraph (ChoiceText opt val) normal_style])
      | None => options_plan opts' story
      end
  end.

Definition item_plan (fs : Assets) (q : Question)
    (st : list Flowable * nat) : list Flowable * nat :=
  let '(story, question_index) := st in
  let story := story ++ [Paragraph (ItemText question_index q) normal_style] in
  let story :=
    if decide (question_type q = "single_choice")
    then options_plan (options q) story else story in
  let story :=
    match safe_image fs (image_path q) with
    | Some img => story ++ [Spacer 1 6; img]
    | None => story
    end in
  (story ++ [Spacer 1 12], question_index + 1).

Fixpoint chapter_group_plan (fs : Assets) (chapter_group : list Question)
    (st : list Flowable * nat) : list Flowable * nat :=
  match chapter_group with
  | [] => st
  | q :: rest => chapter_group_plan fs rest (item_plan fs q st)
  end.

Fixpoint chapters_plan (fs : Assets) (subject_code : string)
    (groups : list (string * list Question))
    (st : list Flowable * nat) : result (list Flowable * nat) :=
  match groups with
  | [] => Ok st
  | (chapter_num, chapter_group) :: rest =>
      info ← getitem subject_code SUBJECTS;
      chapter_name ← getitem chapter_num (chapters info);
      let st := (st.1 ++ [Paragraph (Literal chapter_name) chapter_title_style],
                 st.2) in
      chapters_plan fs subject_code rest (chapter_group_plan fs chapter_group st)
  end.

Fixpoint subjects_plan (fs : Assets)
    (groups : list (string * list Question))
    (st : list Flowable * nat) : result (list Flowable * nat) :=
  match groups with
  | [] => Ok st
  | (subject_code, subject_group) :: rest =>
      info ← getitem subject_code SUBJECTS;
      let st := (st.1 ++ [Paragraph (Literal (name info)) subject_title_style],
                 st.2) in
      st ← chapters_plan fs subject_code (groupby chapter_num subject_group) st;
      subjects_plan fs rest (st.1 ++ [PageBreak], st.2)
  end.

Definition answer_plan (fs : Assets) (i : nat) (q : Question)
    (story : list Flowable) : list Flowable :=
  let story := story ++ [Paragraph (AnswerText i q) normal_style] in
  let story :=
    match truthy (explanation q) with
    | Some e =>
        story ++ [Paragraph (Literal "解析：") normal_style;
                  Paragraph (Literal (replace_newlines e)) normal_style]
    | None => story
    end in
  let story :=
    match truthy (image_path q) with
    | Some _ =>
        match safe_image fs (image_path q) with
        | Some img => story ++ [Spacer 1 6; img]
        | None => story
        end
    | None => story
    end in
  story ++ [Spacer 1 12].

Fixpoint answers_plan (fs : Assets) (iqs : list (nat * Question))
    (story : list Flowable) : list Flowable :=
  match iqs with
  | [] => story
  | (i, q) :: rest => answers_plan fs rest (answer_plan fs i q story)
  end.

Definition cover_plan (now : string) : list Flowable :=
  [ Spacer 1 108;
    Paragraph (Literal "Open-CS-408") cover_title_style;
    Paragraph (Literal "习题册") cover_title_style;
    Spacer 1 36;
    Paragraph (Literal ("生成时间：" +:+ now)) normal_style;
    PageBreak;
    Paragraph (Literal "习题") chapter_title_style;
    Spacer 1 12 ].

Definition story_plan (fs : Assets) (now : string) (questions : list Question)
    : result (list Flowable) :=
  let question_index := 1 in
  st ← subjects_plan fs (groupby subject_code questions)
         (cover_plan now, question_index);
  let story := st.1 ++ [Paragraph (Literal "答案解析") chapter_title_style;
                        Spacer 1 12] in
  Ok (answers_plan fs (enumerate_from 1 questions) story).

(** The numbered records of the two parts of a story, in order. *)
Definition item_labels (story : list Flowable) : list (nat * Question) :=
  omap (λ b, match b with
             | Paragraph (ItemText n q) _ => Some (n, q)
             | _ => None
             end) story.

Definition answer_labels (story : list Flowable) : list (nat * Question) :=
  omap (λ b, match b with
             | Paragraph (AnswerText n q) _ => Some (n, q)
             | _ => None
             end) story.

(** The choice paragraphs and the images of a run of blocks, in order. *)
Definition choice_letters (blocks : list Flowable) : list (string * string) :=
  omap (λ b, match b with
             | Paragraph (ChoiceText opt val) _ => Some (opt, val)
             | _ => None
             end) blocks.

Definition images (blocks : list Flowable) : list string :=
  omap (λ b, match b with
             | PlatypusImage p _ => Some p
             | _ => None
             end) blocks.

(** The letters A to D with the texts of the choices that are filled in. *)
Definition filled_options (q : Question) : list (string * string) :=
  omap (λ '(opt, v), (λ val, (opt, val)) <$> truthy v) (options q).

(** The image reference leads to no usable image: it is absent or empty,
    the file does not exist, or the file cannot be opened as an image. *)
Definition unresolved (fs : Assets) (image_path : option string) : Prop :=
  match truthy image_path with
  | None => True
  | Some p => path_exists fs p = false ∨ image_opens fs p = false
  end.

(** A subject and chapter that are among the configured ones, and a
    record that has such a pair. *)
Definition known_chapter (subject chapter : string) : Prop :=
  ∃ info, assoc subject SUBJECTS = Some info
          ∧ is_Some (assoc chapter (chapters info)).

Definition configured (q : Question) : Prop :=
  known_chapter (subject_code q) (chapter_num q).

(** What makes the generator stop before [doc.build]: a text the
    parser refuses, or the [KeyError] of a subject or chapter that is not
    configured. *)
Definition refused (fs : Assets) (e : exn) : Prop :=
  ∃ text, e = ValueError text ∧ markup_ok fs text = false.

Definition story_failure (fs : Assets) (questions : list Question)
    (e : exn) : Prop :=
  (∃ k, e = KeyError k ∧ ¬ Forall configured questions) ∨ refused fs e.

(** How a loop whose paragraphs the parser may refuse relates to the
    same loop without the check of the parser: it gives the same result,
    or stops at a refused text, or stops at the same exception. *)
Definition refines {A} (fs : Assets) (run plan : result A) : Prop :=
  match run, plan with
  | Ok a, Ok a' => a = a'
  | Ok _, Raise _ => False
  | Raise e, Ok _ => refused fs e
  | Raise e, Raise e' => refused fs e ∨ e = e'
  end.

(** The groups the two nested loops can go through without a
    [KeyError]. *)
Definition known_groups (groups : list (string * list Question)) : Prop :=
  Forall (λ kg, is_Some (assoc kg.1 SUBJECTS)
                ∧ Forall (λ cg, known_chapter kg.1 cg.1)
                         (groupby chapter_num kg.2)) groups.

(** The blocks one record adds in the items pass: what the loop body
    appends to an empty story. *)
Definition item_blocks (fs : Assets) (question_index : nat) (q : Question)
    : list Flowable :=
  (item_plan fs q ([], question_index)).1.

(** ** Outline stage (generate_pdf.py, [add_bookmarks]) *)

(** An outline entry as handed to [writer.add_outline_item]; the handle of
    an entry is its position in the writer's outline. *)
Record OutlineItem := {
  title : string;
  page_number : Z;
  parent : option nat
}.

Global Instance OutlineItem_eq_dec : EqDecision OutlineItem.
Proof. solve_decision. Defined.

Record PdfWriter := {
  num_pages : nat;
  outline : list OutlineItem
}.

Definition add_outline_item (writer : PdfWriter) (title : string)
    (page_number : Z) (parent : option nat) : PdfWriter * nat :=
  ({| num_pages := num_pages writer;
      outline := outline writer
                 ++ [{| title := title; page_number := page_number;
                        parent := parent |}] |},
   length (outline writer)).

(** The loop over [groupby(subject_group, chapter_num)] (lines 232-236);
    the state is the writer and [current_page]. *)
Fixpoint bookmark_chapters_loop (subject_code : string) (subj_bm : nat)
    (groups : list (string * list Question))
    (st : PdfWriter * Z) : result (PdfWriter * Z) :=
  match groups with
  | [] => Ok st
  | (chapter_num, _) :: rest =>
      info ← getitem subject_code SUBJECTS;
      chapter_name ← getitem chapter_num (chapters info);
      let '(writer, current_page) := st in
      let writer :=
        (add_outline_item writer chapter_name current_page (Some subj_bm)).1 in
      bookmark_chapters_loop subject_code subj_bm rest
        (writer, (current_page + 1)%Z)
  end.

(** The loop over [groupby(questions, subject_code)] (lines 227-236). *)
Fixpoint bookmark_subjects_loop (part1 : nat)
    (groups : list (string * list Question))
    (st : PdfWriter * Z) : result (PdfWriter * Z) :=
  match groups with
  | [] => Ok st
  | (subject_code, subject_group) :: rest =>
      info ← getitem subject_code SUBJECTS;
      let '(writer, current_page) := st in
      let '(writer, subj_bm) :=
        add_outline_item writer (name info) current_page (Some part1) in
      st ← bookmark_chapters_loop subject_code subj_bm
             (groupby chapter_num subject_group) (writer, current_page);
      bookmark_subjects_loop part1 rest st
  end.

(** The writer of [add_bookmarks] when [open(final_path, "wb")] is
    reached (lines 220-239), for a source artifact of [n] pages. *)
Definition bookmarked (n : nat) (questions : list Question)
    : result PdfWriter :=
  let writer := {| num_pages := n; outline := [] |} in
  let '(writer, part1) := add_outline_item writer "习题" 1 None in
  let current_page := 1%Z in
  st ← bookmark_subjects_loop part1 (groupby subject_code questions)
         (writer, current_page);
  let answer_page := (Z.of_nat n - 1)%Z in
  Ok (add_outline_item st.1 "答案解析" answer_page None).1.

(** The entries below the entry with handle [h], in order. *)
Definition child_entries (ol : list OutlineItem) (h : nat)
    : list OutlineItem :=
  filter (λ e, parent e = Some h) ol.

(** An entry two levels below the top: its parent is an entry whose
    parent is the entry with handle [top]. *)
Definition grandchild_of (ol : list OutlineItem) (top : nat)
    (e : OutlineItem) : Prop :=
  (h ← parent e; s ← ol !! h; parent s) = Some top.

Global Instance grandchild_of_dec ol top e : Decision (grandchild_of ol top e).
Proof. unfold grandchild_of. apply _. Defined.

(** The keys of the two nested groupings: each subject run with its
    chapter runs. *)
Definition group_keys (questions : list Question)
    : list (string * list string) :=
  (λ '(subject_code, subject_group),
     (subject_code, (groupby chapter_num subject_group).*1))
    <$> groupby subject_code questions.

(** The (subject, chapter) runs of a record sequence, in order. *)
Definition subgroups (questions : list Question) : list (string * string) :=
  '(subject_code, chapter_nums) ← group_keys questions;
  (λ chapter_num, (subject_code, chapter_num)) <$> chapter_nums.

(** The configured display names. *)
Definition subject_title (subject : string) : string :=
  default "" (name <$> assoc subject SUBJECTS).

Definition chapter_title (subject chapter : string) : string :=
  default "" (info ← assoc subject SUBJECTS; assoc chapter (chapters info)).

(** The entries the two loops append, written out: for each chapter of
    the subject one entry, on consecutive pages from [page] on ... *)
Fixpoint chapter_entries (subject : string) (subj_bm : nat) (page : Z)
    (chapter_nums : list string) : list OutlineItem :=
  match chapter_nums with
  | [] => []
  | c :: rest =>
      {| title := chapter_title subject c; page_number := page;
         parent := Some subj_bm |}
      :: chapter_entries subject subj_bm (page + 1) rest
  end.

(** ... and for each subject its entry, at the position [handle], then
    the entries of its chapters. *)
Fixpoint subject_entries (part1 handle : nat) (page : Z)
    (groups : list (string * list string)) : list OutlineItem :=
  match groups with
  | [] => []
  | (subject, chapter_nums) :: rest =>
      {| title := subject_title subject; page_number := page;
         parent := Some part1 |}
      :: chapter_entries subject handle page chapter_nums
      ++ subject_entries part1 (handle + 1 + length chapter_nums)
           (page + Z.of_nat (length chapter_nums)) rest
  end.

(** ** State and exceptions

    Code that changes a store and may raise: a computation maps the state
    to the state it leaves and either a value or the exception raised.
    What was changed before the exception stays changed. *)
Definition SE (S A : Type) : Type := S → result A * S.

Global Instance SE_ret {S} : MRet (SE S) := λ A a s, (Ok a, s).

Global Instance SE_bind {S} : MBind (SE S) := λ A B k m s,
  match m s with
  | (Ok a, s') => k a s'
  | (Raise e, s') => (Raise e, s')
  end.

Definition raise {S A} (e : exn) : SE S A := λ s, (Raise e, s).

Definition lift {S A} (r : result A) : SE S A := λ s, (r, s).

Definition modify {S} (f : S → S) : SE S unit := λ s, (Ok (), f s).

(** ** Command-line entry point (generate_pdf.py, [main]) *)

(** Contents of the files the pipeline writes and reads. *)
Inductive File :=
| ContentPdf (story : list Flowable) (npages : nat)
| OutlinedPdf (writer : PdfWriter)
| Truncated (nbytes : nat)
| OtherFile (content : string).

(** Everything outside the program that a run depends on. *)
Record Host := {
  font_present : bool;                  (* [Path(FONT_PATH).exists()] *)
  rows : list Question;                 (* table [questions] of [DB_PATH] *)
  assets : Assets;
  now : string;                         (* the formatted date of the run *)
  layout : list Flowable → result nat;  (* [doc.build]: the page count,
                                           or the exception it raises *)
  read_fault : bool;                    (* [PdfReader] cannot open or
                                           parse the artifact *)
  write_fault : option nat              (* [writer.write(f)] raises after
                                           that many bytes *)
}.

(** The files by name and the lines printed so far. *)
Record Proc := {
  fs : gmap string File;
  stdout : list string
}.

Definition print (msg : string) : SE Proc unit :=
  modify (λ p, {| fs := fs p; stdout := stdout p ++ [msg] |}).

Definition write_file (path : string) (f : File) : SE Proc unit :=
  modify (λ p, {| fs := <[path := f]> (fs p); stdout := stdout p |}).

(** [Path(path).unlink(missing_ok=True)] *)
Definition unlink (path : string) : SE Proc unit :=
  modify (λ p, {| fs := delete path (fs p); stdout := stdout p |}).

Definition register_chinese_font (h : Host) : SE Proc string :=
  if negb (font_present h) then raise (FileNotFoundError FONT_PATH)
  else mret "NotoSansSC".

(** [doc.build] lays the story out and saves the document at the end, so
    an exception before that leaves no file. *)
Definition generate_content_pdf (h : Host) (questions : list Question)
    (output_path : string) : SE Proc unit :=
  story ← lift (story (assets h) (now h) questions);
  npages ← lift (layout h story);
  write_file output_path (ContentPdf story npages);;
  print ("✅ 内容PDF已生成：" +:+ output_path).

(** [reader = PdfReader(pdf_path)] and [len(reader.pages)]. *)
Definition PdfReader (h : Host) (pdf_path : string) : SE Proc nat := λ p,
  if read_fault h then (Raise (PdfReadError pdf_path), p)
  else match fs p !! pdf_path with
       | Some (ContentPdf _ npages) => (Ok npages, p)
       | Some (OutlinedPdf writer) => (Ok (num_pages writer), p)
       | Some _ => (Raise (PdfReadError pdf_path), p)
       | None => (Raise (FileNotFoundError pdf_path), p)
       end.

(** [with open(final_path, "wb") as f: writer.write(f)]: opening creates
    the file or empties it, then the bytes are written. *)
Definition write_outlined (h : Host) (final_path : string)
    (writer : PdfWriter) : SE Proc unit :=
  write_file final_path (Truncated 0);;
  match write_fault h with
  | Some nbytes =>
      write_file final_path (Truncated nbytes);;
      raise (OSError final_path)
  | None => write_file final_path (OutlinedPdf writer)
  end.

Definition add_bookmarks (h : Host) (pdf_path : string)
    (questions : list Question) : SE Proc string :=
  n ← PdfReader h pdf_path;
  writer ← lift (bookmarked n questions);
  let final_path := OUTPUT_PDF in
  write_outlined h final_path writer;;
  print ("✅ 带书签PDF已生成：" +:+ final_path);;
  mret final_path.

Definition main (h : Host) : SE Proc unit :=
  if negb (font_present h) then
    print "❌ 字体文件不存在，请将 NotoSansSC-Regular.ttf 放入 fonts 目录"
  else
    let questions := fetch_published_questions (rows h) in
    match questions with
    | [] => print "⚠️ 无已发布题目"
    | _ =>
        print ("📚 共 " +:+ str_of_nat (length questions)
               +:+ " 道题，正在生成PDF...");;
        let temp_pdf := "temp_workbook.pdf" in
        generate_content_pdf h questions temp_pdf;;
        final_pdf ← add_bookmarks h temp_pdf questions;
        unlink temp_pdf;;
        print (String (Ascii.ascii_of_nat 10) "🎉 完成！最终文件：" +:+ final_pdf)
    end.

(** Running the file as a program: the module body registers the font
    (line 58), then [main()] is called (line 270). *)
Definition script (h : Host) : SE Proc unit :=
  register_chinese_font h;;
  main h.

(** Exit status of the interpreter: 0 when the program returns, 1 when an
    exception is not caught (its traceback and message go to stderr). *)
Definition exit_status {A} (r : result A) : Z :=
  match r with
  | Ok _ => 0
  | Raise _ => 1
  end.

Definition stderr {A} (r : result A) : option exn :=
  match r with
  | Ok _ => None
  | Raise e => Some e
  end.

(** The failures the specification counts as core failures of a run: the
    font is missing, the catalog is empty, or the artifact cannot be
    opened again. *)
Definition core_failure (h : Host) : Prop :=
  font_present h = false
  ∨ fetch_published_questions (rows h) = []
  ∨ read_fault h = true.

(** Everything [main] computes before [open(final_path, "wb")]: the
    writer that is about to be saved, or the exception raised on the
    way. *)
Definition staged (h : Host) : result PdfWriter :=
  let questions := fetch_published_questions (rows h) in
  story ← story (assets h) (now h) questions;
  npages ← layout h story;
  (if read_fault h then Raise (PdfReadError "temp_workbook.pdf") else Ok ());;
  bookmarked npages questions.

(** The two claims about failing runs as the specification words them: a
    core failure ends the run with a non-zero exit status, and a run that
    fails leaves no partial file under the final name. *)
Definition fails_loudly (h : Host) (p : Proc) : Prop :=
  core_failure h → exit_status (script h p).1 ≠ 0%Z.

Definition fails_clean (h : Host) (p : Proc) : Prop :=
  exit_status (script h p).1 ≠ 0%Z →
  ∀ nbytes, fs (script h p).2 !! OUTPUT_PDF ≠ Some (Truncated nbytes).

(** ** Question manager (manager.py) *)

(** The application object: the table [questions] behind [self.db], the
    selection, and the message boxes shown so far. *)
Record App := {
  db : list Question;
  current_question_id : option string;
  current_question_data : option Question;
  current_image_path : option string;
  dialogs : list string
}.

(** What the manager's file and clock calls return. *)
Record Desktop := {
  today : string;                           (* [strftime("%Y-%m-%d")] *)
  file_exists : string → bool;              (* [Path(p).exists()] *)
  suffix : string → string;                 (* [Path(p).suffix] *)
  copy2 : string → string → result unit     (* [shutil.copy2(src, dst)] *)
}.

Definition set_db (rows : list Question) (app : App) : App :=
  {| db := rows;
     current_question_id := current_question_id app;
     current_question_data := current_question_data app;
     current_image_path := current_image_path app;
     dialogs := dialogs app |}.

Definition messagebox (msg : string) : SE App unit :=
  modify (λ app,
    {| db := db app;
       current_question_id := current_question_id app;
       current_question_data := current_question_data app;
       current_image_path := current_image_path app;
       dialogs := dialogs app ++ [msg] |}).

(** *** Identifier assigner ([generate_question_id]) *)

(** [int(s)] for a string of decimal digits, read from the left. *)
Definition digit_of (c : Ascii.ascii) : option N :=
  let n := Ascii.N_of_ascii c in
  if decide (48 ≤ n ≤ 57)%N then Some (n - 48)%N else None.

Fixpoint int_from (acc : N) (s : string) : option N :=
  match s with
  | EmptyString => Some acc
  | String c s' => d ← digit_of c; int_from (acc * 10 + d) s'
  end.

Definition int (s : string) : option N :=
  if decide (s = "") then None else int_from 0 s.

(** A code made of ASCII letters and digits only: interpolated into a
    pattern it stands for itself. *)
Definition alnum (c : Ascii.ascii) : bool :=
  let n := Ascii.N_of_ascii c in
  bool_decide (48 ≤ n ≤ 57)%N || bool_decide (65 ≤ n ≤ 90)%N
  || bool_decide (97 ≤ n ≤ 122)%N.

Fixpoint literal_code (s : string) : bool :=
  match s with
  | EmptyString => true
  | String c s' => alnum c && literal_code s'
  end.

(** [re.match(rf"{subject_code}{chapter_num}(\d{{6}})", last_id)] and its
    group 1, for codes that are [literal_code], as the configured ones
    are, and identifiers of ASCII characters: the two codes are a literal
    prefix and [\d] is one of the digits 0 to 9.  Outside this domain the
    function says nothing about the source: a code with a character that
    the pattern language reads as an operator changes what is matched or
    makes [re.match] raise, and [\d] and [int] also accept decimal digits
    that are not ASCII. *)
Definition re_match (subject_code chapter_num last_id : string)
    : option string :=
  let prefix := subject_code +:+ chapter_num in
  if String.prefix prefix last_id then
    let group1 := String.substring (String.length prefix) 6 last_id in
    if decide (String.length group1 = 6 ∧ is_Some (int group1))
    then Some group1 else None
  else None.

(** [f"{n:06d}"] *)
Fixpoint zeros (k : nat) : string :=
  match k with
  | O => ""
  | S k' => "0" +:+ zeros k'
  end.

Definition format_06d (n : N) : string :=
  let digits := NilZero.string_of_uint (N.to_uint n) in
  zeros (6 - String.length digits) +:+ digits.

(** The query of [generate_question_id]: the ids of the rows of that
    subject and chapter, [ORDER BY id DESC LIMIT 1]. *)
Definition select_last_id (rows : list Question)
    (subject chapter : string) : list string :=
  take 1 (sort_by (flip String.le) (λ s, s)
            (id <$> filter (λ q, subject_code q = subject
                                 ∧ chapter_num q = chapter) rows)).

Definition generate_question_id (rows : list Question)
    (subject_code chapter_num : string) : string :=
  let result := select_last_id rows subject_code chapter_num in
  let new_num :=
    match result with
    | last_id :: _ =>
        match re_match subject_code chapter_num last_id with
        | Some group1 =>
            match int group1 with
            | Some last_num => (last_num + 1)%N
            | None => 1%N
            end
        | None => 1%N
        end
    | [] => 1%N
    end in
  subject_code +:+ chapter_num +:+ format_06d new_num.

(** The contract of the identifier assigner in the words of the
    specification: one more than the greatest sequence value among the
    existing identifiers of the pair that parse as prefix plus six digits,
    those that do not parse being skipped, and 1 when there is none. *)
Definition parsed_seq (subject_code chapter_num ident : string) : option N :=
  group1 ← re_match subject_code chapter_num ident;
  int group1.

Definition next_id_by_contract (existing : list string)
    (subject_code chapter_num : string) : string :=
  let seqs := omap (parsed_seq subject_code chapter_num) existing in
  subject_code +:+ chapter_num
  +:+ format_06d (foldr N.max 0%N seqs + 1)%N.

(** *** Store operations *)

(** [INSERT INTO questions ... VALUES (...)]: the primary key refuses a
    second row with the same id. *)
Definition insert_question (question_data : Question) : SE App unit := λ app,
  if decide (id question_data ∈ id <$> db app)
  then (Raise (IntegrityError "UNIQUE constraint failed: questions.id"), app)
  else (Ok (), set_db (db app ++ [question_data]) app).

(** [question_data[k]] on a dict whose values are [None] or strings. *)
Definition item (question_data : gmap string (option string)) (k : string)
    : result (option string) :=
  match question_data !! k with
  | Some v => Ok v
  | None => Raise (KeyError k)
  end.

(** The row an [UPDATE ... SET ... WHERE id = ?] leaves in place of [r];
    the statement fails when a [NOT NULL] column would become null. *)
Definition updated_row (r : Question)
    (subject_code chapter_num question_type status question_text
     option_a option_b option_c option_d correct_answer
     explanation knowledge notes : option string)
    (last_modified : string) (image_path : option string)
    : result Question :=
  match subject_code, chapter_num, question_type, status, question_text,
        correct_answer with
  | Some subject_code, Some chapter_num, Some question_type, Some status,
    Some question_text, Some correct_answer =>
      Ok {| id := id r;
            subject_code := subject_code;
            chapter_num := chapter_num;
            question_type := question_type;
            status := status;
            question_text := question_text;
            option_a := option_a;
            option_b := option_b;
            option_c := option_c;
            option_d := option_d;
            correct_answer := correct_answer;
            explanation := explanation;
            knowledge := knowledge;
            notes := notes;
            created_date := created_date r;
            last_modified := last_modified;
            image_path := image_path |}
  | _, _, _, _, _, _ =>
      Raise (IntegrityError "NOT NULL constraint failed")
  end.

(** Runs the update over the table: each row the [WHERE] clause selects
    is replaced, the others are kept. *)
Fixpoint sql_update (where_id : option string)
    (set : Question → result Question) (rows : list Question)
    : result (list Question) :=
  match rows with
  | [] => Ok []
  | r :: rows' =>
      r' ← (if decide (where_id = Some (id r)) then set r else Ok r);
      rows'' ← sql_update where_id set rows';
      Ok (r' :: rows'')
  end.

(** [update_question]: the parameters are read from the dict in the order
    of the tuple (lines 1033-1041), then the statement is executed; a
    failed statement changes nothing. *)
Definition update_question (d : Desktop)
    (question_data : gmap string (option string)) : SE App unit := λ app,
  let params :=
    subject_code ← item question_data "subject_code";
    chapter_num ← item question_data "chapter_num";
    question_type ← item question_data "question_type";
    status ← item question_data "status";
    question_text ← item question_data "question_text";
    option_a ← item question_data "option_a";
    option_b ← item question_data "option_b";
    option_c ← item question_data "option_c";
    option_d ← item question_data "option_d";
    correct_answer ← item question_data "correct_answer";
    explanation ← item question_data "explanation";
    knowledge ← item question_data "knowledge";
    notes ← item question_data "notes";
    image_path ← item question_data "image_path";
    qid ← item question_data "id";
    Ok (qid, λ r, updated_row r subject_code chapter_num question_type status
                    question_text option_a option_b option_c option_d
                    correct_answer explanation knowledge notes (today d)
                    image_path) in
  match params with
  | Raise e => (Raise e, app)
  | Ok (qid, set) =>
      match sql_update qid set (db app) with
      | Ok rows => (Ok (), set_db rows app)
      | Raise e => (Raise e, app)
      end
  end.

(** [update_view_tab] (lines 692-736) builds the text of the view tab.
    The two lookups in [SUBJECTS] (lines 699-700) raise [KeyError] for a
    subject or a chapter that is not configured; the other entries are
    read with [get] or from the keys of the row. *)
Definition update_view_tab (question_data : Question) : result unit :=
  info ← getitem (subject_code question_data) SUBJECTS;
  chapter_name ← getitem (chapter_num question_data) (chapters info);
  Ok ().

(** [load_question] (lines 644-690): selects the record and reads its
    row.  The id is set first and the row is kept as the current data;
    the image path is set by [update_edit_tab] (line 759), which is
    reached only when [update_view_tab] has returned. *)
Definition load_question (question_id : string) : SE App unit := λ app,
  match filter (λ r, id r = question_id) (db app) with
  | [] =>
      (Ok (), {| db := db app;
                 current_question_id := Some question_id;
                 current_question_data := current_question_data app;
                 current_image_path := current_image_path app;
                 dialogs := dialogs app ++ ["未找到题目 " +:+ question_id] |})
  | row :: _ =>
      match update_view_tab row with
      | Raise e =>
          (Raise e, {| db := db app;
                       current_question_id := Some question_id;
                       current_question_data := Some row;
                       current_image_path := current_image_path app;
                       dialogs := dialogs app |})
      | Ok _ =>
          (Ok (), {| db := db app;
                     current_question_id := Some question_id;
                     current_question_data := Some row;
                     current_image_path := image_path row;
                     dialogs := dialogs app |})
      end
  end.

(** *** Paths ([pathlib] on a POSIX system)

    [Path("assets/images") / name] keeps the two arguments, joins them
    with [posixpath.join] and parses the result: the root is split off,
    the rest is split at the separator, and empty parts and [.] are
    dropped.  [str] puts the root and the parts together again. *)
Definition slash : Ascii.ascii := Ascii.ascii_of_nat 47.

(** [s[i:i+1] == '/'] *)
Definition char_is_sep (i : nat) (s : string) : bool :=
  match String.get i s with
  | Some c => Ascii.eqb c slash
  | None => false
  end.

(** [s.endswith('/')] *)
Definition ends_with_sep (s : string) : bool :=
  char_is_sep (String.length s - 1) s.

(** [posixpath.join(a, b)] *)
Definition posixpath_join (a b : string) : string :=
  if char_is_sep 0 b then b
  else if bool_decide (a = "") || ends_with_sep a then a +:+ b
  else a +:+ "/" +:+ b.

(** The root of [posixpath.splitroot(p)]: two leading separators are
    kept as they are, one or more than two make the root [/]. *)
Definition root_of (p : string) : string :=
  if negb (char_is_sep 0 p) then ""
  else if negb (char_is_sep 1 p) || char_is_sep 2 p then "/"
  else "//".

(** [s.split('/')] *)
Fixpoint split_sep (s : string) : list string :=
  match s with
  | "" => [""]
  | String c s' =>
      if Ascii.eqb c slash then "" :: split_sep s'
      else match split_sep s' with
           | part :: parts => String c part :: parts
           | [] => [String c ""]
           end
  end.

(** ['/'.join(parts)] *)
Fixpoint join_sep (parts : list string) : string :=
  match parts with
  | [] => ""
  | part :: parts' =>
      match parts' with
      | [] => part
      | _ => part +:+ "/" +:+ join_sep parts'
      end
  end.

(** [str(Path(path))] *)
Definition str_path (path : string) : string :=
  let root := root_of path in
  let rel :=
    String.substring (String.length root)
      (String.length path - String.length root) path in
  let tail := filter (λ x, x ≠ "" ∧ x ≠ ".") (split_sep rel) in
  let s := root +:+ join_sep tail in
  if decide (s = "") then "." else s.

(** [str(Path(a) / b)] *)
Definition path_join (a b : string) : string :=
  str_path (posixpath_join a b).

(** A file name that is a single part of a path. *)
Definition plain_name (name : string) : Prop :=
  name ≠ "" ∧ name ≠ "." ∧ split_sep name = [name].

(** The image step of [duplicate_question] (lines 1170-1175): when the
    selected record has an image file, it is copied under the new id and
    the copy's path is returned; otherwise the path of the source record
    is kept. *)
Definition copy_image (d : Desktop) (app : App) (new_question_id : string)
    (data : Question) : result (option string) :=
  match truthy (current_image_path app) with
  | Some p =>
      if file_exists d p then
        let file_extension := suffix d p in
        let new_image_path :=
          path_join "assets/images" (new_question_id +:+ file_extension) in
        copy2 d p new_image_path;;
        Ok (Some new_image_path)
      else Ok (image_path data)
  | None => Ok (image_path data)
  end.

(** The dict [new_question_data]: a copy of the selected record with a
    new id, the dates of today and the status [draft]. *)
Definition duplicate_of (d : Desktop) (data : Question)
    (new_question_id : string) (new_image : option string) : Question :=
  {| id := new_question_id;
     subject_code := subject_code data;
     chapter_num := chapter_num data;
     question_type := question_type data;
     status := "draft";
     question_text := question_text data;
     option_a := option_a data;
     option_b := option_b data;
     option_c := option_c data;
     option_d := option_d data;
     correct_answer := correct_answer data;
     explanation := explanation data;
     knowledge := knowledge data;
     notes := notes data;
     created_date := today d;
     last_modified := today d;
     image_path := new_image |}.

(** [duplicate_question] (lines 1150-1184). *)
Definition duplicate_question (d : Desktop) : SE App unit := λ app,
  match truthy (current_question_id app) with
  | None => messagebox "没有选中任何题目" app
  | Some _ =>
      match current_question_data app with
      | None => (Raise TypeError, app)
      | Some data =>
          let subject_code := subject_code data in
          let chapter_num := chapter_num data in
          let new_question_id :=
            generate_question_id (db app) subject_code chapter_num in
          (new_image ← lift (copy_image d app new_question_id data);
           let new_question_data :=
             duplicate_of d data new_question_id new_image in
           insert_question new_question_data;;
           load_question new_question_id;;
           messagebox ("题目复制成功! 新题目ID: " +:+ new_question_id)) app
      end
  end.

(** ** Sample data *)

Definition sample_question (ident subject chapter kind state : string)
    : Question :=
  {| id := ident;
     subject_code := subject;
     chapter_num := chapter;
     question_type := kind;
     status := state;
     question_text := "下列排序算法中，哪一个是稳定的？";
     option_a := Some "快速排序";
     option_b := Some "";
     option_c := None;
     option_d := Some "归并排序";
     correct_answer := "D";
     explanation := Some "归并排序是稳定的。";
     knowledge := None;
     notes := None;
     created_date := "2024-01-01";
     last_modified := "2024-01-02";
     image_path := None |}.

Definition sample_rows : list Question :=
  [ sample_question "CO02000001" "CO" "02" "single_choice" "published";
    sample_question "DS02000001" "DS" "02" "application" "published";
    sample_question "DS01000002" "DS" "01" "single_choice" "draft";
    sample_question "DS01000001" "DS" "01" "single_choice" "published";
    sample_question "DS99000001" "DS" "99" "single_choice" "published";
    sample_question "XX01000001" "XX" "01" "single_choice" "published" ].


Definition catalog_rows : list Question := take 4 sample_rows.

(** A record of a configured chapter whose text is not well-formed
    markup: the [<] opens a tag that is never closed. *)
Definition markup_question : Question :=
  {| id := "DS01000009";
     subject_code := "DS";
     chapter_num := "01";
     question_type := "application";
     status := "published";
     question_text := "若 a<b 且 b<c，比较 a 与 c。";
     option_a := None;
     option_b := None;
     option_c := None;
     option_d := None;
     correct_answer := "略";
     explanation := None;
     knowledge := None;
     notes := None;
     created_date := "2024-01-01";
     last_modified := "2024-01-02";
     image_path := None |}.

(** A single-choice record with no choice filled in and an image
    reference that names no file. *)
Definition bare_question : Question :=
  {| id := "OS03000007";
     subject_code := "OS";
     chapter_num := "03";
     question_type := "single_choice";
     status := "published";
     question_text := "页面置换算法有哪些？";
     option_a := Some "";
     option_b := None;
     option_c := Some "";
     option_d := None;
     correct_answer := "略";
     explanation := None;
     knowledge := None;
     notes := None;
     created_date := "2024-01-01";
     last_modified := "2024-01-02";
     image_path := Some "assets/images/OS03000007.png" |}.

(** A parser that accepts the texts without markup characters, with
    neither [<] nor [&]. *)
Fixpoint plain_text (s : string) : bool :=
  match s with
  | EmptyString => true
  | String c s' =>
      negb (bool_decide (c = Ascii.ascii_of_nat 60
                         ∨ c = Ascii.ascii_of_nat 38))
      && plain_text s'
  end.

(** No image file exists. *)
Definition no_assets : Assets :=
  {| path_exists := λ _, false;
     image_opens := λ _, false;
     markup_ok := plain_text |}.

(** A host on which every stage works: nine pages come out of the
    layout. *)
Definition sample_host : Host :=
  {| font_present := true;
     rows := catalog_rows;
     assets := no_assets;
     now := "2024年01月03日";
     layout := λ _, Ok 9;
     read_fault := false;
     write_fault := None |}.

(** The same host with an empty table ... *)
Definition empty_host : Host :=
  {| font_present := true;
     rows := [];
     assets := no_assets;
     now := "2024年01月03日";
     layout := λ _, Ok 9;
     read_fault := false;
     write_fault := None |}.

(** ... and with a disk that fills up after 4096 bytes of the final
    write. *)
Definition full_disk_host : Host :=
  {| font_present := true;
     rows := catalog_rows;
     assets := no_assets;
     now := "2024年01月03日";
     layout := λ _, Ok 9;
     read_fault := false;
     write_fault := Some 4096 |}.

Definition fresh_proc : Proc := {| fs := ∅; stdout := [] |}.


(** A table in which a record of chapter DS/01 carries an id of another
    format, as an import can leave it. *)
Definition legacy_rows : list Question :=
  [ sample_question "DS01000001" "DS" "01" "single_choice" "published";
    sample_question "DS01000002" "DS" "01" "single_choice" "published";
    sample_question "DS01_legacy" "DS" "01" "single_choice" "draft" ].

Definition sample_desktop : Desktop :=
  {| today := "2024-01-03";
     file_exists := λ _, false;
     suffix := λ _, ".png";
     copy2 := λ _ _, Ok () |}.

(** The manager with the published record DS02000001 selected. *)
Definition sample_app : App :=
  {| db := sample_rows;
     current_question_id := Some "DS02000001";
     current_question_data :=
       Some (sample_question "DS02000001" "DS" "02" "application" "published");
     current_image_path := None;
     dialogs := [] |}.

(** The manager on the table [legacy_rows], with the published record
    DS01000001 selected and loaded. *)
Definition legacy_app : App :=
  {| db := legacy_rows;
     current_question_id := Some "DS01000001";
     current_question_data :=
       Some (sample_question "DS01000001" "DS" "01" "single_choice"
               "published");
     current_image_path := None;
     dialogs := [] |}.

(** Duplicating inserts a copy for every source record: whenever a
    record of the table is selected and loaded, the table afterwards is
    the table from before with one more row, which has the status
    [draft] and an id that no row had. *)
Definition duplicates_every_record (d : Desktop) (app : App) : Prop :=
  ∀ qid data,
    truthy (current_question_id app) = Some qid →
    current_question_data app = Some data →
    data ∈ db app →
    ∃ copy, db (duplicate_question d app).2 = db app ++ [copy]
            ∧ status copy = "draft"
            ∧ id copy ∉ id <$> db app.

(** The dict the edit form hands to [update_question] for DS02000001. *)
Definition sample_edit : gmap string (option string) :=
  list_to_map
    [ ("id", Some "DS02000001"); ("subject_code", Some "DS");
      ("chapter_num", Some "02"); ("question_type", Some "application");
      ("status", Some "deprecated"); ("question_text", Some "新的题面");
      ("option_a", Some ""); ("option_b", Some ""); ("option_c", Some "");
      ("option_d", Some ""); ("correct_answer", Some "略");
      ("explanation", Some ""); ("knowledge", Some ""); ("notes", Some "");
      ("created_date", Some "1999-09-09"); ("image_path", None) ].


(** An identifier of the shape the assigner produces: the two codes, then
    exactly six decimal digits. *)
Definition well_formed_id (subject chapter ident : string) : Prop :=
  ∃ digits, ident = (subject +:+ chapter) +:+ digits
            ∧ String.length digits = 6
            ∧ is_Some (int digits).


(** ** Tables of well-formed records *)

(** The number a decimal numeral denotes, read from its first digit on
    top of [acc]. *)
Fixpoint uint_val (acc : N) (d : Decimal.uint) : N :=
  match d with
  | Decimal.Nil => acc
  | Decimal.D0 d => uint_val (acc * 10 + 0) d
  | Decimal.D1 d => uint_val (acc * 10 + 1) d
  | Decimal.D2 d => uint_val (acc * 10 + 2) d
  | Decimal.D3 d => uint_val (acc * 10 + 3) d
  | Decimal.D4 d => uint_val (acc * 10 + 4) d
  | Decimal.D5 d => uint_val (acc * 10 + 5) d
  | Decimal.D6 d => uint_val (acc * 10 + 6) d
  | Decimal.D7 d => uint_val (acc * 10 + 7) d
  | Decimal.D8 d => uint_val (acc * 10 + 8) d
  | Decimal.D9 d => uint_val (acc * 10 + 9) d
  end.

(** A row as [create_question_from_dialog] and [duplicate_question] leave
    it: a configured subject and chapter, and an id made of the two codes
    and six digits. *)
Definition well_formed_row (q : Question) : Prop :=
  configured q ∧ well_formed_id (subject_code q) (chapter_num q) (id q).


(** ** More of the question manager (manager.py) *)

Definition QUESTION_TYPES : list (string * string) :=
  [("single_choice", "单选题"); ("application", "应用题")].

(** [try: ... except Exception as e: ...]: what the body changed before
    it raised stays changed. *)
Definition try_except {S A} (body : SE S A) (handler : exn → SE S A)
    : SE S A := λ s,
  match body s with
  | (Ok a, s') => (Ok a, s')
  | (Raise e, s') => handler e s'
  end.

Definition gets {S A} (f : S → A) : SE S A := λ s, (Ok (f s), s).

(** What the dialogs and file calls of the manager return that [Desktop]
    does not cover. *)
Record Prompts := {
  askyesno : bool;                   (* [messagebox.askyesno(...)] *)
  askopenfilename : option string;   (* the file chosen, if any *)
  unlink_file : string → result unit;(* [Path(p).unlink()] *)
  mkdir : result unit                (* [image_dir.mkdir(parents=True,
                                        exist_ok=True)] *)
}.

(** The selection fields of the application object. *)
Definition set_selection (qid : option string) (data : option Question)
    (img : option string) (app : App) : App :=
  {| db := db app;
     current_question_id := qid;
     current_question_data := data;
     current_image_path := img;
     dialogs := dialogs app |}.

(** [get_question_type_code] (lines 1097-1103): the code whose display
    name is selected, [single_choice] when there is none. *)
Fixpoint find_code (type_name : string) (items : list (string * string))
    : option string :=
  match items with
  | [] => None
  | (code, name) :: rest =>
      if decide (name = type_name) then Some code else find_code type_name rest
  end.

Definition get_question_type_code (type_name : string) : string :=
  default "single_choice" (find_code type_name QUESTION_TYPES).

(** [QUESTION_TYPES.get(t, t)], what [update_edit_tab] puts into the type
    box for a record of type [t]. *)
Definition type_display (t : string) : string :=
  default t (assoc t QUESTION_TYPES).

(** *** Rows and dicts *)

(** The dict [export_questions] builds for a row (lines 1238-1256), which
    is also the dict [load_question] builds (lines 660-678). *)
Definition dict_of_row (r : Question) : gmap string (option string) :=
  <["id" := Some (id r)]>
  (<["subject_code" := Some (subject_code r)]>
  (<["chapter_num" := Some (chapter_num r)]>
  (<["question_type" := Some (question_type r)]>
  (<["status" := Some (status r)]>
  (<["question_text" := Some (question_text r)]>
  (<["option_a" := option_a r]>
  (<["option_b" := option_b r]>
  (<["option_c" := option_c r]>
  (<["option_d" := option_d r]>
  (<["correct_answer" := Some (correct_answer r)]>
  (<["explanation" := explanation r]>
  (<["knowledge" := knowledge r]>
  (<["notes" := notes r]>
  (<["created_date" := Some (created_date r)]>
  (<["last_modified" := Some (last_modified r)]>
  (<["image_path" := image_path r]> ∅)))))))))))))))).

Definition export_data (rows : list Question)
    : list (gmap string (option string)) :=
  dict_of_row <$> rows.

(** A [NOT NULL] column refuses [None]. *)
Definition not_null (column : string) (v : option string) : result string :=
  match v with
  | Some s => Ok s
  | None => Raise (IntegrityError ("NOT NULL constraint failed: " +:+ column))
  end.

(** [insert_question] on a dict, as [import_questions] calls it for a
    record whose id [q_id] is not in the table: the seventeen keys are
    read in the order of the tuple (lines 1012-1019), then the row is
    checked against the [NOT NULL] columns in column order. *)
Definition row_of_dict (q_id : string)
    (question_data : gmap string (option string)) : result Question :=
  _ ← item question_data "id";
  subject_code ← item question_data "subject_code";
  chapter_num ← item question_data "chapter_num";
  question_type ← item question_data "question_type";
  status ← item question_data "status";
  question_text ← item question_data "question_text";
  option_a ← item question_data "option_a";
  option_b ← item question_data "option_b";
  option_c ← item question_data "option_c";
  option_d ← item question_data "option_d";
  correct_answer ← item question_data "correct_answer";
  explanation ← item question_data "explanation";
  knowledge ← item question_data "knowledge";
  notes ← item question_data "notes";
  created_date ← item question_data "created_date";
  last_modified ← item question_data "last_modified";
  image_path ← item question_data "image_path";
  subject_code ← not_null "subject_code" subject_code;
  chapter_num ← not_null "chapter_num" chapter_num;
  question_type ← not_null "question_type" question_type;
  status ← not_null "status" status;
  question_text ← not_null "question_text" question_text;
  correct_answer ← not_null "correct_answer" correct_answer;
  created_date ← not_null "created_date" created_date;
  last_modified ← not_null "last_modified" last_modified;
  Ok {| id := q_id;
        subject_code := subject_code;
        chapter_num := chapter_num;
        question_type := question_type;
        status := status;
        question_text := question_text;
        option_a := option_a;
        option_b := option_b;
        option_c := option_c;
        option_d := option_d;
        correct_answer := correct_answer;
        explanation := explanation;
        knowledge := knowledge;
        notes := notes;
        created_date := created_date;
        last_modified := last_modified;
        image_path := image_path |}.

Definition insert_question_data (q_id : string)
    (question_data : gmap string (option string)) : SE App unit :=
  row ← lift (row_of_dict q_id question_data);
  insert_question row.

(** *** Import ([import_questions], lines 1186-1218) *)

(** Body of the loop over the records of the file; the state of the
    counters is [(imported_count, updated_count)]. *)
Definition import_step (d : Desktop)
    (q_data : gmap string (option string)) (counts : nat * nat)
    : SE App (nat * nat) :=
  match truthy (default None (q_data !! "id")) with
  | None => mret counts
  | Some q_id =>
      existing ← gets (λ app, filter (λ r, id r = q_id) (db app));
      match existing with
      | _ :: _ => update_question d q_data;; mret (counts.1, counts.2 + 1)
      | [] => insert_question_data q_id q_data;; mret (counts.1 + 1, counts.2)
      end
  end.

Fixpoint import_loop (d : Desktop)
    (questions_data : list (gmap string (option string)))
    (counts : nat * nat) : SE App (nat * nat) :=
  match questions_data with
  | [] => mret counts
  | q_data :: rest =>
      counts ← import_step d q_data counts;
      import_loop d rest counts
  end.

(** [file] is what the file dialog and [json.load] give: nothing when
    the dialog is cancelled, else the records or the exception raised
    while reading. *)
Definition import_questions (d : Desktop)
    (file : option (result (list (gmap string (option string)))))
    : SE App unit :=
  match file with
  | None => mret ()
  | Some loaded =>
      try_except
        (questions_data ← lift loaded;
         counts ← import_loop d questions_data (0, 0);
         messagebox ("导入完成：新增 " +:+ str_of_nat counts.1 +:+ " 道，覆盖 "
                     +:+ str_of_nat counts.2 +:+ " 道题目。"))
        (λ e, messagebox "导入题目失败")
  end.

(** *** Deleting ([delete_current_question], lines 1124-1148) *)

(** [DELETE FROM questions WHERE id = ?] *)
Definition sql_delete (qid : string) (rows : list Question) : list Question :=
  filter (λ r, id r ≠ qid) rows.

Definition delete_current_question (d : Desktop) (u : Prompts) : SE App unit :=
  λ app,
  match truthy (current_question_id app) with
  | None => messagebox "没有选中任何题目" app
  | Some qid =>
      if askyesno u then
        try_except
          (match truthy (current_image_path app) with
           | Some p => if file_exists d p then lift (unlink_file u p) else mret ()
           | None => mret ()
           end;;
           modify (λ app, set_db (sql_delete qid (db app)) app);;
           modify (set_selection None None None);;
           messagebox "题目删除成功!")
          (λ e, messagebox "删除题目失败") app
      else (Ok (), app)
  end.

(** *** Images ([upload_image], [delete_image], lines 782-853) *)

Definition with_image_path (v : option string) (r : Question) : Question :=
  {| id := id r;
     subject_code := subject_code r;
     chapter_num := chapter_num r;
     question_type := question_type r;
     status := status r;
     question_text := question_text r;
     option_a := option_a r;
     option_b := option_b r;
     option_c := option_c r;
     option_d := option_d r;
     correct_answer := correct_answer r;
     explanation := explanation r;
     knowledge := knowledge r;
     notes := notes r;
     created_date := created_date r;
     last_modified := last_modified r;
     image_path := v |}.

(** [UPDATE questions SET image_path = ? WHERE id = ?] *)
Definition sql_set_image (v : option string) (qid : string)
    (rows : list Question) : list Question :=
  (λ r, if decide (id r = qid) then with_image_path v r else r) <$> rows.

Definition upload_image (d : Desktop) (u : Prompts) : SE App unit := λ app,
  match truthy (current_question_id app) with
  | None => messagebox "请先选择或创建一个题目" app
  | Some qid =>
      match truthy (askopenfilename u) with
      | None => (Ok (), app)
      | Some file_path =>
          (lift (mkdir u);;
           let file_extension := suffix d file_path in
           let new_image_name := qid +:+ file_extension in
           let new_image_path := path_join "assets/images" new_image_name in
           try_except
             (lift (copy2 d file_path new_image_path);;
              modify (λ app, set_db (sql_set_image (Some new_image_path) qid
                                       (db app)) app);;
              modify (λ app, set_selection (current_question_id app)
                               (current_question_data app)
                               (Some new_image_path) app);;
              messagebox "图片上传成功!")
             (λ e, messagebox "图片上传失败")) app
      end
  end.

Definition delete_image (d : Desktop) (u : Prompts) : SE App unit := λ app,
  match truthy (current_question_id app), truthy (current_image_path app) with
  | Some qid, Some p =>
      if askyesno u then
        try_except
          ((if file_exists d p then lift (unlink_file u p) else mret ());;
           modify (λ app, set_db (sql_set_image None qid (db app)) app);;
           modify (λ app, set_selection (current_question_id app)
                            (current_question_data app) None app);;
           messagebox "图片删除成功!")
          (λ e, messagebox "图片删除失败") app
      else (Ok (), app)
  | _, _ => messagebox "当前题目没有图片" app
  end.

(** *** Saving ([save_current_question], lines 1045-1095) *)

(** What the widgets of the edit form return: the texts after [strip()],
    the selected display name of the type and the selected status. *)
Record Form := {
  form_question_text : string;
  form_type : string;
  form_option_a : string;
  form_option_b : string;
  form_option_c : string;
  form_option_d : string;
  form_status : string;
  form_answer : string;
  form_explanation : string;
  form_knowledge : string;
  form_notes : string
}.

(** The dict [question_data] of [save_current_question] (lines
    1072-1089). *)
Definition saved_data (f : Form) (qid : string) (data : Question)
    (img : option string) : gmap string (option string) :=
  let single := bool_decide (get_question_type_code (form_type f)
                             = "single_choice") in
  let opt (v : string) : option string := Some (if single then v else "") in
  <["id" := Some qid]>
  (<["subject_code" := Some (subject_code data)]>
  (<["chapter_num" := Some (chapter_num data)]>
  (<["question_type" := Some (get_question_type_code (form_type f))]>
  (<["status" := Some (form_status f)]>
  (<["question_text" := Some (form_question_text f)]>
  (<["option_a" := opt (form_option_a f)]>
  (<["option_b" := opt (form_option_b f)]>
  (<["option_c" := opt (form_option_c f)]>
  (<["option_d" := opt (form_option_d f)]>
  (<["correct_answer" := Some (form_answer f)]>
  (<["explanation" := Some (form_explanation f)]>
  (<["knowledge" := Some (form_knowledge f)]>
  (<["notes" := Some (form_notes f)]>
  (<["created_date" := Some (created_date data)]>
  (<["image_path" := img]> ∅))))))))))))))).

Definition save_current_question (d : Desktop) (f : Form) : SE App unit :=
  λ app,
  match truthy (current_question_id app) with
  | None => messagebox "没有选中任何题目" app
  | Some qid =>
      if decide (form_question_text f = "") then
        messagebox "题面内容不能为空" app
      else
        match current_question_data app with
        | None => (Raise TypeError, app)
        | Some data =>
            update_question d
              (saved_data f qid data (current_image_path app)) app
        end
  end.


(** The row with today as its modification date. *)
Definition with_last_modified (day : string) (r : Question) : Question :=
  {| id := id r;
     subject_code := subject_code r;
     chapter_num := chapter_num r;
     question_type := question_type r;
     status := status r;
     question_text := question_text r;
     option_a := option_a r;
     option_b := option_b r;
     option_c := option_c r;
     option_d := option_d r;
     correct_answer := correct_answer r;
     explanation := explanation r;
     knowledge := knowledge r;
     notes := notes r;
     created_date := created_date r;
     last_modified := day;
     image_path := image_path r |}.

(** The ids of the records of a file, as [import_questions] reads them. *)
Definition file_ids (questions_data : list (gmap string (option string)))
    : list string :=
  omap (λ q_data, truthy (default None (q_data !! "id"))) questions_data.


(** The fields of the application object other than the table. *)
Definition session (app : App)
    : option string * option Question * option string * list string :=
  (current_question_id app, current_question_data app,
   current_image_path app, dialogs app).


(** What [upload_image] and [delete_image] may change in the table: the
    image column of rows with the selected id. *)
Definition image_only (app app' : App) : Prop :=
  Forall2 (λ r r', r' = r
                   ∨ (current_question_id app = Some (id r)
                      ∧ with_image_path None r' = with_image_path None r))
          (db app) (db app').

(** The row [save_current_question] leaves in place of [r]: the columns
    of the [SET] clause come from the dict of the form, the id and the
    creation date stay. *)
Definition saved_row (d : Desktop) (f : Form) (data : Question)
    (img : option string) (r : Question) : Question :=
  let single := bool_decide (get_question_type_code (form_type f)
                             = "single_choice") in
  let opt (v : string) : option string := Some (if single then v else "") in
  {| id := id r;
     subject_code := subject_code data;
     chapter_num := chapter_num data;
     question_type := get_question_type_code (form_type f);
     status := form_status f;
     question_text := form_question_text f;
     option_a := opt (form_option_a f);
     option_b := opt (form_option_b f);
     option_c := opt (form_option_c f);
     option_d := opt (form_option_d f);
     correct_answer := form_answer f;
     explanation := Some (form_explanation f);
     knowledge := Some (form_knowledge f);
     notes := Some (form_notes f);
     created_date := created_date r;
     last_modified := today d;
     image_path := img |}.


(** *** What a story shows *)

(** The texts of the title paragraphs of a story (subject and chapter
    title styles), in order. *)
Definition heading_of (b : Flowable) : option string :=
  match b with
  | Paragraph (Literal s) subject_title_style
  | Paragraph (Literal s) chapter_title_style => Some s
  | _ => None
  end.

Definition headings (story : list Flowable) : list string :=
  omap heading_of story.

(** The image a record shows: its reference, when it is non-empty, names
    an existing file and opens. *)
Definition shown_image (fs : Assets) (q : Question) : option string :=
  p ← truthy (image_path q);
  if path_exists fs p && image_opens fs p then Some p else None.

Definition page_breaks (story : list Flowable) : list unit :=
  omap (λ b, match b with PageBreak => Some () | _ => None end) story.

(** What an extraction [omap f] finds in the blocks of one chapter run
    and of one subject run, given what it finds in the blocks of one
    record. *)
Definition chapter_part {A} (f : Flowable → option A)
    (item_part : Question → list A) (k : string)
    (cg : string * list Question) : list A :=
  omap f [Paragraph (Literal (chapter_title k cg.1)) chapter_title_style]
  ++ (cg.2 ≫= item_part).

Definition subject_part {A} (f : Flowable → option A)
    (item_part : Question → list A) (kg : string * list Question) : list A :=
  omap f [Paragraph (Literal (subject_title kg.1)) subject_title_style]
  ++ (groupby chapter_num kg.2 ≫= chapter_part f item_part kg.1)
  ++ omap f [PageBreak].

(** The marks of a story: its page breaks, its title paragraphs with
    their style, and the records of its numbered paragraphs. *)
Inductive Mark :=
| BreakMark
| TitleMark (style : ParagraphStyle) (s : string)
| ItemMark (q : Question)
| AnswerMark (q : Question).

Definition mark_of (b : Flowable) : option Mark :=
  match b with
  | PageBreak => Some BreakMark
  | Paragraph (Literal s) subject_title_style =>
      Some (TitleMark subject_title_style s)
  | Paragraph (Literal s) chapter_title_style =>
      Some (TitleMark chapter_title_style s)
  | Paragraph (ItemText _ q) _ => Some (ItemMark q)
  | Paragraph (AnswerText _ q) _ => Some (AnswerMark q)
  | _ => None
  end.

Definition marks (story : list Flowable) : list Mark := omap mark_of story.

(** The marks of the blocks of one chapter run and of one subject run. *)
Definition chapter_layout (k : string) (cg : string * list Question)
    : list Mark :=
  TitleMark chapter_title_style (chapter_title k cg.1) :: (ItemMark <$> cg.2).

Definition subject_layout (kg : string * list Question) : list Mark :=
  TitleMark subject_title_style (subject_title kg.1)
  :: (groupby chapter_num kg.2 ≫= chapter_layout kg.1) ++ [BreakMark].



(** *** Runs of the sorted catalog *)

(** The configured (subject, chapter) pairs. *)
Definition CHAPTERS : list (string * string) :=
  '(subject_code, info) ← SUBJECTS;
  (λ chapter_num, (subject_code, chapter_num)) <$> keys (chapters info).

(** The two ranks of the sort key, as functions of the codes. *)
Definition subject_idx (subject : string) : nat :=
  default 999 (index_of subject SUBJECT_ORDER).

Definition chapter_idx (subject chapter : string) : nat :=
  default 999 (m ← assoc subject CHAPTER_ORDER_MAP; assoc chapter m).


(** *** Creating ([create_question_from_dialog], lines 916-976) *)

(** [s.split(sep)[0]] for a non-empty separator: what stands before the
    first occurrence of [sep], the whole of [s] when there is none. *)
Fixpoint split_head (sep s : string) : string :=
  match s with
  | EmptyString => EmptyString
  | String c s' =>
      if String.prefix sep s then EmptyString
      else String c (split_head sep s')
  end.

(** The selections of the dialog. *)
Record NewQuestionDialog := {
  new_subject_var : string;
  new_chapter_var : string;
  new_type_var : string
}.

(** The values the chapter combobox offers for a subject (lines
    907-908); the subject combobox offers [code - name] for each
    configured subject (lines 868-870). *)
Definition chapter_values (info : SubjectInfo) : list string :=
  (λ '(num, chapter_name), num +:+ " - " +:+ chapter_name) <$> chapters info.

(** The dict [question_data] of a new record (lines 947-965). *)
Definition new_question (d : Desktop)
    (question_id subject_code chapter_num question_type_code : string)
    : Question :=
  {| id := question_id;
     subject_code := subject_code;
     chapter_num := chapter_num;
     question_type := question_type_code;
     status := "draft";
     question_text := "请输入题面内容";
     option_a := Some "";
     option_b := Some "";
     option_c := Some "";
     option_d := Some "";
     correct_answer := "";
     explanation := Some "";
     knowledge := Some "";
     notes := Some "";
     created_date := today d;
     last_modified := today d;
     image_path := None |}.

Definition create_question_from_dialog (d : Desktop)
    (dialog : NewQuestionDialog) : SE App unit := λ app,
  let subject_str := new_subject_var dialog in
  let chapter_str := new_chapter_var dialog in
  let question_type_str := new_type_var dialog in
  if decide (subject_str = "" ∨ chapter_str = "") then
    messagebox "请选择科目和章节" app
  else
    let subject_code := split_head " - " subject_str in
    let chapter_num := split_head " - " chapter_str in
    match truthy (find_code question_type_str QUESTION_TYPES) with
    | None => messagebox "无效的题型" app
    | Some question_type_code =>
        let question_id :=
          generate_question_id (db app) subject_code chapter_num in
        let question_data :=
          new_question d question_id subject_code chapter_num
            question_type_code in
        (insert_question question_data;;
         load_question question_id;;
         messagebox ("题目 " +:+ question_id +:+ " 创建成功!")) app
    end.

(** *** Statistics ([get_statistics], lines 515-551) *)

(** The rows of [SELECT COUNT(star), question_type, COUNT(star) FROM
    questions WHERE subject_code = ? GROUP BY question_type], as pairs
    [(row[1], row[2])], one for each type that occurs; the store forms
    the groups by sorting on the type, so they come in the order of their
    keys. *)
Definition subject_stats (rows : list Question) (subject : string)
    : list (string * nat) :=
  let selected := filter (λ q, subject_code q = subject) rows in
  (λ t, (t, length (filter (λ q, question_type q = t) selected)))
    <$> sort_by String.le (λ t, t) (remove_dups (question_type <$> selected)).

(** The loop over these rows; the state is [type_counts] and
    [total_subject]. *)
Fixpoint stats_loop (stats_rows : list (string * nat))
    (st : gmap string nat * nat) : gmap string nat * nat :=
  match stats_rows with
  | [] => st
  | (t, type_count) :: rest =>
      stats_loop rest (<[type_display t := type_count]> st.1,
                       st.2 + type_count)
  end.

(** An entry of [stats['subjects']]. *)
Record SubjectStatistics := {
  stat_total : nat;              (* ['total'] *)
  stat_types : gmap string nat   (* ['types'] *)
}.

(** [total_questions] and, under its display name, the entry of each
    configured subject. *)
Definition get_statistics (rows : list Question)
    : nat * list (string * SubjectStatistics) :=
  (length rows,
   (λ '(subject, info),
      let st := stats_loop (subject_stats rows subject) (∅, 0) in
      (name info, {| stat_total := st.2; stat_types := st.1 |})) <$> SUBJECTS).


(** *** Reference tables ([init_database], [_insert_initial_data],
    lines 84-149) *)

(** The tables [subjects] and [chapters]: rows with their primary key. *)
Record Reference := {
  subjects : list (string * string);
  chapter_rows : list (string * string * string)
}.

(** [INSERT OR IGNORE]: a row whose primary key is already there is
    dropped. *)
Definition insert_or_ignore {K V} `{EqDecision K} (k : K) (v : V)
    (table : list (K * V)) : list (K * V) :=
  if decide (k ∈ table.*1) then table else table ++ [(k, v)].

Definition _insert_initial_data (r : Reference) : Reference :=
  let subjects :=
    foldl (λ table '(code, info), insert_or_ignore code (name info) table)
          (subjects r) SUBJECTS in
  let chapter_rows :=
    foldl (λ table '(subject_code, subject_info),
             foldl (λ table '(chapter_num, chapter_name),
                      insert_or_ignore (subject_code, chapter_num)
                        chapter_name table)
                   table (chapters subject_info))
          (chapter_rows r) SUBJECTS in
  {| subjects := subjects; chapter_rows := chapter_rows |}.

(** The same statement for each row of a list, in order. *)
Definition insert_all {K V} `{EqDecision K} (kvs table : list (K * V))
    : list (K * V) :=
  foldl (λ table '(k, v), insert_or_ignore k v table) table kvs.

(** The rows the configuration asks for. *)
Definition subject_rows : list (string * string) :=
  (λ '(code, info), (code, name info)) <$> SUBJECTS.

Definition configured_chapter_rows : list (string * string * string) :=
  '(subject_code, subject_info) ← SUBJECTS;
  (λ '(chapter_num, chapter_name), (subject_code, chapter_num, chapter_name))
    <$> chapters subject_info.


(** *** More sample data *)

(** The manager on the configured part of the sample table, with the
    record DS02000001 selected. *)
Definition catalog_app : App :=
  {| db := catalog_rows;
     current_question_id := Some "DS02000001";
     current_question_data :=
       Some (sample_question "DS02000001" "DS" "02" "application" "published");
     current_image_path := None;
     dialogs := [] |}.

(** A user who confirms every dialog and picks a picture, on a disk
    where directories and files can be created and removed. *)
Definition sample_prompts : Prompts :=
  {| askyesno := true;
     askopenfilename := Some "/home/user/figure.png";
     unlink_file := λ _, Ok ();
     mkdir := Ok () |}.

(** The edit form after the text and the answer have been rewritten. *)
Definition sample_form : Form :=
  {| form_question_text := "新的题面";
     form_type := "应用题";
     form_option_a := "甲";
     form_option_b := "";
     form_option_c := "";
     form_option_d := "";
     form_status := "draft";
     form_answer := "略";
     form_explanation := "";
     form_knowledge := "";
     form_notes := "" |}.

(** The dialog with the third chapter of the first subject chosen. *)
Definition sample_dialog : NewQuestionDialog :=
  {| new_subject_var := "DS - 数据结构";
     new_chapter_var := "03 - 栈、队列和数组";
     new_type_var := "单选题" |}.

(** * Properties *)

(** ** Stable insertion sort *)

Section sort_by.
Context {A K : Type} (le : K → K → Prop) `{!RelDecision le} (key : A → K).

Lemma insert_by_Permutation x l : insert_by le key x l ≡ₚ x :: l.
Proof.
  induction l as [|y l IH]; simpl; [done|].
  case_decide; [done|].
  rewrite IH. apply perm_swap.
Qed.

Lemma sort_by_Permutation l : sort_by le key l ≡ₚ l.
Proof.
  induction l as [|x l IH]; simpl; [done|].
  by rewrite insert_by_Permutation, IH.
Qed.

Lemma HdRel_insert_by `{!Total le} a x l :
  by_key le key a x → HdRel (by_key le key) a l →
  HdRel (by_key le key) a (insert_by le key x l).
Proof.
  intros Hax Hal. destruct l as [|y l]; simpl.
  - by constructor.
  - case_decide; constructor; [done|]. by inv Hal.
Qed.

Lemma Sorted_insert_by `{!Total le} x l :
  Sorted (by_key le key) l → Sorted (by_key le key) (insert_by le key x l).
Proof.
  induction 1 as [|y l Hl IH Hy]; simpl.
  - repeat constructor.
  - case_decide as Hxy.
    + repeat constructor; done.
    + constructor; [done|].
      apply HdRel_insert_by; [|done].
      unfold by_key. by destruct (total le (key x) (key y)).
Qed.

Lemma Sorted_sort_by `{!Total le} l : Sorted (by_key le key) (sort_by le key l).
Proof.
  induction l as [|x l IH]; simpl; [constructor|].
  by apply Sorted_insert_by.
Qed.

(** When no two elements share a key, the result depends on the
    elements only, not on the order they come in. *)
Lemma sort_by_unique `{!Total le, !Transitive le, !AntiSymm (=) le} l1 l2 :
  (∀ x y, x ∈ l1 → y ∈ l1 → key x = key y → x = y) →
  l1 ≡ₚ l2 → sort_by le key l1 = sort_by le key l2.
Proof.
  intros Hinj Hperm.
  assert (Transitive (by_key le key)).
  { intros x y z. unfold by_key. apply transitivity. }
  apply (Sorted_unique_strong (by_key le key)).
  - intros x y Hx Hy Hxy Hyx.
    apply Hinj.
    + by rewrite sort_by_Permutation in Hx.
    + by rewrite sort_by_Permutation, <- Hperm in Hy.
    + by apply (anti_symm le).
  - apply Sorted_sort_by.
  - apply Sorted_sort_by.
  - by rewrite !sort_by_Permutation.
Qed.
End sort_by.

(** ** The sort key *)

Global Instance key_le_total : Total key_le.
Proof.
  intros [[s1 c1] i1] [[s2 c2] i2]. unfold key_le.
  destruct (total String.le i1 i2); lia || (destruct (decide (s1 = s2)),
    (decide (c1 = c2)); subst; intuition lia).
Qed.

Global Instance key_le_trans : Transitive key_le.
Proof.
  intros [[s1 c1] i1] [[s2 c2] i2] [[s3 c3] i3]. unfold key_le.
  intros [?|[-> [?|[-> H12]]]] [?|[-> [?|[-> H23]]]]; try (intuition lia).
  right. split; [done|]. right. split; [done|]. by etrans.
Qed.

Global Instance key_le_antisym : AntiSymm (=) key_le.
Proof.
  intros [[s1 c1] i1] [[s2 c2] i2]. unfold key_le.
  intros [?|[-> [?|[-> H12]]]] [?|[? [?|[? H21]]]]; try lia.
  f_equal. by apply (anti_symm String.le).
Qed.

Lemma sort_key_ranks q :
  sort_key q = (default 999 (group_rank q), default 999 (subgroup_rank q), id q).
Proof.
  unfold sort_key, group_rank, subgroup_rank.
  by destruct (assoc (subject_code q) CHAPTER_ORDER_MAP).
Qed.

Lemma index_of_lt x l r : index_of x l = Some r → r < length l.
Proof.
  revert r. induction l as [|y l IH]; intros r; simpl; [done|].
  case_decide.
  - intros [= <-]. lia.
  - destruct (index_of x l) as [r'|]; simpl; [|done].
    intros [= <-]. specialize (IH r' eq_refl). lia.
Qed.

Lemma group_rank_lt q r : group_rank q = Some r → r < 4.
Proof. apply index_of_lt. Qed.

Lemma subgroup_rank_lt q r : subgroup_rank q = Some r → r < 7.
Proof.
  unfold subgroup_rank, CHAPTER_ORDER_MAP, SUBJECTS. simpl.
  repeat (case_decide; simpl;
          [repeat (case_decide; [intros [= <-]; lia|]); done|]).
  done.
Qed.

Lemma StronglySorted_lookup {A} (R : relation A) l i j x y :
  StronglySorted R l → i < j → l !! i = Some x → l !! j = Some y → R x y.
Proof.
  intros Hl. revert i j. induction Hl as [|a l Hl IH Ha]; intros i j Hij Hi Hj.
  - done.
  - destruct j as [|j]; [lia|]. destruct i as [|i]; simplify_eq/=.
    + rewrite Forall_forall in Ha. apply Ha. by eapply list_elem_of_lookup_2.
    + apply (IH i j); [lia|done..].
Qed.

Lemma NoDup_fmap_inj_on {A B} (f : A → B) (l : list A) x y :
  NoDup (f <$> l) → x ∈ l → y ∈ l → f x = f y → x = y.
Proof.
  induction l as [|a l IH]; simpl; intros Hnd Hx Hy Hf.
  - by apply elem_of_nil in Hx.
  - apply NoDup_cons in Hnd as [Ha Hnd].
    apply elem_of_cons in Hx as [->|Hx], Hy as [->|Hy]; [done| | |by apply IH].
    + destruct Ha. rewrite Hf. by apply list_elem_of_fmap_2.
    + destruct Ha. rewrite <- Hf. by apply list_elem_of_fmap_2.
Qed.

Lemma published_Permutation rows rows' :
  rows ≡ₚ rows' → published rows ≡ₚ published rows'.
Proof. intros H. unfold published. by rewrite H. Qed.

Lemma select_published_unique rows rows' :
  NoDup (id <$> rows) → rows ≡ₚ rows' →
  select_published rows = select_published rows'.
Proof.
  intros Hnd Hperm. unfold select_published.
  apply (sort_by_unique String.le id).
  - intros x y Hx Hy. apply (NoDup_fmap_inj_on id rows); [done|..].
    + unfold published in Hx. by apply list_elem_of_filter in Hx as [_ ?].
    + unfold published in Hy. by apply list_elem_of_filter in Hy as [_ ?].
  - by apply published_Permutation.
Qed.

(** C5. The loader returns the published rows sorted by the key (group
    rank, subgroup rank, id), the ranks being the configured positions
    and 999, above every configured position, for a subject or chapter
    without one: a record of an unranked subject comes after every record
    of a ranked one and, within one subject, a record of an unranked
    chapter after every record of a ranked one.  With ids unique in the
    table, the output is the same for every order in which the store hands
    out the same rows. *)
Theorem fetch_published_questions_order (rows : list Question) :
  let out := fetch_published_questions rows in
  out ≡ₚ published rows
  ∧ StronglySorted (by_key key_le sort_key) out
  ∧ (∀ q, sort_key q = (default 999 (group_rank q),
                        default 999 (subgroup_rank q), id q)
          ∧ (∀ r, group_rank q = Some r → r < 999)
          ∧ (∀ r, subgroup_rank q = Some r → r < 999))
  ∧ (∀ i j x y, out !! i = Some x → out !! j = Some y →
       (group_rank x = None ∧ is_Some (group_rank y))
       ∨ (subject_code x = subject_code y
          ∧ subgroup_rank x = None ∧ is_Some (subgroup_rank y)) →
       j < i)
  ∧ (∀ rows', NoDup (id <$> rows) → rows ≡ₚ rows' →
       fetch_published_questions rows' = out).
Proof.
  intros out.
  assert (StronglySorted (by_key key_le sort_key) out) as Hsorted.
  { apply Sorted_StronglySorted.
    - intros x y z. unfold by_key. apply transitivity.
    - apply Sorted_sort_by, _. }
  split; [|split; [done|split; [|split]]].
  - unfold out, fetch_published_questions, select_published.
    by rewrite !sort_by_Permutation.
  - intros q. split; [apply sort_key_ranks|]. split; intros r Hr.
    + apply group_rank_lt in Hr. lia.
    + apply subgroup_rank_lt in Hr. lia.
  - intros i j x y Hi Hj Hcase.
    destruct (decide (j < i)) as [|Hij]; [done|exfalso].
    assert (by_key key_le sort_key x y) as Hle.
    { destruct (decide (i = j)) as [->|].
      - assert (x = y) as -> by congruence.
        unfold by_key. by destruct (total key_le (sort_key y) (sort_key y)).
      - apply (StronglySorted_lookup _ out i j); [done|lia|done..]. }
    unfold by_key in Hle. rewrite !sort_key_ranks in Hle. simpl in Hle.
    destruct Hcase as [[Hx [r Hy]]|(Hsub & Hx & [r Hy])].
    + rewrite Hx, Hy in Hle. simpl in Hle.
      apply group_rank_lt in Hy. lia.
    + assert (group_rank x = group_rank y) as Hg.
      { unfold group_rank. by rewrite Hsub. }
      rewrite Hg, Hx, Hy in Hle. simpl in Hle.
      apply subgroup_rank_lt in Hy. lia.
  - intros rows' Hnd Hperm. unfold out, fetch_published_questions.
    by rewrite (select_published_unique rows rows').
Qed.

Example fetch_published_questions_sample :
  id <$> fetch_published_questions sample_rows
  = ["DS01000001"; "DS02000001"; "DS99000001"; "CO02000001"; "XX01000001"].
Proof. reflexivity. Qed.

(** The sample table and the same rows in reverse order give the same
    output. *)
Lemma fetch_published_questions_order_witness :
  NoDup (id <$> sample_rows)
  ∧ sample_rows ≡ₚ reverse sample_rows
  ∧ fetch_published_questions (reverse sample_rows)
    = fetch_published_questions sample_rows.
Proof.
  assert (NoDup (id <$> sample_rows)) as Hnd by compute_done.
  assert (sample_rows ≡ₚ reverse sample_rows) as Hperm by compute_done.
  split; [done|]. split; [done|].
  destruct (fetch_published_questions_order sample_rows)
    as (_ & _ & _ & _ & Hsame).
  exact (Hsame (reverse sample_rows) Hnd Hperm).
Defined.

(** In the output for the sample table the record of chapter DS/99, which
    has no rank, stands before the record of CO/02, whose subject and
    chapter are both ranked. *)
Lemma unranked_chapter_before_ranked_subject :
  ¬ unranked_last (fetch_published_questions sample_rows).
Proof.
  intros Hlast.
  assert (3 < 2) as Hlt; [|lia].
  apply (Hlast 2 3
           (sample_question "DS99000001" "DS" "99" "single_choice" "published")
           (sample_question "CO02000001" "CO" "02" "single_choice" "published")).
  - reflexivity.
  - reflexivity.
  - right. reflexivity.
  - split; by eexists.
Qed.

(** ** Grouping *)

Lemma groupby_concat {A} (key : A → string) l : concat (groupby key l).*2 = l.
Proof.
  induction l as [|x l IH]; simpl; [done|].
  destruct (groupby key l) as [|[k g] rest]; simpl in *.
  - by rewrite <- IH.
  - case_decide; simpl; by rewrite <- IH.
Qed.

Lemma groupby_Forall {A} (key : A → string) (P : A → Prop) l :
  Forall P l →
  Forall (λ kg, kg.2 ≠ [] ∧ Forall (λ x, key x = kg.1 ∧ P x) kg.2)
         (groupby key l).
Proof.
  induction 1 as [|x l Hx Hl IH]; simpl; [constructor|].
  destruct (groupby key l) as [|[k g] rest]; simpl in *.
  - repeat constructor; done.
  - apply Forall_cons in IH as [[Hne Hg] Hrest]. simpl in *.
    case_decide as Hk.
    + constructor; [|done]. simpl. split; [done|].
      constructor; [done|]. done.
    + constructor; [|constructor; done]. simpl.
      split; [done|]. constructor; [done|constructor].
Qed.

Lemma known_groups_groupby qs :
  Forall configured qs → known_groups (groupby subject_code qs).
Proof.
  intros Hqs. unfold known_groups.
  eapply Forall_impl; [apply (groupby_Forall subject_code configured), Hqs|].
  intros [k g] [Hne Hg]; simpl in *. split.
  - destruct g as [|x g]; [done|].
    apply Forall_cons in Hg as [[<- (info & Hinfo & _)] _]. eauto.
  - eapply Forall_impl; [apply (groupby_Forall chapter_num _ _ Hg)|].
    intros [c g'] [Hne' Hg']; simpl in *.
    destruct g' as [|y g']; [done|].
    by apply Forall_cons in Hg' as [[<- [<- Hy]] _].
Qed.

Lemma enumerate_from_app {A} n (l1 l2 : list A) :
  enumerate_from n (l1 ++ l2)
  = enumerate_from n l1 ++ enumerate_from (n + length l1) l2.
Proof.
  revert n. induction l1 as [|x l1 IH]; intros n; simpl.
  - by rewrite Nat.add_0_r.
  - rewrite IH. do 3 f_equal. lia.
Qed.

Lemma enumerate_from_fst {A} n (l : list A) :
  (enumerate_from n l).*1 = seq n (length l).
Proof. revert n. induction l; intros n; simpl; [done|]. by f_equal. Qed.

Lemma enumerate_from_snd {A} n (l : list A) : (enumerate_from n l).*2 = l.
Proof. revert n. induction l; intros n; simpl; [done|]. by f_equal. Qed.

(** ** Items pass and answers pass *)

Lemma options_plan_app opts story :
  options_plan opts story
  = story ++ ((λ '(opt, val), Paragraph (ChoiceText opt val) normal_style)
                <$> omap (λ '(opt, v), (λ val, (opt, val)) <$> truthy v) opts).
Proof.
  revert story. induction opts as [|[opt v] opts IH]; intros story; simpl.
  - by rewrite app_nil_r.
  - destruct (truthy v) as [val|]; simpl; [|done].
    by rewrite IH, <- app_assoc.
Qed.

Lemma item_blocks_eq fs n q :
  item_blocks fs n q
  = [Paragraph (ItemText n q) normal_style]
    ++ (if decide (question_type q = "single_choice")
        then (λ '(opt, val), Paragraph (ChoiceText opt val) normal_style)
               <$> filled_options q
        else [])
    ++ match safe_image fs (image_path q) with
       | Some img => [Spacer 1 6; img]
       | None => []
       end
    ++ [Spacer 1 12].
Proof.
  unfold item_blocks, item_plan. cbn [fst].
  case_decide; [rewrite options_plan_app|];
    destruct (safe_image fs (image_path q)); unfold filled_options;
    simpl; by rewrite <- ?app_assoc.
Qed.

Lemma item_plan_eq fs q story n :
  item_plan fs q (story, n) = (story ++ item_blocks fs n q, n + 1).
Proof.
  rewrite item_blocks_eq. unfold item_plan. f_equal.
  case_decide; [rewrite options_plan_app|];
    destruct (safe_image fs (image_path q)); unfold filled_options;
    simpl; by rewrite <- ?app_assoc.
Qed.

Local Ltac finish_labels :=
  csimpl; rewrite ?app_nil_r, <- ?app_assoc; split_and?; (done || lia).

Lemma safe_image_Some fs p img :
  safe_image fs p = Some img → ∃ path, img = PlatypusImage path (5 * inch).
Proof.
  unfold safe_image, new_image.
  destruct (truthy p) as [path|]; [|done].
  destruct (negb (path_exists fs path)); [done|].
  destruct (image_opens fs path); [|done].
  intros [= <-]. eauto.
Qed.

Lemma safe_image_unresolved fs p : unresolved fs p → safe_image fs p = None.
Proof.
  unfold unresolved, safe_image, new_image.
  destruct (truthy p) as [path|]; [|done].
  intros [-> | ->]; [done|]. by destruct (negb (path_exists fs path)).
Qed.

Lemma item_labels_choices (cs : list (string * string)) :
  item_labels ((λ '(opt, val), Paragraph (ChoiceText opt val) normal_style) <$> cs)
  = []
  ∧ answer_labels
      ((λ '(opt, val), Paragraph (ChoiceText opt val) normal_style) <$> cs)
    = [].
Proof. induction cs as [|[opt val] cs [IH1 IH2]]; simpl; done. Qed.

Lemma item_blocks_labels fs n q :
  item_labels (item_blocks fs n q) = [(n, q)]
  ∧ answer_labels (item_blocks fs n q) = [].
Proof.
  rewrite item_blocks_eq. unfold item_labels, answer_labels.
  rewrite !omap_app.
  destruct (item_labels_choices (filled_options q)) as [Hc1 Hc2].
  unfold item_labels, answer_labels in Hc1, Hc2.
  assert (∀ A (f g : Flowable → option A),
            (∀ p w, f (PlatypusImage p w) = None) →
            f (Spacer 1 6) = None →
            omap f match safe_image fs (image_path q) with
                   | Some img => [Spacer 1 6; img]
                   | None => []
                   end = []) as Himg.
  { intros A f _ Hf Hs.
    destruct (safe_image fs (image_path q)) as [img|] eqn:E; [|done].
    apply safe_image_Some in E as [path ->]. simpl. by rewrite Hs, Hf. }
  rewrite !(Himg _ _ (λ _, None)) by done.
  case_decide; simpl; by rewrite ?Hc1, ?Hc2.
Qed.

Lemma chapter_group_plan_labels fs g story n :
  item_labels (chapter_group_plan fs g (story, n)).1
  = item_labels story ++ enumerate_from n g
  ∧ answer_labels (chapter_group_plan fs g (story, n)).1 = answer_labels story
  ∧ (chapter_group_plan fs g (story, n)).2 = n + length g.
Proof.
  revert story n. induction g as [|q g IH]; intros story n.
  - simpl. rewrite app_nil_r. repeat split; lia.
  - cbn [chapter_group_plan]. rewrite item_plan_eq.
    destruct (IH (story ++ item_blocks fs n q) (n + 1)) as (-> & -> & ->).
    destruct (item_blocks_labels fs n q) as [Hi Ha].
    unfold item_labels, answer_labels in *. rewrite !omap_app, Hi, Ha.
    rewrite <- app_assoc, app_nil_r. simpl.
    replace (n + 1) with (S n) by lia. repeat split; lia.
Qed.

Lemma chapters_plan_labels fs k groups story n story' n' :
  chapters_plan fs k groups (story, n) = Ok (story', n') →
  item_labels story' = item_labels story ++ enumerate_from n (concat groups.*2)
  ∧ answer_labels story' = answer_labels story
  ∧ n' = n + length (concat groups.*2).
Proof.
  revert story n. induction groups as [|[c g] rest IH]; intros story n; csimpl.
  - intros [= <- <-]. rewrite app_nil_r. repeat split; lia.
  - destruct (getitem k SUBJECTS) as [info|]; simpl; [|done].
    destruct (getitem c (chapters info)) as [chapter_name|]; simpl; [|done].
    destruct (chapter_group_plan_labels fs g
                (story ++ [Paragraph (Literal chapter_name) chapter_title_style])
                n) as (Hi & Ha & Hn).
    destruct (chapter_group_plan fs g _) as [story1 n1]; simpl in *.
    intros Hrest. apply IH in Hrest as (-> & -> & ->).
    subst n1. rewrite Hi, Ha, enumerate_from_app, length_app.
    unfold item_labels, answer_labels. rewrite !omap_app. finish_labels.
Qed.

Lemma subjects_plan_labels fs groups story n story' n' :
  subjects_plan fs groups (story, n) = Ok (story', n') →
  item_labels story'
  = item_labels story ++ enumerate_from n (concat groups.*2)
  ∧ answer_labels story' = answer_labels story
  ∧ n' = n + length (concat groups.*2).
Proof.
  revert story n. induction groups as [|[k g] rest IH]; intros story n; csimpl.
  - intros [= <- <-]. rewrite app_nil_r. repeat split; lia.
  - destruct (getitem k SUBJECTS) as [info|]; simpl; [|done].
    destruct (chapters_plan fs k (groupby chapter_num g) _)
      as [[story1 n1]|] eqn:Hch; simpl; [|done].
    apply chapters_plan_labels in Hch as (Hi & Ha & Hn).
    rewrite groupby_concat in Hi, Hn.
    intros Hrest. apply IH in Hrest as (-> & -> & ->).
    subst n1. rewrite enumerate_from_app, length_app.
    unfold item_labels, answer_labels in *. rewrite !omap_app, Hi, Ha.
    rewrite !omap_app. finish_labels.
Qed.

Lemma answer_plan_labels fs i q story :
  item_labels (answer_plan fs i q story) = item_labels story
  ∧ answer_labels (answer_plan fs i q story) = answer_labels story ++ [(i, q)].
Proof.
  unfold answer_plan.
  assert (∀ blocks,
            item_labels match safe_image fs (image_path q) with
                        | Some img => blocks ++ [Spacer 1 6; img]
                        | None => blocks
                        end = item_labels blocks
            ∧ answer_labels match safe_image fs (image_path q) with
                            | Some img => blocks ++ [Spacer 1 6; img]
                            | None => blocks
                            end = answer_labels blocks) as Himg.
  { intros blocks.
    destruct (safe_image fs (image_path q)) as [img|] eqn:E; [|done].
    apply safe_image_Some in E as [path ->].
    unfold item_labels, answer_labels. rewrite !omap_app. simpl.
    by rewrite !app_nil_r. }
  unfold item_labels, answer_labels in *.
  destruct (truthy (explanation q)), (truthy (image_path q));
    rewrite !omap_app; simpl;
    rewrite ?(proj1 (Himg _)), ?(proj2 (Himg _)), ?omap_app; simpl;
    rewrite ?omap_app; simpl; by rewrite ?app_nil_r.
Qed.

Lemma answers_plan_labels fs iqs story :
  item_labels (answers_plan fs iqs story) = item_labels story
  ∧ answer_labels (answers_plan fs iqs story) = answer_labels story ++ iqs.
Proof.
  revert story. induction iqs as [|[i q] iqs IH]; intros story; simpl.
  - by rewrite app_nil_r.
  - destruct (IH (answer_plan fs i q story)) as [-> ->].
    destruct (answer_plan_labels fs i q story) as [-> ->].
    by rewrite <- app_assoc.
Qed.

Lemma chapters_plan_total fs k groups st :
  Forall (λ cg, known_chapter k cg.1) groups →
  is_Ok (chapters_plan fs k groups st).
Proof.
  intros Hg. revert st. induction Hg as [|[c g] rest Hc _ IH]; intros st.
  - by eexists.
  - destruct Hc as (info & Hinfo & [chapter_name Hc]). cbn [chapters_plan].
    unfold getitem. cbn [fst] in Hc. rewrite Hinfo. cbn [mbind result_bind].
    rewrite Hc. cbn [mbind result_bind].
    apply IH.
Qed.

Lemma subjects_plan_total fs groups st :
  known_groups groups → is_Ok (subjects_plan fs groups st).
Proof.
  intros Hg. revert st. induction Hg as [|[k g] rest [[info Hk] Hc] _ IH];
    intros st.
  - by eexists.
  - cbn [subjects_plan]. unfold getitem. cbn [fst snd] in *. rewrite Hk.
    cbn [mbind result_bind].
    destruct (chapters_plan_total fs k (groupby chapter_num g)
                (st.1 ++ [Paragraph (Literal (name info)) subject_title_style],
                 st.2) Hc) as [st' ->].
    cbn [mbind result_bind]. apply IH.
Qed.

Lemma story_plan_total fs now qs : Forall configured qs → is_Ok (story_plan fs now qs).
Proof.
  intros Hqs. unfold story_plan.
  destruct (subjects_plan_total fs (groupby subject_code qs) (cover_plan now, 1)
              (known_groups_groupby qs Hqs)) as [st ->].
  by eexists.
Qed.

Lemma story_plan_labels fs now qs st :
  story_plan fs now qs = Ok st →
  item_labels st = enumerate_from 1 qs ∧ answer_labels st = enumerate_from 1 qs.
Proof.
  unfold story_plan.
  destruct (subjects_plan fs (groupby subject_code qs) (cover_plan now, 1))
    as [[story1 n1]|] eqn:Hloop; csimpl; [|done].
  apply subjects_plan_labels in Hloop as (Hi & Ha & _).
  rewrite groupby_concat in Hi. intros [= <-].
  destruct (answers_plan_labels fs (enumerate_from 1 qs)
              (story1 ++ [Paragraph (Literal "答案解析") chapter_title_style;
                          Spacer 1 12])) as [-> ->].
  unfold item_labels, answer_labels in *. rewrite !omap_app, Hi, Ha.
  simpl. by rewrite app_nil_r.
Qed.

(** ** The story that is built

    Each loop of the generator either returns what the loop without the
    parser's check returns, or stops at a text the parser refuses; the
    loops over groups can also stop at the [KeyError] at which the loop
    without the check stops. *)

Lemma append_paragraph_refines fs text style story :
  match append_paragraph fs text style story with
  | Ok story' => story' = story ++ [Paragraph text style]
  | Raise e => refused fs e
  end.
Proof.
  unfold append_paragraph, new_paragraph.
  destruct (markup_ok fs (render text)) eqn:Hok; cbn [mbind result_bind];
    [done|by eexists].
Qed.

Local Ltac paragraph fs text style story :=
  let H := fresh "Hp" in
  pose proof (append_paragraph_refines fs text style story) as H;
  destruct (append_paragraph fs text style story) as [?|?];
  cbn [mbind result_bind]; [subst|done].

Lemma options_loop_refines fs opts story :
  match options_loop fs opts story with
  | Ok story' => story' = options_plan opts story
  | Raise e => refused fs e
  end.
Proof.
  revert story. induction opts as [|[opt v] opts IH]; intros story; [done|].
  cbn [options_loop options_plan].
  destruct (truthy v) as [val|]; [|apply IH].
  paragraph fs (ChoiceText opt val) normal_style story. apply IH.
Qed.

Lemma item_step_refines fs q st :
  match item_step fs q st with
  | Ok st' => st' = item_plan fs q st
  | Raise e => refused fs e
  end.
Proof.
  destruct st as [story n]. unfold item_step, item_plan.
  paragraph fs (ItemText n q) normal_style story.
  case_decide; cbn [mbind result_bind]; [|done].
  match goal with
  | |- context [options_loop fs ?o ?s] =>
      pose proof (options_loop_refines fs o s) as Ho;
      destruct (options_loop fs o s) as [?|?]
  end; cbn [mbind result_bind]; [by subst|done].
Qed.

Lemma chapter_group_loop_refines fs g st :
  match chapter_group_loop fs g st with
  | Ok st' => st' = chapter_group_plan fs g st
  | Raise e => refused fs e
  end.
Proof.
  revert st. induction g as [|q g IH]; intros st; [done|].
  cbn [chapter_group_loop chapter_group_plan].
  pose proof (item_step_refines fs q st) as Hq.
  destruct (item_step fs q st) as [st1|e]; cbn [mbind result_bind]; [|done].
  subst. apply IH.
Qed.

Lemma chapters_loop_refines fs k groups st :
  refines fs (chapters_loop fs k groups st) (chapters_plan fs k groups st).
Proof.
  revert st. induction groups as [|[c g] rest IH]; intros st; [done|].
  cbn [chapters_loop chapters_plan].
  destruct (getitem k SUBJECTS) as [info|e]; cbn [mbind result_bind];
    [|by right].
  destruct (getitem c (chapters info)) as [chapter_name|e];
    cbn [mbind result_bind]; [|by right].
  pose proof (append_paragraph_refines fs (Literal chapter_name)
                chapter_title_style st.1) as Hp.
  destruct (append_paragraph fs _ _ st.1) as [story|e];
    cbn [mbind result_bind]; last first.
  { unfold refines. destruct (chapters_plan _ _ _ _); auto. }
  subst story.
  pose proof (chapter_group_loop_refines fs g
                (st.1 ++ [Paragraph (Literal chapter_name) chapter_title_style],
                 st.2)) as Hg.
  destruct (chapter_group_loop fs g _) as [st1|e]; cbn [mbind result_bind];
    last first.
  { unfold refines. destruct (chapters_plan _ _ _ _); auto. }
  subst st1. apply IH.
Qed.

Lemma subjects_loop_refines fs groups st :
  refines fs (subjects_loop fs groups st) (subjects_plan fs groups st).
Proof.
  revert st. induction groups as [|[k g] rest IH]; intros st; [done|].
  cbn [subjects_loop subjects_plan].
  destruct (getitem k SUBJECTS) as [info|e]; cbn [mbind result_bind];
    [|by right].
  pose proof (append_paragraph_refines fs (Literal (name info))
                subject_title_style st.1) as Hp.
  destruct (append_paragraph fs _ _ st.1) as [story|e];
    cbn [mbind result_bind]; last first.
  { unfold refines.
    destruct (chapters_plan _ _ _ _) as [st1|]; cbn [mbind result_bind];
      [destruct (subjects_plan _ _ _)|]; auto. }
  subst story.
  pose proof (chapters_loop_refines fs k (groupby chapter_num g)
                (st.1 ++ [Paragraph (Literal (name info)) subject_title_style],
                 st.2)) as Hch.
  unfold refines in Hch.
  destruct (chapters_loop fs k _ _) as [st1|e],
           (chapters_plan fs k _ _) as [st1'|e']; cbn [mbind result_bind];
    try done.
  - subst st1'. apply IH.
  - unfold refines. destruct (subjects_plan _ _ _); auto.
Qed.

Lemma answer_step_refines fs i q story :
  match answer_step fs i q story with
  | Ok story' => story' = answer_plan fs i q story
  | Raise e => refused fs e
  end.
Proof.
  unfold answer_step, answer_plan.
  paragraph fs (AnswerText i q) normal_style story.
  destruct (truthy (explanation q)) as [e|]; cbn [mbind result_bind]; [|done].
  match goal with
  | |- context [append_paragraph fs ?t ?y ?s] => paragraph fs t y s
  end.
  match goal with
  | |- context [append_paragraph fs ?t ?y ?s] => paragraph fs t y s
  end.
  by rewrite <- app_assoc.
Qed.

Lemma answers_loop_refines fs iqs story :
  match answers_loop fs iqs story with
  | Ok story' => story' = answers_plan fs iqs story
  | Raise e => refused fs e
  end.
Proof.
  revert story. induction iqs as [|[i q] iqs IH]; intros story; [done|].
  cbn [answers_loop answers_plan].
  pose proof (answer_step_refines fs i q story) as Hq.
  destruct (answer_step fs i q story) as [story1|e]; cbn [mbind result_bind];
    [|done].
  subst. apply IH.
Qed.

Lemma cover_refines fs now :
  match cover fs now with
  | Ok story => story = cover_plan now
  | Raise e => refused fs e
  end.
Proof.
  unfold cover.
  repeat match goal with
         | |- context [append_paragraph fs ?t ?y ?s] => paragraph fs t y s
         end.
  done.
Qed.

Lemma story_refines fs now qs :
  refines fs (story fs now qs) (story_plan fs now qs).
Proof.
  unfold story, story_plan.
  pose proof (cover_refines fs now) as Hc.
  destruct (cover fs now) as [story0|e]; cbn [mbind result_bind]; last first.
  { unfold refines. destruct (subjects_plan _ _ _); cbn [mbind result_bind]; auto. }
  subst story0.
  pose proof (subjects_loop_refines fs (groupby subject_code qs)
                (cover_plan now, 1)) as Hs.
  unfold refines in Hs |- *.
  destruct (subjects_loop fs _ _) as [st|e],
           (subjects_plan fs _ _) as [st'|e']; cbn [mbind result_bind];
    try done.
  subst st'.
  paragraph fs (Literal "答案解析") chapter_title_style st.1.
  match goal with
  | |- context [answers_loop fs ?l ?s] =>
      pose proof (answers_loop_refines fs l s) as Ha;
      destruct (answers_loop fs l s) as [?|?]
  end; [|done].
  subst. by rewrite <- app_assoc.
Qed.

Lemma getitem_KeyError {V} k (d : list (string * V)) e :
  getitem k d = Raise e → e = KeyError k.
Proof. unfold getitem. destruct (assoc k d); by intros [= <-]. Qed.

Lemma chapters_plan_KeyError fs k groups st e :
  chapters_plan fs k groups st = Raise e → ∃ key, e = KeyError key.
Proof.
  revert st. induction groups as [|[c g] rest IH]; intros st; [done|].
  cbn [chapters_plan].
  destruct (getitem k SUBJECTS) as [info|e1] eqn:Hk; cbn [mbind result_bind].
  - destruct (getitem c (chapters info)) as [chapter_name|e2] eqn:Hc;
      cbn [mbind result_bind]; [apply IH|].
    intros [= <-]. apply getitem_KeyError in Hc. eauto.
  - intros [= <-]. apply getitem_KeyError in Hk. eauto.
Qed.

Lemma subjects_plan_KeyError fs groups st e :
  subjects_plan fs groups st = Raise e → ∃ key, e = KeyError key.
Proof.
  revert st. induction groups as [|[k g] rest IH]; intros st; [done|].
  cbn [subjects_plan].
  destruct (getitem k SUBJECTS) as [info|e1] eqn:Hk; cbn [mbind result_bind].
  - destruct (chapters_plan fs k _ _) as [st1|e2] eqn:Hch;
      cbn [mbind result_bind]; [apply IH|].
    intros [= <-]. by apply chapters_plan_KeyError in Hch.
  - intros [= <-]. apply getitem_KeyError in Hk. eauto.
Qed.

Lemma story_plan_KeyError fs now qs e :
  story_plan fs now qs = Raise e → ∃ key, e = KeyError key.
Proof.
  unfold story_plan.
  destruct (subjects_plan fs _ _) as [st|e1] eqn:Hs; cbn [mbind result_bind];
    [done|].
  intros [= <-]. by apply subjects_plan_KeyError in Hs.
Qed.

(** A run of the content stage: the story that is built is the one of
    the loops without the check, and the stage stops only at a refused
    text or at a subject or chapter that is not configured. *)
Lemma story_outcome fs now qs :
  match story fs now qs with
  | Ok st => story_plan fs now qs = Ok st
  | Raise e => story_failure fs qs e
  end.
Proof.
  pose proof (story_refines fs now qs) as Href. unfold refines in Href.
  destruct (story fs now qs) as [st|e],
           (story_plan fs now qs) as [st'|e'] eqn:Hplan; try done.
  - by subst.
  - by right.
  - destruct Href as [?| ->]; [by right|left].
    destruct (story_plan_KeyError _ _ _ _ Hplan) as [key ->].
    exists key. split; [done|].
    intros Hqs. apply (story_plan_total fs now) in Hqs as [st Hst]. congruence.
Qed.





Example story_sample :
  match story no_assets "2024年01月03日"
          (fetch_published_questions catalog_rows) with
  | Ok st =>
      (λ '(n, q), (n, id q)) <$> item_labels st
      = [(1, "DS01000001"); (2, "DS02000001"); (3, "CO02000001")]
      ∧ answer_labels st = item_labels st
  | Raise _ => False
  end.
Proof. by vm_compute. Qed.

Example story_unconfigured :
  story no_assets "2024年01月03日" (fetch_published_questions sample_rows)
  = Raise (KeyError "99").
Proof. by vm_compute. Qed.

(** A configured record whose text the parser refuses stops the
    generator at the paragraph of the record. *)
Example story_refused_text :
  Forall configured [markup_question]
  ∧ story no_assets "2024年01月03日" [markup_question]
    = Raise (ValueError "1. 若 a<b 且 b<c，比较 a 与 c。").
Proof.
  split; [|by vm_compute].
  repeat constructor. eexists. split; [reflexivity|by eexists].
Qed.

(** ** Choices and images of an item *)

Lemma choice_letters_choices (cs : list (string * string)) :
  choice_letters
    ((λ '(opt, val), Paragraph (ChoiceText opt val) normal_style) <$> cs) = cs.
Proof. induction cs as [|[opt val] cs IH]; csimpl; [done|]. by f_equal. Qed.

Lemma choice_letters_app b1 b2 :
  choice_letters (b1 ++ b2) = choice_letters b1 ++ choice_letters b2.
Proof. apply omap_app. Qed.

Lemma choice_letters_item_blocks fs n q :
  choice_letters (item_blocks fs n q)
  = if decide (question_type q = "single_choice") then filled_options q else [].
Proof.
  rewrite item_blocks_eq, !choice_letters_app.
  assert (choice_letters match safe_image fs (image_path q) with
                         | Some img => [Spacer 1 6; img]
                         | None => []
                         end = []) as ->.
  { destruct (safe_image fs (image_path q)) as [img|] eqn:E; [|done].
    by apply safe_image_Some in E as [path ->]. }
  case_decide; [|done].
  rewrite choice_letters_choices. csimpl. by rewrite app_nil_r.
Qed.

Lemma filled_options_elem q opt val :
  (opt, val) ∈ filled_options q ↔ (opt, Some val) ∈ options q ∧ val ≠ "".
Proof.
  unfold filled_options. rewrite list_elem_of_omap. split.
  - intros ([opt' v] & Hin & Hv). destruct v as [s|]; simpl in Hv; [|done].
    case_decide; simplify_eq/=. done.
  - intros [Hin Hne]. exists (opt, Some val). split; [done|].
    simpl. by case_decide.
Qed.

Lemma filled_options_order q :
  (filled_options q).*1 `sublist_of` ["A"; "B"; "C"; "D"].
Proof.
  unfold filled_options, options. simpl.
  repeat match goal with
         | |- context [truthy ?v] => destruct (truthy v); simpl
         end;
    repeat (first [apply sublist_nil | apply sublist_skip | apply sublist_cons]).
Qed.

Lemma options_loop_empty fs opts story :
  Forall (λ ov, truthy ov.2 = None) opts → options_loop fs opts story = Ok story.
Proof.
  induction 1 as [|[opt v] opts Hv _ IH]; [done|].
  cbn [options_loop]. cbn [snd] in Hv. by rewrite Hv.
Qed.

Lemma options_loop_accepted fs opts story :
  Forall (λ '(opt, val), markup_ok fs (render (ChoiceText opt val)) = true)
         (omap (λ '(opt, v), (λ val, (opt, val)) <$> truthy v) opts) →
  options_loop fs opts story = Ok (options_plan opts story).
Proof.
  revert story. induction opts as [|[opt v] opts IH]; intros story Hall;
    [done|].
  cbn [options_loop options_plan]. csimpl in Hall.
  destruct (truthy v) as [val|]; csimpl in Hall; [|by apply IH].
  apply Forall_cons in Hall as [Hval Hall].
  unfold append_paragraph, new_paragraph.
  change (markup_ok fs (render (ChoiceText opt val)) = true) in Hval.
  rewrite Hval. cbn [mbind result_bind]. by apply IH.
Qed.



Example item_blocks_sample :
  choice_letters
    (item_blocks no_assets 1
       (sample_question "DS01000001" "DS" "01" "single_choice" "published"))
  = [("A", "快速排序"); ("D", "归并排序")].
Proof. reflexivity. Qed.

(** ** Outline stage *)

Lemma getitem_Ok {V} k (d : list (string * V)) v :
  getitem k d = Ok v ↔ assoc k d = Some v.
Proof. unfold getitem. destruct (assoc k d); naive_solver. Qed.

Lemma length_chapter_entries k h p chs :
  length (chapter_entries k h p chs) = length chs.
Proof. revert p. induction chs; intros p; csimpl; [done|]. by f_equal. Qed.

Lemma bookmark_chapters_loop_eq k h groups w p w' p' :
  bookmark_chapters_loop k h groups (w, p) = Ok (w', p') →
  outline w' = outline w ++ chapter_entries k h p groups.*1
  ∧ p' = (p + Z.of_nat (length groups))%Z
  ∧ num_pages w' = num_pages w.
Proof.
  revert w p. induction groups as [|[c g] rest IH]; intros w p.
  - intros [= <- <-]. csimpl. rewrite app_nil_r. split_and!; [done|lia|done].
  - cbn [bookmark_chapters_loop].
    destruct (getitem k SUBJECTS) as [info|] eqn:Hk; [|done].
    cbn [mbind result_bind].
    destruct (getitem c (chapters info)) as [chapter_name|] eqn:Hc; [|done].
    cbn [mbind result_bind].
    intros Hrest. apply IH in Hrest as (-> & -> & ->).
    apply getitem_Ok in Hk, Hc.
    csimpl. unfold chapter_title. rewrite Hk. csimpl. rewrite Hc. csimpl.
    rewrite <- app_assoc. split_and!; [done|lia|done].
Qed.

Lemma bookmark_subjects_loop_eq part1 groups w p w' p' :
  bookmark_subjects_loop part1 groups (w, p) = Ok (w', p') →
  outline w'
  = outline w
    ++ subject_entries part1 (length (outline w)) p
         ((λ '(k, g), (k, (groupby chapter_num g).*1)) <$> groups)
  ∧ num_pages w' = num_pages w.
Proof.
  revert w p. induction groups as [|[k g] rest IH]; intros w p.
  - intros [= <- <-]. csimpl. by rewrite app_nil_r.
  - cbn [bookmark_subjects_loop].
    destruct (getitem k SUBJECTS) as [info|] eqn:Hk; [|done].
    cbn [mbind result_bind add_outline_item].
    destruct (bookmark_chapters_loop k _ _ _) as [[w1 p1]|] eqn:Hch; [|done].
    cbn [mbind result_bind].
    apply bookmark_chapters_loop_eq in Hch as (Hol & -> & Hn).
    intros Hrest. apply IH in Hrest as (-> & ->).
    rewrite Hol, Hn. apply getitem_Ok in Hk.
    csimpl. unfold subject_title. rewrite Hk. csimpl.
    rewrite !length_app, length_chapter_entries, !length_fmap. csimpl.
    by rewrite <- !app_assoc.
Qed.

Lemma chapter_entries_parent k h p chs :
  Forall (λ e, parent e = Some h) (chapter_entries k h p chs).
Proof.
  revert p. induction chs as [|c chs IH]; intros p; csimpl; constructor; auto.
Qed.

Lemma chapter_entries_titles k h p chs :
  title <$> chapter_entries k h p chs = chapter_title k <$> chs.
Proof. revert p. induction chs; intros p; csimpl; [done|]. by f_equal. Qed.

Lemma chapter_entries_pages k h p chs :
  page_number <$> chapter_entries k h p chs = seqZ p (Z.of_nat (length chs)).
Proof.
  revert p. induction chs as [|c chs IH]; intros p; csimpl; [done|].
  rewrite seqZ_cons by lia. rewrite IH. do 2 f_equal; lia.
Qed.

Lemma filter_all {A} (P : A → Prop) `{!∀ x, Decision (P x)} l :
  Forall P l → filter P l = l.
Proof.
  induction 1 as [|x l Hx _ IH]; [done|].
  rewrite filter_cons, decide_True by done. by f_equal.
Qed.

Lemma filter_none {A} (P : A → Prop) `{!∀ x, Decision (P x)} l :
  Forall (λ x, ¬ P x) l → filter P l = [].
Proof.
  induction 1 as [|x l Hx _ IH]; [done|].
  by rewrite filter_cons, decide_False.
Qed.

(** A subject entry is followed by the entry of its first chapter, which
    names it as its parent and has its page. *)
Lemma subject_entries_first_child handle page groups i s :
  0 < handle → Forall (λ kg, kg.2 ≠ []) groups →
  subject_entries 0 handle page groups !! i = Some s → parent s = Some 0 →
  ∃ c, subject_entries 0 handle page groups !! S i = Some c
       ∧ parent c = Some (handle + i)
       ∧ page_number c = page_number s.
Proof.
  intros Hh Hne. revert handle page i Hh.
  induction Hne as [|[k chs] rest Hchs _ IH]; intros handle page i Hh; [done|].
  cbn [subject_entries]. destruct i as [|i];
    [change ((?x :: ?l) !! 0) with (Some x)
    |change ((?x :: ?l) !! S ?j) with (l !! j)].
  - intros [= <-] _. destruct chs as [|c chs]; [done|]. csimpl.
    eexists. split; [done|]. csimpl. split; [f_equal; lia|done].
  - intros Hs Hp.
    destruct (decide (i < length (chapter_entries k handle page chs)))
      as [Hi|Hi].
    + rewrite lookup_app_l in Hs by done.
      pose proof (chapter_entries_parent k handle page chs) as Hall.
      rewrite Forall_forall in Hall.
      apply list_elem_of_lookup_2, Hall in Hs. rewrite Hs in Hp.
      simplify_eq. lia.
    + rewrite lookup_app_r in Hs by lia.
      apply IH in Hs as (c & Hc & Hpc & Hpage); [|lia|done].
      exists c. rewrite lookup_app_r by lia.
      rewrite length_chapter_entries in *.
      replace (S i - length chs) with (S (i - length chs)) by lia.
      split; [done|]. split; [|done]. rewrite Hpc. f_equal. lia.
Qed.

(** Every entry names an earlier entry as its parent. *)
Lemma subject_entries_parent_lt handle page groups i e h :
  0 < handle →
  subject_entries 0 handle page groups !! i = Some e → parent e = Some h →
  h < handle + i.
Proof.
  revert handle page i.
  induction groups as [|[k chs] rest IH]; intros handle page i Hh; [done|].
  cbn [subject_entries]. destruct i as [|i];
    [change ((?x :: ?l) !! 0) with (Some x)
    |change ((?x :: ?l) !! S ?j) with (l !! j)].
  - intros [= <-] [= <-]. lia.
  - intros He Hp.
    destruct (decide (i < length (chapter_entries k handle page chs)))
      as [Hi|Hi].
    + rewrite lookup_app_l in He by done.
      pose proof (chapter_entries_parent k handle page chs) as Hall.
      rewrite Forall_forall in Hall.
      apply list_elem_of_lookup_2, Hall in He. rewrite He in Hp.
      simplify_eq. lia.
    + rewrite lookup_app_r in He by lia.
      rewrite length_chapter_entries in *.
      eapply IH in He; [|lia|done]. lia.
Qed.

Lemma subject_entries_parent_Some handle page groups :
  Forall (λ e, is_Some (parent e)) (subject_entries 0 handle page groups).
Proof.
  revert handle page. induction groups as [|[k chs] rest IH];
    intros handle page; cbn [subject_entries]; [constructor|].
  constructor; [by eexists|]. apply Forall_app. split; [|apply IH].
  eapply Forall_impl; [apply chapter_entries_parent|].
  intros e ->. by eexists.
Qed.

(** The entries below the first entry are the subject entries. *)
Lemma subject_entries_subjects handle page groups :
  0 < handle →
  title <$> filter (λ e, parent e = Some 0)
                   (subject_entries 0 handle page groups)
  = subject_title <$> groups.*1.
Proof.
  revert handle page. induction groups as [|[k chs] rest IH];
    intros handle page Hh; cbn [subject_entries]; [done|].
  rewrite filter_cons, decide_True by done. csimpl. f_equal.
  rewrite filter_app, (filter_none _ (chapter_entries k handle page chs)).
  - apply IH. lia.
  - eapply Forall_impl; [apply chapter_entries_parent|].
    intros e -> [= ?]. lia.
Qed.

(** The entries two levels below the first entry are the chapter entries:
    one for each (subject, chapter) run, in order, on consecutive pages. *)
Lemma subject_entries_grandchildren ol pre post handle page groups r :
  ol = pre ++ subject_entries 0 handle page groups ++ post →
  length pre = handle → pre !! 0 = Some r → parent r = None →
  title <$> filter (grandchild_of ol 0) (subject_entries 0 handle page groups)
  = (λ '(k, c), chapter_title k c)
      <$> (groups ≫= λ '(k, chs), (λ c, (k, c)) <$> chs)
  ∧ page_number
      <$> filter (grandchild_of ol 0) (subject_entries 0 handle page groups)
    = seqZ page
        (Z.of_nat (length (groups ≫= λ '(k, chs), (λ c, (k, c)) <$> chs))).
Proof.
  revert pre handle page.
  induction groups as [|[k chs] rest IH]; intros pre handle page Hol Hlen Hr Hpr.
  { done. }
  cbn [subject_entries] in *.
  assert (ol !! 0 = Some r) as Hroot.
  { rewrite Hol. by apply lookup_app_l_Some. }
  rewrite filter_cons, decide_False; last first.
  { unfold grandchild_of. csimpl. rewrite Hroot. csimpl. by rewrite Hpr. }
  rewrite filter_app, (filter_all _ (chapter_entries k handle page chs));
    last first.
  { eapply Forall_impl; [apply chapter_entries_parent|].
    intros e He. unfold grandchild_of. rewrite He. csimpl.
    rewrite Hol, lookup_app_r by lia.
    replace (handle - length pre) with 0 by lia. done. }
  destruct (IH (pre ++ {| title := subject_title k; page_number := page;
                          parent := Some 0 |}
                    :: chapter_entries k handle page chs)
               (handle + 1 + length chs)
               (page + Z.of_nat (length chs))%Z) as [Ht Hp].
  { rewrite Hol, <- !app_assoc. csimpl. by rewrite <- !app_assoc. }
  { rewrite length_app. csimpl. rewrite length_chapter_entries. lia. }
  { by apply lookup_app_l_Some. }
  { done. }
  csimpl. rewrite !fmap_app, Ht, Hp, chapter_entries_titles,
    chapter_entries_pages, length_app, length_fmap, <- list_fmap_compose.
  split; [done|].
  rewrite Nat2Z.inj_add, seqZ_app by lia. done.
Qed.

Lemma groupby_nil {A} (key : A → string) l : groupby key l = [] → l = [].
Proof.
  destruct l as [|x l]; [done|]. simpl.
  destruct (groupby key l) as [|[k g] rest]; [done|]. by case_decide.
Qed.

Lemma group_keys_nonempty qs : Forall (λ kg, kg.2 ≠ []) (group_keys qs).
Proof.
  unfold group_keys. apply Forall_fmap.
  eapply Forall_impl; [apply (groupby_Forall subject_code (λ _, True))|].
  - by apply Forall_true.
  - intros [k g] [Hne _]. csimpl in *. intros Hnil.
    apply fmap_nil_inv, groupby_nil in Hnil. done.
Qed.

Lemma bookmark_chapters_loop_total k h groups st :
  Forall (λ cg, known_chapter k cg.1) groups →
  is_Ok (bookmark_chapters_loop k h groups st).
Proof.
  intros Hg. revert st. induction Hg as [|[c g] rest Hc _ IH]; intros [w p].
  - by eexists.
  - destruct Hc as (info & Hinfo & [chapter_name Hc]).
    cbn [bookmark_chapters_loop]. unfold getitem. cbn [fst] in Hc.
    rewrite Hinfo. cbn [mbind result_bind]. rewrite Hc.
    cbn [mbind result_bind]. apply IH.
Qed.

Lemma bookmark_subjects_loop_total part1 groups st :
  known_groups groups → is_Ok (bookmark_subjects_loop part1 groups st).
Proof.
  intros Hg. revert st.
  induction Hg as [|[k g] rest [[info Hk] Hc] _ IH]; intros [w p].
  - by eexists.
  - cbn [bookmark_subjects_loop]. unfold getitem. cbn [fst snd] in *.
    rewrite Hk. cbn [mbind result_bind add_outline_item].
    match goal with
    | |- context [bookmark_chapters_loop k ?h ?gs ?st] =>
        destruct (bookmark_chapters_loop_total k h gs st Hc) as [st' ->]
    end.
    cbn [mbind result_bind]. apply IH.
Qed.

Lemma bookmarked_total n qs : Forall configured qs → is_Ok (bookmarked n qs).
Proof.
  intros Hqs. unfold bookmarked. cbn [add_outline_item].
  match goal with
  | |- context [bookmark_subjects_loop ?p ?gs ?st] =>
      destruct (bookmark_subjects_loop_total p gs st
                  (known_groups_groupby qs Hqs)) as [st' ->]
  end.
  by eexists.
Qed.

Lemma bookmarked_eq n qs w :
  bookmarked n qs = Ok w →
  num_pages w = n
  ∧ outline w
    = [{| title := "习题"; page_number := 1; parent := None |}]
      ++ subject_entries 0 1 1 (group_keys qs)
      ++ [{| title := "答案解析"; page_number := Z.of_nat n - 1;
             parent := None |}].
Proof.
  unfold bookmarked. cbn [add_outline_item].
  destruct (bookmark_subjects_loop _ _ _) as [[w1 p1]|] eqn:Hloop; [|done].
  cbn [mbind result_bind]. intros [= <-].
  apply bookmark_subjects_loop_eq in Hloop as [Hol Hn].
  csimpl in *. by rewrite Hol, Hn.
Qed.

Lemma head_filter_first {A} (P : A → Prop) `{!∀ x, Decision (P x)} l i c :
  l !! i = Some c → P c →
  (∀ j x, j < i → l !! j = Some x → ¬ P x) →
  head (filter P l) = Some c.
Proof.
  revert i. induction l as [|a l IH]; intros i Hi Hc Hbefore; [done|].
  destruct i as [|i]; simplify_eq/=.
  - by rewrite filter_cons, decide_True.
  - rewrite filter_cons, decide_False.
    + apply (IH i); [done..|]. intros j x Hj Hx. apply (Hbefore (S j)); [lia|done].
    + apply (Hbefore 0); [lia|done].
Qed.

(** C2. In the outline the bookmark stage builds for an artifact of [n]
    pages, the top level holds the items entry, on page 1 (pages count
    from 0, so this is the page after the one-page cover), and the
    answers entry, on page [n - 1].  Below the items entry there is one
    entry per subject run; two levels below there is one entry per
    (subject, chapter) run, in sequence order, on the pages 1, 2, 3, ...,
    one page further for each.  The first entry below a subject entry is a
    chapter entry on the subject's own page.  The stage builds no outline
    only when a record has a subject or chapter that is not configured. *)
Theorem bookmarks_one_page_per_subgroup n qs :
  match bookmarked n qs with
  | Ok w =>
      let ol := outline w in
      num_pages w = n
      ∧ filter (λ e, parent e = None) ol
        = [ {| title := "习题"; page_number := 1; parent := None |};
            {| title := "答案解析"; page_number := Z.of_nat n - 1;
               parent := None |} ]
      ∧ ol !! 0 = Some {| title := "习题"; page_number := 1; parent := None |}
      ∧ title <$> child_entries ol 0 = subject_title <$> (group_keys qs).*1
      ∧ title <$> filter (grandchild_of ol 0) ol
        = (λ '(k, c), chapter_title k c) <$> subgroups qs
      ∧ page_number <$> filter (grandchild_of ol 0) ol
        = seqZ 1 (Z.of_nat (length (subgroups qs)))
      ∧ (∀ h s, ol !! h = Some s → parent s = Some 0 →
           ∃ c, head (child_entries ol h) = Some c
                ∧ grandchild_of ol 0 c
                ∧ page_number c = page_number s)
  | Raise _ => ¬ Forall configured qs
  end.
Proof.
  destruct (bookmarked n qs) as [w|e] eqn:Hw; last first.
  { intros Hqs. apply (bookmarked_total n) in Hqs as [w Hw']. congruence. }
  apply bookmarked_eq in Hw as [Hn Hol]. cbv zeta.
  set (root := {| title := "习题"; page_number := 1; parent := None |}) in *.
  set (answers := {| title := "答案解析"; page_number := Z.of_nat n - 1;
                     parent := None |}) in *.
  set (seg := subject_entries 0 1 1 (group_keys qs)) in *.
  assert (∀ i e h, outline w !! i = Some e → parent e = Some h → h < i)
    as Hback.
  { intros i e h. rewrite Hol. destruct i as [|i]; [by intros [= <-]|].
    change (([root] ++ seg ++ [answers]) !! S i)
      with ((seg ++ [answers]) !! i).
    intros He Hp. apply lookup_app_Some in He as [He|[_ He]].
    - pose proof (subject_entries_parent_lt 1 1 (group_keys qs) i e h) as Hlt.
      specialize (Hlt ltac:(lia) He Hp). lia.
    - apply list_lookup_singleton_Some in He as [_ <-]. done. }
  split_and!.
  - done.
  - rewrite Hol, !filter_app. csimpl. rewrite !filter_cons, !filter_nil, !decide_True by done.
    rewrite (filter_none _ seg); [done|].
    eapply Forall_impl; [apply subject_entries_parent_Some|].
    intros e [h ->]. done.
  - by rewrite Hol.
  - unfold child_entries. rewrite Hol, !filter_app. csimpl.
    rewrite !filter_cons, !filter_nil, !decide_False by done.
    rewrite app_nil_r. apply subject_entries_subjects. lia.
  - replace (filter (grandchild_of (outline w) 0) (outline w))
      with (filter (grandchild_of (outline w) 0) ([root] ++ seg ++ [answers]))
      by (by rewrite <- Hol).
    rewrite !filter_app. csimpl.
    rewrite !filter_cons, !filter_nil, !decide_False by done.
    rewrite app_nil_r.
    destruct (subject_entries_grandchildren (outline w) [root] [answers]
                1 1 (group_keys qs) root Hol eq_refl eq_refl eq_refl)
      as [Ht _].
    exact Ht.
  - replace (filter (grandchild_of (outline w) 0) (outline w))
      with (filter (grandchild_of (outline w) 0) ([root] ++ seg ++ [answers]))
      by (by rewrite <- Hol).
    rewrite !filter_app. csimpl.
    rewrite !filter_cons, !filter_nil, !decide_False by done.
    rewrite app_nil_r.
    destruct (subject_entries_grandchildren (outline w) [root] [answers]
                1 1 (group_keys qs) root Hol eq_refl eq_refl eq_refl)
      as [_ Hp].
    exact Hp.
  - intros h s Hs Hp.
    assert (∃ c, outline w !! S h = Some c ∧ parent c = Some h
                 ∧ page_number c = page_number s) as (c & Hc & Hpc & Hpage).
    { rewrite Hol in Hs |- *. destruct h as [|h]; [by simplify_eq/=|].
      change (([root] ++ seg ++ [answers]) !! S h)
        with ((seg ++ [answers]) !! h) in Hs.
      change (([root] ++ seg ++ [answers]) !! S (S h))
        with ((seg ++ [answers]) !! S h).
      apply lookup_app_Some in Hs as [Hs|[_ Hs]].
      - destruct (subject_entries_first_child 1 1 (group_keys qs) h s)
          as (c & Hc & Hpc & Hpage); [lia|apply group_keys_nonempty|done..|].
        exists c. split; [|done]. by apply lookup_app_l_Some.
      - apply list_lookup_singleton_Some in Hs as [_ <-]. done. }
    exists c. split_and!; [|by unfold grandchild_of; rewrite Hpc; csimpl; rewrite Hs|done].
    apply (head_filter_first _ _ (S h)); [done..|].
    intros j x Hj Hx Hpx. apply (Hback j x h) in Hx; [lia|done].
Qed.

(** For the sample catalog and an artifact of nine pages: the subject
    entry at handle 1 has its first chapter on its own page 1, the three
    chapter entries are on the pages 1, 2, 3, and the answers entry is on
    page 8. *)
Lemma bookmarks_one_page_per_subgroup_witness :
  ∃ w s, bookmarked 9 (fetch_published_questions catalog_rows) = Ok w
         ∧ outline w !! 1 = Some s ∧ parent s = Some 0
         ∧ (∃ c, head (child_entries (outline w) 1) = Some c
                 ∧ page_number c = page_number s)
         ∧ page_number <$> filter (grandchild_of (outline w) 0) (outline w)
           = [1; 2; 3]%Z
         ∧ last (outline w)
           = Some {| title := "答案解析"; page_number := 8; parent := None |}.
Proof.
  pose proof (bookmarks_one_page_per_subgroup 9
                (fetch_published_questions catalog_rows)) as Hbm.
  destruct (bookmarked 9 (fetch_published_questions catalog_rows))
    as [w|e] eqn:Hw.
  - vm_compute in Hw. injection Hw as <-.
    destruct Hbm as (_ & _ & _ & _ & _ & Hpages & Hfirst).
    eexists _, _. split; [reflexivity|]. split; [reflexivity|].
    split; [reflexivity|]. split; [|split; [exact Hpages|reflexivity]].
    destruct (Hfirst 1 _ eq_refl eq_refl) as (c & Hc & _ & Hpage).
    by exists c.
  - vm_compute in Hw. discriminate Hw.
Defined.

Example bookmarked_sample :
  outline <$> (match bookmarked 9 (fetch_published_questions catalog_rows) with
               | Ok w => Some w
               | Raise _ => None
               end)
  = Some [ {| title := "习题"; page_number := 1; parent := None |};
           {| title := "数据结构"; page_number := 1; parent := Some 0 |};
           {| title := "基本概念"; page_number := 1; parent := Some 1 |};
           {| title := "线性表"; page_number := 2; parent := Some 1 |};
           {| title := "计算机组成原理"; page_number := 3; parent := Some 0 |};
           {| title := "数据的表示和运算"; page_number := 3;
              parent := Some 4 |};
           {| title := "答案解析"; page_number := 8; parent := None |} ].
Proof. reflexivity. Qed.

(** ** Command-line entry point *)

Local Ltac run_se :=
  unfold script, register_chinese_font, main, generate_content_pdf,
    add_bookmarks, PdfReader, write_outlined, print, write_file, unlink,
    lift, raise, modify, mbind, mret, SE_bind, SE_ret, result_bind;
  cbn beta iota.

Local Ltac step := cbn [fst snd fs stdout negb andb].

Lemma temp_is_not_final : "temp_workbook.pdf" ≠ OUTPUT_PDF.
Proof. done. Qed.

(** C7, as the program has it.  With the font in place and a catalog that
    is not empty, the content goes to the temporary name first, and the
    final name is opened for writing only when the content stage, the
    re-opening of the temporary artifact and the construction of the
    outline have all succeeded: if one of them raises, the run ends with
    that exception and the file under the final name is what it was
    before the run.  The final write goes straight to the final name:
    when it completes, the final name holds the outlined artifact and the
    temporary file is gone; when it fails on the way, the run ends with
    that failure and the final name holds the truncated file.  A run that
    stops earlier (no font, empty catalog) touches no file. *)
Theorem final_name_written_last h p :
  if font_present h && bool_decide (fetch_published_questions (rows h) ≠ [])
  then
    match staged h with
    | Raise e =>
        (script h p).1 = Raise e
        ∧ fs (script h p).2 !! OUTPUT_PDF = fs p !! OUTPUT_PDF
    | Ok w =>
        (∃ st n, story (assets h) (now h)
                   (fetch_published_questions (rows h)) = Ok st
                 ∧ layout h st = Ok n
                 ∧ (generate_content_pdf h
                      (fetch_published_questions (rows h))
                      "temp_workbook.pdf" p).1 = Ok ()
                 ∧ fs (generate_content_pdf h
                         (fetch_published_questions (rows h))
                         "temp_workbook.pdf" p).2
                   = <["temp_workbook.pdf" := ContentPdf st n]> (fs p))
        ∧ match write_fault h with
          | None =>
              (script h p).1 = Ok ()
              ∧ fs (script h p).2 !! OUTPUT_PDF = Some (OutlinedPdf w)
              ∧ fs (script h p).2 !! "temp_workbook.pdf" = None
          | Some nbytes =>
              (script h p).1 = Raise (OSError OUTPUT_PDF)
              ∧ fs (script h p).2 !! OUTPUT_PDF = Some (Truncated nbytes)
          end
    end
  else fs (script h p).2 = fs p.
Proof.
  unfold staged. run_se.
  destruct (font_present h); step; [|done].
  case_bool_decide as Hqs; [|by rewrite Hqs].
  destruct (fetch_published_questions (rows h)) as [|q qs] eqn:Hfetch; [done|].
  destruct (story (assets h) (now h) (q :: qs)) as [st|e]; step; [|done].
  destruct (layout h st) as [n|e] eqn:Hlayout; step; [|done].
  destruct (read_fault h); step; [by rewrite lookup_insert_ne|].
  rewrite lookup_insert_eq.
  destruct (bookmarked n (q :: qs)) as [w|e]; step.
  - split; [by exists st, n|].
    destruct (write_fault h) as [nbytes|]; step.
    + by rewrite lookup_insert_eq.
    + rewrite lookup_delete_ne, lookup_insert_eq by done.
      by rewrite lookup_delete_eq.
  - by rewrite lookup_insert_ne.
Qed.

(** When the disk fills up during the final write, the run fails and the
    4096 bytes written so far stay under the final name. *)
Lemma write_failure_leaves_partial_output :
  ¬ fails_clean full_disk_host fresh_proc.
Proof.
  intros Hclean.
  apply (Hclean ltac:(vm_compute; discriminate) 4096%nat).
  vm_compute. reflexivity.
Qed.

Example full_run_publishes :
  exit_status (script sample_host fresh_proc).1 = 0%Z
  ∧ (∃ w, fs (script sample_host fresh_proc).2 !! OUTPUT_PDF
          = Some (OutlinedPdf w)
          ∧ page_number <$> outline w = [1; 1; 1; 2; 3; 3; 8]%Z)
  ∧ fs (script sample_host fresh_proc).2 !! "temp_workbook.pdf" = None.
Proof. vm_compute. eauto. Qed.

(** C4, as the program has it.  Without the font the run ends with the
    uncaught [FileNotFoundError] raised while the module is loaded, so
    with exit status 1 and that error as its message.  With the font and
    an empty catalog the run prints its notice, touches nothing and ends
    with exit status 0.  With the font and a catalog that is not empty,
    an artifact that cannot be opened again ends the run with an uncaught
    exception, so with exit status 1; and otherwise the exit status is 0
    exactly when every stage and the final write succeed. *)
Theorem script_exit_status h p :
  if negb (font_present h) then
    (script h p).1 = Raise (FileNotFoundError FONT_PATH)
    ∧ exit_status (script h p).1 = 1%Z
    ∧ script h p = (Raise (FileNotFoundError FONT_PATH), p)
  else if bool_decide (fetch_published_questions (rows h) = []) then
    script h p
    = (Ok (), {| fs := fs p; stdout := stdout p ++ ["⚠️ 无已发布题目"] |})
    ∧ exit_status (script h p).1 = 0%Z
  else if read_fault h then
    exit_status (script h p).1 = 1%Z ∧ is_Some (stderr (script h p).1)
  else
    exit_status (script h p).1 = 0%Z ↔ is_Ok (staged h) ∧ write_fault h = None.
Proof.
  unfold staged. run_se.
  destruct (font_present h); step; [|done].
  case_bool_decide as Hqs; [by rewrite Hqs|].
  destruct (fetch_published_questions (rows h)) as [|q qs] eqn:Hfetch; [done|].
  destruct (story (assets h) (now h) (q :: qs)) as [st|e]; step.
  2: { destruct (read_fault h); [by eauto|].
       split; [done|]. by intros [[w ?] _]. }
  destruct (layout h st) as [n|e]; step.
  2: { destruct (read_fault h); [by eauto|].
       split; [done|]. by intros [[w ?] _]. }
  destruct (read_fault h); step; [by eauto|].
  rewrite lookup_insert_eq.
  destruct (bookmarked n (q :: qs)) as [w|e]; step.
  2: { split; [done|]. by intros [[w ?] _]. }
  destruct (write_fault h) as [nbytes|]; step.
  - split; [done|]. by intros [_ ?].
  - split; [|done]. intros _. split; [by eexists|done].
Qed.

(** With an empty table the run ends with exit status 0. *)
Lemma empty_catalog_exits_zero : ¬ fails_loudly empty_host fresh_proc.
Proof.
  intros Hloud. apply Hloud.
  - right. left. reflexivity.
  - vm_compute. reflexivity.
Qed.

(** ** Identifier assigner *)

(** C3.  On a table where a record of the chapter carries an id that does
    not parse and sorts above the others, the assigner starts over: it
    returns the number 1, an id that is already in the table, where the
    contract asks for one more than the greatest number that parses. *)
Theorem generate_question_id_restarts :
  generate_question_id legacy_rows "DS" "01" = "DS01000001"
  ∧ "DS01000001" ∈ id <$> legacy_rows
  ∧ select_last_id legacy_rows "DS" "01" = ["DS01_legacy"]
  ∧ re_match "DS" "01" "DS01_legacy" = None
  ∧ next_id_by_contract (id <$> legacy_rows) "DS" "01" = "DS01000003".
Proof. split_and!; [reflexivity|compute_done|reflexivity..]. Qed.

Example generate_question_id_next :
  generate_question_id sample_rows "DS" "01" = "DS01000003"
  ∧ generate_question_id sample_rows "OS" "01" = "OS01000001"
  ∧ next_id_by_contract ["DS01000002"; "DS01000001"] "DS" "01" = "DS01000003".
Proof. split_and!; reflexivity. Qed.

(** *** Well-formed identifiers

    On a table where every id of the chapter has the shape the assigner
    produces, the greatest id in string order carries the greatest
    number, and the assigner meets its contract. *)

Lemma compare_app p a b :
  String.compare (p +:+ a) (p +:+ b) = String.compare a b.
Proof.
  induction p as [|c p IH]; [done|].
  change (String c p +:+ ?x) with (String c (p +:+ x)). cbn.
  unfold Ascii.compare. by rewrite N.compare_refl.
Qed.

Lemma le_app p a b : String.le (p +:+ a) (p +:+ b) ↔ String.le a b.
Proof. unfold String.le, String.leb. by rewrite compare_app. Qed.

Lemma prefix_app p a : String.prefix p (p +:+ a) = true.
Proof.
  induction p as [|c p IH]; [by destruct a|].
  change (String c p +:+ ?x) with (String c (p +:+ x)). cbn.
  by destruct (Ascii.ascii_dec c c).
Qed.

Lemma substring_all a : String.substring 0 (String.length a) a = a.
Proof. induction a as [|c a IH]; [done|]. cbn. by rewrite IH. Qed.

Lemma substring_app p n a :
  String.substring (String.length p) n (p +:+ a) = String.substring 0 n a.
Proof.
  induction p as [|c p IH]; [done|].
  change (String c p +:+ ?x) with (String c (p +:+ x)). cbn. apply IH.
Qed.

Lemma re_match_well_formed s c digits :
  String.length digits = 6 → is_Some (int digits) →
  re_match s c ((s +:+ c) +:+ digits) = Some digits.
Proof.
  intros Hlen Hint. unfold re_match.
  rewrite prefix_app, substring_app, <- Hlen, substring_all.
  by rewrite decide_True.
Qed.

Lemma digit_of_lt c1 c2 d1 d2 :
  digit_of c1 = Some d1 → digit_of c2 = Some d2 →
  Ascii.compare c1 c2 = Lt → (d1 < d2)%N.
Proof.
  unfold digit_of, Ascii.compare. repeat case_decide; try done.
  intros [= <-] [= <-] Hlt.
  assert (Ascii.N_of_ascii c1 < Ascii.N_of_ascii c2)%N by exact Hlt. lia.
Qed.

Lemma digit_of_bound c d : digit_of c = Some d → (d ≤ 9)%N.
Proof. unfold digit_of. case_decide; [|done]. intros [= <-]. lia. Qed.

Lemma int_from_lt a b x y va vb :
  String.length a = String.length b → (x < y)%N →
  int_from x a = Some va → int_from y b = Some vb → (va < vb)%N.
Proof.
  revert b x y. induction a as [|c a IH]; intros [|c' b] x y Hlen Hxy;
    try done; cbn.
  - intros [= <-] [= <-]. done.
  - destruct (digit_of c) as [d|] eqn:Hd; [|done].
    destruct (digit_of c') as [d'|] eqn:Hd'; [|done]. cbn.
    apply digit_of_bound in Hd, Hd'.
    apply IH; [by simplify_eq/=|lia].
Qed.

Lemma int_from_compare a b x va vb :
  String.length a = String.length b →
  int_from x a = Some va → int_from x b = Some vb →
  String.compare a b ≠ Gt → (va ≤ vb)%N.
Proof.
  revert b x. induction a as [|c a IH]; intros [|c' b] x Hlen; try done; cbn.
  - intros [= <-] [= <-] _. done.
  - destruct (digit_of c) as [d|] eqn:Hd; [|done].
    destruct (digit_of c') as [d'|] eqn:Hd'; [|done]. cbn.
    destruct (Ascii.compare c c') eqn:Hc; [| |done].
    + apply Ascii.compare_eq_iff in Hc as <-. simplify_eq/=.
      intros. by eapply IH.
    + pose proof (digit_of_lt _ _ _ _ Hd Hd' Hc).
      intros Ha Hb _. apply N.lt_le_incl.
      eapply (int_from_lt a b); [by simplify_eq/=| |done..]. lia.
Qed.

(** String order on well-formed identifiers is the order of their
    numbers. *)
Lemma parsed_seq_mono s c x y :
  well_formed_id s c x → well_formed_id s c y → String.le x y →
  ∃ vx vy, parsed_seq s c x = Some vx ∧ parsed_seq s c y = Some vy
           ∧ (vx ≤ vy)%N.
Proof.
  intros (dx & -> & Hlx & [vx Hx]) (dy & -> & Hly & [vy Hy]) Hle.
  exists vx, vy. unfold parsed_seq.
  rewrite !re_match_well_formed by eauto. cbn. split_and!; [done..|].
  apply le_app in Hle. unfold int in Hx, Hy.
  repeat case_decide; try done.
  eapply (int_from_compare dx dy); [congruence|done..|].
  unfold String.le, String.leb in Hle. by destruct (String.compare dx dy).
Qed.

Lemma sort_by_desc_head (l : list string) m rest :
  sort_by (flip String.le) (λ s, s) l = m :: rest →
  m ∈ l ∧ ∀ x, x ∈ l → String.le x m.
Proof.
  intros Hsort.
  assert (Total (flip String.le)) as Htot.
  { intros x y. destruct (total String.le x y); [right|left]; done. }
  assert (Transitive (flip String.le)) as Htrans.
  { intros x y z Hxy Hyz. unfold flip in *. by etrans. }
  pose proof (Sorted_sort_by (flip String.le) (λ s, s) l) as Hs.
  apply Sorted_StronglySorted in Hs; [|by intros x y z; apply Htrans].
  pose proof (sort_by_Permutation (flip String.le) (λ s : string, s) l) as Hp.
  rewrite Hsort in Hs, Hp. split.
  - rewrite <- Hp. by left.
  - intros x Hx. rewrite <- Hp in Hx.
    apply elem_of_cons in Hx as [->|Hx]; [done|].
    apply StronglySorted_inv in Hs as [_ Hall].
    rewrite Forall_forall in Hall. by apply Hall.
Qed.

Lemma foldr_max_greatest (l : list N) m :
  m ∈ l → (∀ v, v ∈ l → (v ≤ m)%N) → foldr N.max 0%N l = m.
Proof.
  intros Hm Hall. apply N.le_antisymm.
  - clear Hm. induction l as [|v l IH]; cbn; [lia|].
    apply N.max_lub; [apply Hall; by left|].
    apply IH. intros w Hw. apply Hall. by right.
  - clear Hall. induction l as [|v l IH]; [by apply elem_of_nil in Hm|].
    cbn. apply elem_of_cons in Hm as [->|Hm]; [lia|].
    specialize (IH Hm). lia.
Qed.

(** On well-formed tables the assigner returns what the contract asks
    for. *)
Lemma generate_question_id_contract rows s c :
  Forall (λ q, subject_code q = s ∧ chapter_num q = c →
               well_formed_id s c (id q)) rows →
  generate_question_id rows s c
  = next_id_by_contract
      (id <$> filter (λ q, subject_code q = s ∧ chapter_num q = c) rows) s c.
Proof.
  intros Hwf.
  assert (Forall (well_formed_id s c)
            (id <$> filter (λ q, subject_code q = s ∧ chapter_num q = c) rows))
    as Hids.
  { apply Forall_fmap, Forall_forall. intros q Hq.
    apply list_elem_of_filter in Hq as [Hpair Hq].
    rewrite Forall_forall in Hwf. by apply Hwf. }
  unfold generate_question_id, next_id_by_contract, select_last_id.
  generalize dependent (id <$> filter (λ q, subject_code q = s
                                             ∧ chapter_num q = c) rows).
  intros ids Hids.
  destruct (sort_by (flip String.le) (λ s, s) ids) as [|m rest] eqn:Hsort.
  { assert (ids = []) as ->; [|done].
    apply Permutation_nil. rewrite <- Hsort. apply sort_by_Permutation. }
  apply sort_by_desc_head in Hsort as [Hm Hmax]. cbn [take].
  rewrite Forall_forall in Hids.
  destruct (parsed_seq_mono s c m m) as (vm & ? & Hpm & ? & _);
    [by apply Hids..|done|]. simplify_eq.
  assert (re_match s c m ≫= int = Some vm) as Hre by exact Hpm.
  destruct (re_match s c m) as [g|]; [|done]. cbn in Hre. rewrite Hre.
  do 3 f_equal.
  symmetry. f_equal. apply foldr_max_greatest.
  - apply list_elem_of_omap. by exists m.
  - intros v Hv. apply list_elem_of_omap in Hv as (x & Hx & Hpx).
    destruct (parsed_seq_mono s c x m) as (vx & vm' & ? & ? & ?);
      [by apply Hids..|by apply Hmax|].
    by simplify_eq.
Qed.

(** ** Store operations *)

Lemma updated_row_Ok r sc cn qt st qx oa ob oc od ca ex kn nt lm im r' :
  updated_row r sc cn qt st qx oa ob oc od ca ex kn nt lm im = Ok r' →
  id r' = id r ∧ created_date r' = created_date r ∧ last_modified r' = lm.
Proof.
  unfold updated_row.
  destruct sc, cn, qt, st, qx, ca; try done. by intros [= <-].
Qed.

Lemma sql_update_Forall2 where_id set rows rows' :
  sql_update where_id set rows = Ok rows' →
  Forall2 (λ r r', if decide (where_id = Some (id r))
                   then set r = Ok r' else r' = r) rows rows'.
Proof.
  revert rows'. induction rows as [|r rows IH]; intros rows'.
  - intros [= <-]. constructor.
  - cbn [sql_update].
    destruct (decide (where_id = Some (id r))) as [Hw|Hw].
    + destruct (set r) as [r1|] eqn:Hset; [|done]. cbn [mbind result_bind].
      destruct (sql_update where_id set rows) as [rows1|]; [|done].
      cbn [mbind result_bind]. intros [= <-].
      constructor; [by rewrite decide_True|by apply IH].
    + cbn [mbind result_bind].
      destruct (sql_update where_id set rows) as [rows1|]; [|done].
      cbn [mbind result_bind]. intros [= <-].
      constructor; [by rewrite decide_False|by apply IH].
Qed.

(** C10.  When [update_question] succeeds, the table has the same number
    of rows, every row keeps its id and its creation date, a row whose
    id is the one in the dict gets today's date as its modification date,
    and every other row is left as it was.  When it raises, nothing is
    changed. *)
Theorem update_question_frame d question_data app :
  match update_question d question_data app with
  | (Ok _, app') =>
      length (db app') = length (db app)
      ∧ (∀ i r, db app !! i = Some r →
           ∃ r', db app' !! i = Some r'
                 ∧ id r' = id r
                 ∧ created_date r' = created_date r
                 ∧ if decide (question_data !! "id" = Some (Some (id r)))
                   then last_modified r' = today d
                   else r' = r)
  | (Raise _, app') => app' = app
  end.
Proof.
  unfold update_question, item.
  repeat match goal with
         | |- context [question_data !! ?k] =>
             destruct (question_data !! k) eqn:?; cbn [mbind result_bind];
             [|done]
         end.
  destruct (sql_update _ _ (db app)) as [rows'|] eqn:Hupd; [|done].
  apply sql_update_Forall2 in Hupd. cbn [db set_db]. split.
  - symmetry. by eapply Forall2_length.
  - intros i r Hr.
    destruct (Forall2_lookup_l _ _ _ _ _ Hupd Hr) as (r' & Hr' & Hrel).
    exists r'. split; [done|].
    destruct (decide (_ = Some (id r))) as [->|Hne].
    + apply updated_row_Ok in Hrel as (? & ? & ?). by rewrite decide_True.
    + subst r'. by rewrite decide_False by congruence.
Qed.

(** Saving the edit form for DS02000001 in the sample table: the row keeps
    its id and creation date and gets today's date, the row before it is
    left as it was. *)
Lemma update_question_frame_witness :
  ∃ app' r0 r1,
    update_question sample_desktop sample_edit sample_app = (Ok (), app')
    ∧ db sample_app !! 0 = Some r0 ∧ db app' !! 0 = Some r0
    ∧ db app' !! 1 = Some r1
    ∧ id r1 = "DS02000001" ∧ created_date r1 = "2024-01-01"
    ∧ last_modified r1 = "2024-01-03".
Proof.
  pose proof (update_question_frame sample_desktop sample_edit sample_app)
    as Hframe.
  destruct (update_question sample_desktop sample_edit sample_app)
    as [[[]|e] app'] eqn:Hupd.
  - destruct Hframe as [_ Hrows].
    destruct (Hrows 0 _ eq_refl) as (r0 & Hr0 & _ & _ & Hsame).
    destruct (Hrows 1 _ eq_refl) as (r1 & Hr1 & Hid & Hcreated & Hmod).
    rewrite decide_False in Hsame by (vm_compute; congruence).
    rewrite decide_True in Hmod by (vm_compute; reflexivity).
    exists app', r0, r1. subst r0. by split_and!.
  - vm_compute in Hupd. discriminate Hupd.
Defined.

Lemma published_app_draft rows q :
  status q = "draft" → published (rows ++ [q]) = published rows.
Proof.
  intros Hq. unfold published.
  rewrite filter_app, filter_cons, decide_False, filter_nil, app_nil_r; [done|].
  by rewrite Hq.
Qed.

Example duplicate_question_sample :
  (duplicate_question sample_desktop sample_app).1 = Ok ()
  ∧ (λ q, (id q, status q))
      <$> db (duplicate_question sample_desktop sample_app).2
    = ((λ q, (id q, status q)) <$> db sample_app)
      ++ [("DS02000002", "draft")].
Proof. split; reflexivity. Qed.

Example update_question_sample :
  (update_question sample_desktop sample_edit sample_app).1 = Ok ()
  ∧ (λ q, (id q, status q, created_date q, last_modified q))
      <$> db (update_question sample_desktop sample_edit sample_app).2
    = [ ("CO02000001", "published", "2024-01-01", "2024-01-02");
        ("DS02000001", "deprecated", "2024-01-01", "2024-01-03");
        ("DS01000002", "draft", "2024-01-01", "2024-01-02");
        ("DS01000001", "published", "2024-01-01", "2024-01-02");
        ("DS99000001", "published", "2024-01-01", "2024-01-02");
        ("XX01000001", "published", "2024-01-01", "2024-01-02") ].
Proof. split; vm_compute; reflexivity. Qed.

(** ** Formatting and reading sequence numbers *)

Lemma int_from_string_of_uint acc d :
  int_from acc (NilEmpty.string_of_uint d) = Some (uint_val acc d).
Proof. revert acc. induction d; intros acc; cbn; [done|apply IHd..]. Qed.

Lemma of_lu_revapp_val d d' :
  DecimalPos.Unsigned.of_lu (Decimal.revapp d d')
  = uint_val (DecimalPos.Unsigned.of_lu d') d.
Proof.
  revert d'. induction d; intros d'; cbn [Decimal.revapp uint_val]; [done|..];
    rewrite IHd; f_equal; cbn [DecimalPos.Unsigned.of_lu]; lia.
Qed.

Lemma uint_val_of_uint d : uint_val 0 d = N.of_uint d.
Proof.
  unfold N.of_uint. rewrite DecimalPos.Unsigned.of_uint_alt.
  unfold Decimal.rev. by rewrite of_lu_revapp_val.
Qed.

Lemma to_uint_nonnil n : N.to_uint n ≠ Decimal.Nil.
Proof.
  destruct n as [|p]; [done|]. apply DecimalPos.Unsigned.to_uint_nonnil.
Qed.

Lemma int_from_decimal n :
  int_from 0 (NilZero.string_of_uint (N.to_uint n)) = Some n.
Proof.
  pose proof (to_uint_nonnil n) as Hnil.
  unfold NilZero.string_of_uint.
  destruct (N.to_uint n) eqn:Hd; [done|..];
    rewrite <- Hd, int_from_string_of_uint, uint_val_of_uint;
    by rewrite DecimalN.Unsigned.of_to.
Qed.

Lemma int_from_zeros k s : int_from 0 (zeros k +:+ s) = int_from 0 s.
Proof. induction k as [|k IH]; [done|]. exact IH. Qed.

Lemma length_app_string (a b : string) :
  String.length (a +:+ b) = String.length a + String.length b.
Proof.
  induction a as [|c a IH]; [done|].
  change (String c a +:+ b) with (String c (a +:+ b)). cbn. by rewrite IH.
Qed.

Lemma length_zeros k : String.length (zeros k) = k.
Proof.
  induction k as [|k IH]; [done|].
  cbn [zeros]. by rewrite length_app_string, IH.
Qed.

(** Reading back what [format_06d] wrote gives the number. *)
Lemma int_format_06d n : int (format_06d n) = Some n.
Proof.
  unfold int, format_06d. rewrite decide_False.
  - by rewrite int_from_zeros, int_from_decimal.
  - intros Hempty. apply (f_equal String.length) in Hempty.
    rewrite length_app_string in Hempty. cbn in Hempty.
    pose proof (to_uint_nonnil n) as Hnil. unfold NilZero.string_of_uint in *.
    destruct (N.to_uint n); cbn in Hempty; try done; lia.
Qed.

Lemma uint_val_lower acc d :
  (acc * 10 ^ N.of_nat (String.length (NilEmpty.string_of_uint d))
   ≤ uint_val acc d)%N.
Proof.
  revert acc. induction d; intros acc; cbn [uint_val NilEmpty.string_of_uint];
    [cbn; lia|..];
    (etrans; [|apply IHd]);
    cbn [String.length]; rewrite Nat2N.inj_succ, N.pow_succ_r'; nia.
Qed.

(** A number below one million is written with at most six digits. *)
Lemma length_decimal n :
  (n < 1000000)%N →
  (String.length (NilZero.string_of_uint (N.to_uint n)) ≤ 6)%nat.
Proof.
  intros Hn.
  destruct (decide (n = 0%N)) as [->|Hz]; [cbn; lia|].
  assert (Decimal.unorm (N.to_uint n) = N.to_uint n) as Hnorm.
  { rewrite <- (DecimalN.Unsigned.of_to n) at 2.
    by rewrite DecimalN.Unsigned.to_of. }
  pose proof (int_from_decimal n) as Hval.
  pose proof (DecimalN.Unsigned.of_to n) as Hof.
  unfold NilZero.string_of_uint in *.
  destruct (N.to_uint n) as [|d|d|d|d|d|d|d|d|d|d] eqn:Hd; [cbn; lia| |..].
  { exfalso. unfold Decimal.unorm in Hnorm. cbn [Decimal.nzhead] in Hnorm.
    pose proof (DecimalFacts.nzhead_nonzero d d) as Hhead.
    destruct (Decimal.nzhead d); try done.
    injection Hnorm as <-. apply Hz. by rewrite <- Hof. }
  all: rewrite int_from_string_of_uint in Hval; cbn [uint_val] in Hval.
  all: match type of Hval with
       | Some (uint_val ?acc ?u) = _ =>
           pose proof (uint_val_lower acc u) as Hlow;
           cbn [NilEmpty.string_of_uint String.length];
           destruct (decide (String.length (NilEmpty.string_of_uint u) ≤ 5)%nat);
             [lia|exfalso];
           assert (10 ^ 6
                   ≤ 10 ^ N.of_nat (String.length (NilEmpty.string_of_uint u)))%N
             by (apply N.pow_le_mono_r; lia)
       end.
  all: simplify_eq; lia.
Qed.

Lemma length_format_06d n :
  (n < 1000000)%N → String.length (format_06d n) = 6.
Proof.
  intros Hn. apply length_decimal in Hn. unfold format_06d.
  rewrite length_app_string, length_zeros. lia.
Qed.

Lemma string_app_cons x (a b : string) :
  String x a +:+ b = String x (a +:+ b).
Proof. reflexivity. Qed.

Lemma string_app_assoc (a b c : string) : (a +:+ b) +:+ c = a +:+ b +:+ c.
Proof.
  induction a as [|x a IH]; [done|]. by rewrite !string_app_cons, IH.
Qed.

Lemma string_app_inj_length (a a' b b' : string) :
  a +:+ b = a' +:+ b' → String.length a = String.length a' →
  a = a' ∧ b = b'.
Proof.
  revert a'. induction a as [|x a IH]; intros [|x' a']; try done.
  rewrite !string_app_cons.
  intros [= -> Heq] [= Hlen]. by destruct (IH a' Heq Hlen) as [-> ->].
Qed.

Lemma digit_of_inj c1 c2 d :
  digit_of c1 = Some d → digit_of c2 = Some d → c1 = c2.
Proof.
  unfold digit_of. repeat case_decide; try done.
  intros [= <-] [= Heq].
  rewrite <- (Ascii.ascii_N_embedding c1), <- (Ascii.ascii_N_embedding c2).
  f_equal. lia.
Qed.

Lemma int_from_inj a b x y v :
  String.length a = String.length b →
  int_from x a = Some v → int_from y b = Some v → x = y ∧ a = b.
Proof.
  revert b x y. induction a as [|c a IH]; intros [|c' b] x y Hlen; try done; cbn.
  - by intros [= <-] [= <-].
  - destruct (digit_of c) as [d|] eqn:Hd; [|done].
    destruct (digit_of c') as [d'|] eqn:Hd'; [|done]. cbn.
    intros Ha Hb.
    destruct (IH b _ _ ltac:(by simplify_eq/=) Ha Hb) as [Hacc ->].
    pose proof (digit_of_bound _ _ Hd). pose proof (digit_of_bound _ _ Hd').
    assert (x = y ∧ d = d') as [-> ->] by lia.
    split; [done|]. f_equal. by eapply digit_of_inj.
Qed.

Lemma int_from_upper s acc v :
  int_from acc s = Some v →
  (v < (acc + 1) * 10 ^ N.of_nat (String.length s))%N.
Proof.
  revert acc. induction s as [|c s IH]; intros acc; cbn [int_from String.length].
  - intros [= <-]. cbn. lia.
  - destruct (digit_of c) as [d|] eqn:Hd; [|done]. cbn.
    intros Hv%IH. apply digit_of_bound in Hd.
    rewrite Nat2N.inj_succ, N.pow_succ_r'. nia.
Qed.

Lemma foldr_max_lt (l : list N) b :
  (0 < b)%N → (∀ v, v ∈ l → (v < b)%N) → (foldr N.max 0 l < b)%N.
Proof.
  intros Hb. induction l as [|v l IH]; intros Hall; cbn; [done|].
  apply N.max_lub_lt; [apply Hall; by left|].
  apply IH. intros w Hw. apply Hall. by right.
Qed.

Lemma foldr_max_ge (l : list N) v : v ∈ l → (v ≤ foldr N.max 0 l)%N.
Proof.
  induction l as [|w l IH]; [by intros ?%elem_of_nil|].
  cbn. intros [->|Hv]%elem_of_cons; [lia|]. specialize (IH Hv). lia.
Qed.

Lemma known_chapter_lengths s c :
  known_chapter s c → String.length s = 2 ∧ String.length c = 2.
Proof.
  intros (info & Hs & [nm Hc]). unfold SUBJECTS in Hs. cbn in Hs.
  repeat (case_decide; simplify_eq/=; try done).
Qed.

Lemma parsed_seq_well_formed s c digits :
  String.length digits = 6 → is_Some (int digits) →
  parsed_seq s c ((s +:+ c) +:+ digits) = int digits.
Proof.
  intros Hlen Hint. unfold parsed_seq.
  by rewrite re_match_well_formed.
Qed.

Lemma generate_question_id_unused rows s c :
  known_chapter s c →
  Forall well_formed_row rows →
  (s +:+ c) +:+ "999999" ∉ id <$> rows →
  (generate_question_id rows s c ∉ id <$> rows)
  ∧ well_formed_id s c (generate_question_id rows s c).
Proof.
  intros Hsc Hrows Hlast.
  rewrite generate_question_id_contract; last first.
  { eapply Forall_impl; [exact Hrows|].
    intros q [_ Hq] [<- <-]. done. }
  set (ids := id <$> filter (λ q, subject_code q = s ∧ chapter_num q = c) rows).
  assert (∀ x, x ∈ ids → x ∈ id <$> rows ∧ well_formed_id s c x) as Hids.
  { intros x (q & -> & Hq)%list_elem_of_fmap.
    apply list_elem_of_filter in Hq as [[<- <-] Hq].
    split; [by apply list_elem_of_fmap_2|].
    rewrite Forall_forall in Hrows. by apply Hrows. }
  set (M := foldr N.max 0%N (omap (parsed_seq s c) ids)).
  assert (M < 999999)%N as HM.
  { apply foldr_max_lt; [done|].
    intros v (x & Hx & Hv)%list_elem_of_omap.
    destruct (Hids x Hx) as [Hin (dx & -> & Hlen & Hint)].
    rewrite parsed_seq_well_formed in Hv by done.
    unfold int in Hv. case_decide; [done|].
    pose proof (int_from_upper _ _ _ Hv) as Hup. rewrite Hlen in Hup.
    destruct (decide (v = 999999%N)) as [->|]; [|cbn in Hup; lia].
    destruct (int_from_inj dx "999999" 0 0 999999) as [_ ->];
      [by rewrite Hlen|done|done|]. done. }
  unfold next_id_by_contract. fold M. rewrite <- string_app_assoc.
  assert (String.length (format_06d (M + 1)) = 6) as Hlen
    by (apply length_format_06d; lia).
  split.
  - intros (q & Hid & Hq)%list_elem_of_fmap.
    rewrite Forall_forall in Hrows.
    destruct (Hrows q Hq) as [Hconf (dq & Hdq & Hlq & Hiq)].
    destruct (known_chapter_lengths _ _ Hsc) as [Hs Hc].
    destruct (known_chapter_lengths _ _ Hconf) as [Hs' Hc'].
    rewrite Hdq in Hid.
    apply string_app_inj_length in Hid as [Hpre Hdig];
      [|by rewrite !length_app_string, Hs, Hc, Hs', Hc'].
    apply string_app_inj_length in Hpre as [Hsq Hcq]; [|congruence].
    assert (id q ∈ ids) as Hin.
    { apply list_elem_of_fmap. exists q. split; [done|].
      by apply list_elem_of_filter. }
    assert (parsed_seq s c (id q) = Some (M + 1)%N) as Hparsed.
    { rewrite Hdq, <- Hsq, <- Hcq, <- Hdig.
      rewrite parsed_seq_well_formed; [apply int_format_06d|done|].
      rewrite int_format_06d. by eexists. }
    assert ((M + 1 ≤ M)%N); [|lia].
    apply foldr_max_ge, list_elem_of_omap. by exists (id q).
  - exists (format_06d (M + 1)). split_and!; [done..|].
    rewrite int_format_06d. by eexists.
Qed.

(** X7.  On a table of well-formed records whose chapter has not used up
    its last number, the assigner returns an id that is in no row of the
    table and is itself well-formed. *)
Theorem generate_question_id_fresh rows s c :
  known_chapter s c →
  Forall well_formed_row rows →
  (s +:+ c) +:+ "999999" ∉ id <$> rows →
  (generate_question_id rows s c ∉ id <$> rows)
  ∧ well_formed_id s c (generate_question_id rows s c).
Proof. apply generate_question_id_unused. Qed.

(** ** Store operations: ids, inserts and lookups *)

Lemma sql_update_ids where_id set rows rows' :
  (∀ r r', set r = Ok r' → id r' = id r) →
  sql_update where_id set rows = Ok rows' → id <$> rows' = id <$> rows.
Proof.
  intros Hset Hupd. apply sql_update_Forall2 in Hupd.
  induction Hupd as [|r r' rows rows' Hr _ IH]; [done|].
  csimpl. f_equal; [|done].
  case_decide; [by apply Hset|by subst].
Qed.

Lemma update_question_ids d question_data app :
  id <$> db (update_question d question_data app).2 = id <$> db app.
Proof.
  unfold update_question.
  destruct (_ ≫= _) as [[qid set]|e] eqn:Hparams; [|done].
  destruct (sql_update qid set (db app)) as [rows'|] eqn:Hupd; [|done].
  cbn [snd db set_db]. eapply sql_update_ids; [|done].
  unfold item in Hparams.
  repeat match type of Hparams with
         | context [question_data !! ?k] =>
             destruct (question_data !! k); cbn [mbind result_bind] in Hparams;
             [|done]
         end.
  injection Hparams as <- <-.
  intros r r' Hr. by apply updated_row_Ok in Hr as [? _].
Qed.

(** X1.  Whatever dict it is given and whether it succeeds or raises,
    [update_question] leaves the column of ids as it is: no row is added,
    removed, reordered or renamed, so ids that were pairwise distinct
    stay so. *)
Theorem update_question_keeps_ids d question_data app :
  id <$> db (update_question d question_data app).2 = id <$> db app
  ∧ length (db (update_question d question_data app).2) = length (db app)
  ∧ (NoDup (id <$> db app) →
     NoDup (id <$> db (update_question d question_data app).2)).
Proof.
  pose proof (update_question_ids d question_data app) as Hids.
  split_and!; [done| |by rewrite Hids].
  apply (f_equal length) in Hids. by rewrite !length_fmap in Hids.
Qed.

Lemma filter_id_unique (rows : list Question) q :
  id q ∉ id <$> rows → filter (λ r, id r = id q) (rows ++ [q]) = [q].
Proof.
  intros Hnew. rewrite filter_app, filter_cons, decide_True, filter_nil by done.
  rewrite (filter_none (λ r, id r = id q)); [done|].
  apply Forall_forall. intros r Hr Heq. apply Hnew.
  rewrite <- Heq. by apply list_elem_of_fmap_2.
Qed.

(** What [update_view_tab] does with a row: it returns for a configured
    subject and chapter, and raises the [KeyError] of the first of the
    two that is not configured. *)
Lemma update_view_tab_outcome q :
  match update_view_tab q with
  | Ok _ => configured q
  | Raise e =>
      ¬ configured q
      ∧ (assoc (subject_code q) SUBJECTS = None
         ∧ e = KeyError (subject_code q)
         ∨ is_Some (assoc (subject_code q) SUBJECTS)
           ∧ e = KeyError (chapter_num q))
  end.
Proof.
  unfold update_view_tab, configured, known_chapter, getitem.
  destruct (assoc (subject_code q) SUBJECTS) as [info|];
    cbn [mbind result_bind].
  - destruct (assoc (chapter_num q) (chapters info)) as [chapter_name|] eqn:Hc;
      cbn [mbind result_bind].
    + by eauto.
    + split; [|right; by eauto].
      intros (info' & [= <-] & Hsome). rewrite Hc in Hsome. by destruct Hsome.
  - split; [|by left]. by intros (info & [=] & _).
Qed.

Lemma update_view_tab_configured q : configured q → update_view_tab q = Ok ().
Proof.
  intros Hq. pose proof (update_view_tab_outcome q) as Hview.
  destruct (update_view_tab q) as [[]|e]; [done|]. by destruct Hview.
Qed.

Lemma load_question_db question_id app :
  db (load_question question_id app).2 = db app.
Proof.
  unfold load_question.
  destruct (filter _ (db app)) as [|row rows]; [done|].
  by destruct (update_view_tab row).
Qed.

(** X2.  A record whose id is in the table is refused and nothing
    changes.  A record whose id is not yet in the table goes in as the
    last row and the ids stay pairwise distinct; loading that id
    afterwards leaves the table alone, selects the id and gives the
    record back as the current data.  When the subject and the chapter
    of the record are configured, the load returns and the image path of
    the record is the current one; otherwise the load stops at the
    [KeyError] of the first of the two that is not configured, and the
    current image path is still the one from before. *)
Theorem insert_question_then_load q app :
  NoDup (id <$> db app) →
  if decide (id q ∈ id <$> db app) then
    (∃ what, insert_question q app = (Raise (IntegrityError what), app))
  else
    let app1 := (insert_question q app).2 in
    let app2 := (load_question (id q) app1).2 in
    (insert_question q app).1 = Ok ()
    ∧ db app1 = db app ++ [q]
    ∧ NoDup (id <$> db app1)
    ∧ db app2 = db app1
    ∧ current_question_id app2 = Some (id q)
    ∧ current_question_data app2 = Some q
    ∧ match (load_question (id q) app1).1 with
      | Ok _ =>
          configured q ∧ current_image_path app2 = image_path q
      | Raise e =>
          ¬ configured q
          ∧ (assoc (subject_code q) SUBJECTS = None
             ∧ e = KeyError (subject_code q)
             ∨ is_Some (assoc (subject_code q) SUBJECTS)
               ∧ e = KeyError (chapter_num q))
          ∧ current_image_path app2 = current_image_path app
      end.
Proof.
  intros Hnd. unfold insert_question.
  case_decide as Hin; [by eexists|].
  cbv zeta. cbn [fst snd db set_db].
  unfold load_question. cbn [db set_db current_question_data
                             current_image_path dialogs].
  rewrite filter_id_unique by done.
  assert (NoDup (id <$> db app ++ [q])) as Hnd'.
  { rewrite fmap_app. apply NoDup_app. split_and!; [done| |apply NoDup_singleton].
    intros x Hx Hx'. apply list_elem_of_singleton in Hx'. by subst. }
  pose proof (update_view_tab_outcome q) as Hview.
  destruct (update_view_tab q) as [[]|e];
    cbn [fst snd db current_question_id current_question_data
         current_image_path];
    split_and!; try done; by destruct Hview.
Qed.

(** ** Import and export *)

Local Ltac run_app :=
  unfold import_step, insert_question_data, insert_question, gets, lift,
    modify, try_except, messagebox, mbind, mret, SE_bind, SE_ret;
  cbn beta iota.

Lemma result_bind_Ok {A B} (m : result A) (k : A → result B) (b : B) :
  m ≫= k = Ok b → ∃ a, m = Ok a ∧ k a = Ok b.
Proof. destruct m as [a|e]; [by exists a|done]. Qed.

Local Ltac invert_binds H :=
  repeat (apply result_bind_Ok in H as (? & ? & H)).

Lemma row_of_dict_id q_id qd row : row_of_dict q_id qd = Ok row → id row = q_id.
Proof.
  unfold row_of_dict. intros H. invert_binds H. by injection H as <-.
Qed.

(** One record of the file: the rows that were there keep their places
    and ids, at most one row is appended, with the id of the record. *)
Lemma import_step_ids d q_data counts app :
  id <$> db (import_step d q_data counts app).2 = id <$> db app
  ∨ ∃ q_id, truthy (default None (q_data !! "id")) = Some q_id
            ∧ (q_id ∉ id <$> db app)
            ∧ id <$> db (import_step d q_data counts app).2
              = (id <$> db app) ++ [q_id].
Proof.
  run_app.
  destruct (truthy _) as [q_id|] eqn:Hid; [|by left].
  destruct (filter _ (db app)) as [|r0 rest] eqn:Hex.
  - destruct (row_of_dict q_id q_data) as [row|e] eqn:Hrow; [|by left].
    apply row_of_dict_id in Hrow.
    assert (q_id ∉ id <$> db app) as Hnew.
    { intros (r & -> & Hr)%list_elem_of_fmap.
      assert (r ∈ filter (λ r0, id r0 = id r) (db app)) as Hin
        by by apply list_elem_of_filter.
      rewrite Hex in Hin. by apply elem_of_nil in Hin. }
    rewrite decide_False by by rewrite Hrow.
    right. exists q_id. split_and!; [done..|].
    cbn [snd db set_db]. by rewrite fmap_app, <- Hrow.
  - left. pose proof (update_question_ids d q_data app) as Hids.
    by destruct (update_question d q_data app) as [[[]|e] app'].
Qed.

Lemma import_loop_ids d questions_data counts app :
  ∃ added,
    id <$> db (import_loop d questions_data counts app).2
    = (id <$> db app) ++ added
    ∧ added ⊆ file_ids questions_data
    ∧ (NoDup (id <$> db app) → NoDup ((id <$> db app) ++ added)).
Proof.
  revert counts app. induction questions_data as [|q_data rest IH];
    intros counts app.
  { exists []. by rewrite app_nil_r. }
  cbn [import_loop]. unfold mbind, SE_bind.
  destruct (import_step_ids d q_data counts app) as [Hsame|(q_id & Hq & Hnew & Hadd)].
  - destruct (import_step d q_data counts app) as [[counts'|e] app1].
    + destruct (IH counts' app1) as (added & Hids & Hsub & Hnd).
      cbn [snd] in Hsame. rewrite Hsame in Hids, Hnd.
      exists added. split_and!; [done| |done].
      unfold file_ids. csimpl. fold (file_ids rest).
      destruct (truthy _); set_solver.
    + exists []. cbn [snd] in *. rewrite app_nil_r.
      split_and!; [done|set_solver|done].
  - destruct (import_step d q_data counts app) as [[counts'|e] app1].
    + destruct (IH counts' app1) as (added & Hids & Hsub & Hnd).
      cbn [snd] in Hadd. rewrite Hadd in Hids, Hnd.
      exists (q_id :: added). rewrite <- app_assoc in Hids.
      split_and!; [done| |].
      * unfold file_ids. csimpl. fold (file_ids rest). rewrite Hq.
        by apply list_subseteq_skip.
      * intros Hnd0. rewrite <- app_assoc in Hnd. apply Hnd.
        apply NoDup_app. split_and!; [done| |apply NoDup_singleton].
        intros x Hx Hx'. apply list_elem_of_singleton in Hx'. by subst.
    + exists [q_id]. cbn [snd] in *. split_and!; [done| |].
      * unfold file_ids. csimpl. rewrite Hq.
        intros x ->%list_elem_of_singleton. by left.
      * intros Hnd0.
        apply NoDup_app. split_and!; [done| |apply NoDup_singleton].
        intros x Hx Hx'. apply list_elem_of_singleton in Hx'. by subst.
Qed.

Lemma import_questions_ids d file app :
  (import_questions d file app).1 = Ok ()
  ∧ ∃ added,
      id <$> db (import_questions d file app).2 = (id <$> db app) ++ added
      ∧ added ⊆ file_ids (match file with
                          | Some (Ok questions_data) => questions_data
                          | _ => []
                          end)
      ∧ (NoDup (id <$> db app) → NoDup ((id <$> db app) ++ added)).
Proof.
  unfold import_questions.
  destruct file as [[questions_data|e]|]; cycle 1.
  - split; [done|]. exists []. by rewrite app_nil_r.
  - split; [done|]. exists []. by rewrite app_nil_r.
  - unfold try_except, lift, messagebox, modify, mbind, SE_bind.
    destruct (import_loop_ids d questions_data (0, 0) app)
      as (added & Hids & Hsub & Hnd).
    destruct (import_loop d questions_data (0, 0) app) as [[counts|e] app1];
      (split; [done|]); by exists added.
Qed.

(** X3.  Importing never lets an exception out and never removes,
    reorders or renames a row: the ids that were in the table stay where
    they are, and what is appended are ids of records of the file. *)
Theorem import_questions_keeps_rows d file app :
  (import_questions d file app).1 = Ok ()
  ∧ (id <$> db app) `prefix_of` (id <$> db (import_questions d file app).2)
  ∧ ∀ x, x ∈ id <$> db (import_questions d file app).2 →
         x ∈ id <$> db app
         ∨ ∃ questions_data, file = Some (Ok questions_data)
                             ∧ x ∈ file_ids questions_data.
Proof.
  destruct (import_questions_ids d file app) as (Hok & added & Hids & Hsub & _).
  split_and!; [done|by exists added; rewrite Hids|].
  intros x. rewrite Hids. intros [Hx|Hx]%elem_of_app; [by left|right].
  apply Hsub in Hx.
  destruct file as [[questions_data|e]|]; [by eauto|by apply elem_of_nil in Hx..].
Qed.

(** X4.  Importing keeps one row per id: when the ids of the table are
    pairwise distinct before an import, they are so afterwards, whatever
    the file holds and wherever the import stops. *)
Theorem import_questions_one_row_per_id d file app :
  NoDup (id <$> db app) →
  NoDup (id <$> db (import_questions d file app).2).
Proof.
  intros Hnd.
  destruct (import_questions_ids d file app) as (_ & added & -> & _ & Hnd').
  by apply Hnd'.
Qed.

Lemma row_of_dict_of_row r : row_of_dict (id r) (dict_of_row r) = Ok r.
Proof. by destruct r. Qed.

Lemma sql_update_other qid set rows :
  qid ∉ id <$> rows → sql_update (Some qid) set rows = Ok rows.
Proof.
  induction rows as [|r rows IH]; [done|]. csimpl.
  intros [Hr Hrows]%not_elem_of_cons.
  rewrite decide_False by congruence. cbn [mbind result_bind].
  by rewrite IH.
Qed.

Lemma sql_update_app w set l1 l2 :
  sql_update w set (l1 ++ l2)
  = l1' ← sql_update w set l1; l2' ← sql_update w set l2; Ok (l1' ++ l2').
Proof.
  induction l1 as [|r l1 IH]; csimpl.
  { by destruct (sql_update w set l2). }
  destruct (if decide _ then _ else _) as [r'|]; cbn [mbind result_bind]; [|done].
  rewrite IH. destruct (sql_update w set l1); cbn [mbind result_bind]; [|done].
  by destruct (sql_update w set l2).
Qed.

Lemma update_question_dict_of_row d r app :
  update_question d (dict_of_row r) app
  = match sql_update (Some (id r))
            (λ r', Ok {| id := id r';
     subject_code := subject_code r;
     chapter_num := chapter_num r;
     question_type := question_type r;
     status := status r;
     question_text := question_text r;
     option_a := option_a r;
     option_b := option_b r;
     option_c := option_c r;
     option_d := option_d r;
     correct_answer := correct_answer r;
     explanation := explanation r;
     knowledge := knowledge r;
     notes := notes r;
     created_date := created_date r';
     last_modified := today d;
     image_path := image_path r |}) (db app) with
    | Ok rows => (Ok (), set_db rows app)
    | Raise e => (Raise e, app)
    end.
Proof. by destruct r. Qed.

Lemma update_question_own d r app l0 l1 :
  db app = l0 ++ r :: l1 →
  id r ∉ id <$> l0 → id r ∉ id <$> l1 →
  update_question d (dict_of_row r) app
  = (Ok (), set_db (l0 ++ with_last_modified (today d) r :: l1) app).
Proof.
  intros Hdb H0 H1. rewrite update_question_dict_of_row, Hdb.
  rewrite sql_update_app, (sql_update_other _ _ l0) by done. csimpl.
  rewrite decide_True by done. cbn [mbind result_bind].
  rewrite (sql_update_other _ _ l1) by done. by destruct r.
Qed.


Lemma truthy_id r :
  id r ≠ "" → truthy (default None (dict_of_row r !! "id")) = Some (id r).
Proof.
  intros Hne. destruct r as [i]. cbn [id] in *.
  change (truthy (Some i) = Some i). unfold truthy. by rewrite decide_False.
Qed.

Lemma import_step_own d r counts app l0 l1 :
  id r ≠ "" →
  db app = l0 ++ r :: l1 →
  id r ∉ id <$> l0 → id r ∉ id <$> l1 →
  import_step d (dict_of_row r) counts app
  = (Ok (counts.1, counts.2 + 1),
     set_db (l0 ++ with_last_modified (today d) r :: l1) app).
Proof.
  intros Hne Hdb H0 H1. unfold import_step. rewrite truthy_id by done.
  unfold gets, mbind, mret, SE_bind, SE_ret. cbn beta iota.
  rewrite Hdb, filter_app, filter_cons_True by done.
  destruct (filter _ l0); cbn [Datatypes.app]; by erewrite update_question_own.
Qed.


Lemma filter_id_absent qid (rows : list Question) :
  qid ∉ id <$> rows → filter (λ r, id r = qid) rows = [].
Proof.
  induction rows as [|r rows IH]; [done|]. csimpl.
  intros [Hr Hrows]%not_elem_of_cons.
  rewrite filter_cons_False by congruence. auto.
Qed.

Lemma import_step_new d r counts app :
  id r ≠ "" →
  id r ∉ id <$> db app →
  import_step d (dict_of_row r) counts app
  = (Ok (counts.1 + 1, counts.2), set_db (db app ++ [r]) app).
Proof.
  intros Hne Hnew. unfold import_step. rewrite truthy_id by done.
  unfold gets, mbind, mret, SE_bind, SE_ret. cbn beta iota.
  rewrite filter_id_absent by done.
  unfold insert_question_data, lift, mbind, SE_bind. 
  rewrite row_of_dict_of_row. cbn [mbind result_bind].
  unfold insert_question. by rewrite decide_False.
Qed.

Lemma import_loop_own d rows : ∀ counts app l0,
  Forall (λ r, id r ≠ "") rows →
  NoDup (id <$> l0 ++ rows) →
  db app = l0 ++ rows →
  db (import_loop d (export_data rows) counts app).2
  = l0 ++ (with_last_modified (today d) <$> rows)
  ∧ (import_loop d (export_data rows) counts app).1
    = Ok (counts.1, counts.2 + length rows).
Proof.
  induction rows as [|r rows IH]; intros counts app l0 Hne Hnd Hdb.
  { cbn. rewrite Hdb. split; [done|]. destruct counts; cbn. do 2 f_equal. lia. }
  apply Forall_cons in Hne as [Hr Hne].
  cbn [export_data fmap list_fmap import_loop]. unfold mbind, SE_bind.
  rewrite fmap_app, fmap_cons in Hnd.
  apply NoDup_app in Hnd as (Hnd0 & Hdisj & [Hr1 Hnd1]%NoDup_cons).
  erewrite (import_step_own _ _ _ _ l0 rows); [|done|done| |done].
  2:{ intros Hin. apply (Hdisj _ Hin). by left. }
  fold (export_data rows).
  destruct (IH (counts.1, counts.2 + 1) 
              (set_db (l0 ++ with_last_modified (today d) r :: rows) app)
              (l0 ++ [with_last_modified (today d) r])) as [Hdb' Hc].
  - done.
  - rewrite !fmap_app, <- app_assoc. apply NoDup_app. split_and!; [done| |].
    + intros x Hx [->%list_elem_of_singleton|Hx']%elem_of_app.
      * apply (Hdisj _ Hx). by left.
      * apply (Hdisj _ Hx). by right.
    + csimpl. by apply NoDup_cons.
  - cbn [db set_db]. by rewrite <- app_assoc.
  - rewrite Hdb', Hc. rewrite <- app_assoc. cbn [fst snd length]. split; [done|].
    do 2 f_equal. lia.
Qed.

Lemma import_loop_new d rows : ∀ counts app,
  Forall (λ r, id r ≠ "") rows →
  NoDup (id <$> rows) →
  (∀ x, x ∈ id <$> rows → x ∉ id <$> db app) →
  db (import_loop d (export_data rows) counts app).2 = db app ++ rows
  ∧ (import_loop d (export_data rows) counts app).1
    = Ok (counts.1 + length rows, counts.2).
Proof.
  induction rows as [|r rows IH]; intros counts app Hne Hnd Hnew.
  { cbn. rewrite app_nil_r. split; [done|]. destruct counts; cbn.
    do 2 f_equal. lia. }
  apply Forall_cons in Hne as [Hr Hne].
  rewrite fmap_cons in Hnd. apply NoDup_cons in Hnd as [Hr1 Hnd].
  cbn [export_data fmap list_fmap import_loop]. unfold mbind, SE_bind.
  rewrite import_step_new; [|done|apply Hnew; by left].
  fold (export_data rows).
  destruct (IH (counts.1 + 1, counts.2) (set_db (db app ++ [r]) app))
    as [Hdb' Hc]; [done|done| |].
  - intros x Hx. cbn [db set_db]. rewrite fmap_app.
    intros [Hx'|Hx']%elem_of_app.
    + revert Hx'. apply Hnew. by right.
    + apply list_elem_of_singleton in Hx'. by subst.
  - rewrite Hdb', Hc. cbn [db set_db fst snd length]. rewrite <- app_assoc.
    split; [done|]. do 2 f_equal. lia.
Qed.

Lemma update_question_session d question_data app :
  session (update_question d question_data app).2 = session app.
Proof.
  unfold update_question.
  destruct (_ ≫= _) as [[qid set]|e]; [|done].
  by destruct (sql_update qid set (db app)).
Qed.

Lemma import_step_session d q_data counts app :
  session (import_step d q_data counts app).2 = session app.
Proof.
  run_app.
  destruct (truthy _) as [q_id|]; [|done].
  destruct (filter _ (db app)).
  - destruct (row_of_dict q_id q_data) as [row|e]; [|done].
    by case_decide.
  - pose proof (update_question_session d q_data app) as Hs.
    by destruct (update_question d q_data app) as [[[]|e] app'].
Qed.

Lemma import_loop_session d questions_data : ∀ counts app,
  session (import_loop d questions_data counts app).2 = session app.
Proof.
  induction questions_data as [|q_data rest IH]; intros counts app; [done|].
  cbn [import_loop]. unfold mbind, SE_bind.
  pose proof (import_step_session d q_data counts app) as Hs.
  destruct (import_step d q_data counts app) as [[counts'|e] app1]; [|done].
  by rewrite IH.
Qed.

Lemma import_questions_loop d questions_data app counts app' :
  import_loop d questions_data (0, 0) app = (Ok counts, app') →
  import_questions d (Some (Ok questions_data)) app
  = messagebox ("导入完成：新增 " +:+ str_of_nat counts.1 +:+ " 道，覆盖 "
                +:+ str_of_nat counts.2 +:+ " 道题目。") app'.
Proof.
  intros Hloop. unfold import_questions, try_except, lift, mbind, SE_bind.
  by rewrite Hloop.
Qed.

(** X5.  Export, then import the exported file into the table it came
    from: when the ids are pairwise distinct and none is empty, every row
    is overwritten by itself, so the table is what it was except that
    each row carries today as its modification date, and the dialog
    reports no new record and as many overwritten ones as there are
    rows. *)
Theorem import_of_own_export d app :
  NoDup (id <$> db app) →
  Forall (λ r, id r ≠ "") (db app) →
  let app' := (import_questions d (Some (Ok (export_data (db app)))) app).2 in
  db app' = with_last_modified (today d) <$> db app
  ∧ dialogs app'
    = dialogs app ++ ["导入完成：新增 0 道，覆盖 "
                      +:+ str_of_nat (length (db app)) +:+ " 道题目。"].
Proof.
  intros Hnd Hne app'. subst app'.
  destruct (import_loop_own d (db app) (0, 0) app [] Hne Hnd eq_refl)
    as [Hdb Hcounts].
  destruct (import_loop d (export_data (db app)) (0, 0) app)
    as [counts app1] eqn:Hloop.
  cbn [fst snd] in Hdb, Hcounts. subst counts.
  pose proof (import_loop_session d (export_data (db app)) (0, 0) app) as Hs.
  rewrite Hloop in Hs. injection Hs as _ _ _ Hdialogs.
  erewrite import_questions_loop by done.
  unfold messagebox, modify. cbn [fst snd db dialogs].
  by rewrite Hdb, Hdialogs.
Qed.

(** X6.  Import a file exported from rows whose ids are non-empty,
    pairwise distinct and absent from the table: exactly these rows are
    appended, in the order of the file and with every column as exported,
    the dates included; the rows that were there are untouched. *)
Theorem import_of_foreign_export d rows app :
  Forall (λ r, id r ≠ "") rows →
  NoDup (id <$> rows) →
  (∀ x, x ∈ id <$> rows → x ∉ id <$> db app) →
  let app' := (import_questions d (Some (Ok (export_data rows))) app).2 in
  db app' = db app ++ rows
  ∧ dialogs app'
    = dialogs app ++ ["导入完成：新增 " +:+ str_of_nat (length rows)
                      +:+ " 道，覆盖 0 道题目。"].
Proof.
  intros Hne Hnd Hnew app'. subst app'.
  destruct (import_loop_new d rows (0, 0) app Hne Hnd Hnew) as [Hdb Hcounts].
  destruct (import_loop d (export_data rows) (0, 0) app)
    as [counts app1] eqn:Hloop.
  cbn [fst snd] in Hdb, Hcounts. subst counts.
  pose proof (import_loop_session d (export_data rows) (0, 0) app) as Hs.
  rewrite Hloop in Hs. injection Hs as _ _ _ Hdialogs.
  erewrite import_questions_loop by done.
  unfold messagebox, modify. cbn [fst snd db dialogs].
  by rewrite Hdb, Hdialogs.
Qed.

(** ** Deleting, duplicating, images and the edit form *)

Lemma truthy_Some v s : truthy v = Some s → v = Some s ∧ s ≠ "".
Proof. destruct v as [s'|]; [|done]. cbn. case_decide; naive_solver. Qed.

Lemma truthy_nonempty s : s ≠ "" → truthy (Some s) = Some s.
Proof. intros Hs. unfold truthy. by rewrite decide_False. Qed.

Lemma sql_delete_absent qid rows : qid ∉ id <$> sql_delete qid rows.
Proof.
  unfold sql_delete. intros (r & -> & Hr)%list_elem_of_fmap.
  by apply list_elem_of_filter in Hr as [? _].
Qed.

(** X10.  Deleting is all or nothing and never lets an exception out:
    either the table and the selection are as they were (nothing
    selected, the dialog declined, or the image file could not be
    removed), or every row with the selected id is gone, the other rows
    are untouched and the selection is cleared. *)
Theorem delete_current_question_all_or_nothing d u app :
  let app' := (delete_current_question d u app).2 in
  (delete_current_question d u app).1 = Ok ()
  ∧ ((db app' = db app
      ∧ current_question_id app' = current_question_id app
      ∧ current_question_data app' = current_question_data app
      ∧ current_image_path app' = current_image_path app)
     ∨ (∃ qid, current_question_id app = Some qid ∧ qid ≠ ""
               ∧ askyesno u = true
               ∧ db app' = filter (λ r, id r ≠ qid) (db app)
               ∧ (qid ∉ id <$> db app')
               ∧ current_question_id app' = None
               ∧ current_question_data app' = None
               ∧ current_image_path app' = None)).
Proof.
  unfold delete_current_question.
  destruct (truthy (current_question_id app)) as [qid|] eqn:Hsel;
    [|by split; [|left]].
  apply truthy_Some in Hsel as [Hsel Hne].
  destruct (askyesno u) eqn:Hyes; [|by split; [|left]].
  pose proof (sql_delete_absent qid (db app)) as Hgone.
  run_app. unfold modify.
  destruct (truthy (current_image_path app)) as [p|];
    [destruct (file_exists d p); [destruct (unlink_file u p) as [[]|e]|]|];
    cbn [fst snd db set_db set_selection current_question_id
         current_question_data current_image_path] in *;
    (split; [done|]); first [by left|right; exists qid; by split_and!].
Qed.

(** ** Duplicating on well-formed tables *)

Lemma well_formed_id_nonempty s c ident : well_formed_id s c ident → ident ≠ "".
Proof.
  intros (digits & -> & Hlen & _) Hempty.
  apply (f_equal String.length) in Hempty.
  rewrite length_app_string, Hlen in Hempty. cbn in Hempty. lia.
Qed.

Lemma sql_delete_appended qid rows q :
  id q = qid → qid ∉ id <$> rows → sql_delete qid (rows ++ [q]) = rows.
Proof.
  intros Hq Hnew. unfold sql_delete.
  rewrite filter_app, filter_cons_False, filter_nil, app_nil_r by naive_solver.
  apply filter_all, Forall_forall. intros r Hr Heq. apply Hnew.
  rewrite <- Heq. by apply list_elem_of_fmap_2.
Qed.

Lemma duplicate_question_appends d app qid data new_image :
  truthy (current_question_id app) = Some qid →
  current_question_data app = Some data →
  configured data →
  Forall well_formed_row (db app) →
  (subject_code data +:+ chapter_num data) +:+ "999999" ∉ id <$> db app →
  copy_image d app
    (generate_question_id (db app) (subject_code data) (chapter_num data)) data
  = Ok new_image →
  let copy :=
    duplicate_of d data
      (generate_question_id (db app) (subject_code data) (chapter_num data))
      new_image in
  duplicate_question d app
  = (Ok (),
     {| db := db app ++ [copy];
        current_question_id := Some (id copy);
        current_question_data := Some copy;
        current_image_path := new_image;
        dialogs := dialogs app ++ ["题目复制成功! 新题目ID: " +:+ id copy] |})
  ∧ (id copy ∉ id <$> db app)
  ∧ well_formed_row copy.
Proof.
  intros Hsel Hdata Hconf Hwf Hlast Hcopy copy.
  destruct (generate_question_id_unused (db app) _ _ Hconf Hwf Hlast)
    as [Hnew Hid].
  split_and!; [|done|by split].
  unfold duplicate_question. rewrite Hsel, Hdata. cbv zeta.
  unfold lift, mbind, SE_bind. rewrite Hcopy. fold copy.
  unfold insert_question. rewrite decide_False by done.
  unfold load_question. cbn [fst snd db set_db].
  pose proof (filter_id_unique (db app) copy Hnew) as Hrow.
  change (id copy) with
    (generate_question_id (db app) (subject_code data) (chapter_num data))
    in Hrow.
  rewrite Hrow. by rewrite (update_view_tab_configured copy) by done.
Qed.

(** X8.  Well-formedness is an invariant of duplicating.  With a record
    of a configured chapter selected and loaded, on a table of
    well-formed records with pairwise distinct ids whose chapter has not
    used up its last number, and the image copied without error, the
    duplication succeeds: one row is appended, the table is again
    well-formed with pairwise distinct ids, and the copy is the selected
    record. *)
Theorem duplicate_question_well_formed d app qid data :
  truthy (current_question_id app) = Some qid →
  current_question_data app = Some data →
  configured data →
  Forall well_formed_row (db app) →
  NoDup (id <$> db app) →
  (subject_code data +:+ chapter_num data) +:+ "999999" ∉ id <$> db app →
  is_Ok (copy_image d app
           (generate_question_id (db app) (subject_code data) (chapter_num data))
           data) →
  let app' := (duplicate_question d app).2 in
  (duplicate_question d app).1 = Ok ()
  ∧ Forall well_formed_row (db app')
  ∧ NoDup (id <$> db app')
  ∧ ∃ copy, db app' = db app ++ [copy]
            ∧ current_question_id app' = Some (id copy)
            ∧ current_question_data app' = Some copy
            ∧ current_image_path app' = image_path copy.
Proof.
  intros Hsel Hdata Hconf Hwf Hnd Hlast Hcopy app'. subst app'.
  destruct (copy_image d app _ data) as [new_image|e] eqn:Himg;
    [|by destruct Hcopy].
  destruct (duplicate_question_appends d app qid data new_image)
    as (-> & Hnew & Hrow); [done..|].
  cbn [fst snd db current_question_id current_question_data
       current_image_path].
  split_and!; [done| | |by eexists].
  - apply Forall_app. split; [done|by apply Forall_singleton].
  - rewrite fmap_app. apply NoDup_app. split_and!; [done| |apply NoDup_singleton].
    intros x Hx Hx'. apply list_elem_of_singleton in Hx'. by subst.
Qed.

(** X9.  Duplicate, then delete the copy: when the duplication of a
    loaded record of a configured chapter goes through on a table of
    well-formed records, confirming the deletion of the record it has
    selected gives back the table as it was before the duplication and
    clears the selection, provided the copied image file, if there is
    one, can be removed. *)
Theorem duplicate_then_delete d u app qid data :
  truthy (current_question_id app) = Some qid →
  current_question_data app = Some data →
  configured data →
  Forall well_formed_row (db app) →
  (subject_code data +:+ chapter_num data) +:+ "999999" ∉ id <$> db app →
  is_Ok (copy_image d app
           (generate_question_id (db app) (subject_code data) (chapter_num data))
           data) →
  askyesno u = true →
  (∀ p, unlink_file u p = Ok ()) →
  let app1 := (duplicate_question d app).2 in
  let app2 := (delete_current_question d u app1).2 in
  db app1 ≠ db app
  ∧ db app2 = db app
  ∧ current_question_id app2 = None
  ∧ current_question_data app2 = None.
Proof.
  intros Hsel Hdata Hconf Hwf Hlast Hcopy Hyes Hunlink app1 app2.
  subst app2 app1.
  destruct (copy_image d app _ data) as [new_image|e] eqn:Himg;
    [|by destruct Hcopy].
  destruct (duplicate_question_appends d app qid data new_image)
    as (-> & Hnew & [_ Hid]); [done..|].
  apply well_formed_id_nonempty in Hid.
  cbn [fst snd db]. split.
  { intros Heq. apply (f_equal length) in Heq.
    rewrite length_app in Heq. cbn in Heq. lia. }
  unfold delete_current_question.
  cbn [current_question_id current_image_path].
  rewrite truthy_nonempty by done. rewrite Hyes.
  run_app. unfold modify.
  destruct (truthy new_image) as [p|];
    [destruct (file_exists d p); [rewrite Hunlink|]|];
    cbn [fst snd db set_db set_selection current_question_id
         current_question_data];
    by rewrite sql_delete_appended.
Qed.

(** ** Duplicating and the published rows *)


Example duplicate_question_legacy :
  ∃ what, duplicate_question sample_desktop legacy_app
          = (Raise (IntegrityError what), legacy_app).
Proof. eexists. by vm_compute. Qed.



(** ** Images *)

Lemma image_only_refl app app' : db app' = db app → image_only app app'.
Proof.
  intros Hdb. unfold image_only. rewrite Hdb.
  apply Forall_Forall2_diag, Forall_forall. by left.
Qed.

Lemma image_only_set v qid app app' :
  current_question_id app = Some qid →
  db app' = sql_set_image v qid (db app) →
  image_only app app'.
Proof.
  intros Hsel Hdb. unfold image_only, sql_set_image. rewrite Hdb.
  apply Forall2_fmap_r, Forall_Forall2_diag, Forall_forall.
  intros r _. unfold compose. case_decide as Hid; [right|by left].
  by rewrite Hsel, Hid.
Qed.

(** X11.  [upload_image] and [delete_image] change at most the image
    column of rows with the selected id: the table keeps its length and
    order, every other row and every other column is as before, whether
    the operation succeeds, is cancelled or fails. *)
Theorem image_operations_frame d u app :
  image_only app (upload_image d u app).2
  ∧ image_only app (delete_image d u app).2.
Proof.
  split.
  - unfold upload_image.
    destruct (truthy (current_question_id app)) as [qid|] eqn:Hsel;
      [|by apply image_only_refl].
    apply truthy_Some in Hsel as [Hsel _].
    destruct (truthy (askopenfilename u)) as [file_path|];
      [|by apply image_only_refl].
    run_app. unfold modify.
    destruct (mkdir u) as [[]|e]; [|by apply image_only_refl].
    destruct (copy2 d file_path _) as [[]|e]; [|by apply image_only_refl].
    by eapply image_only_set.
  - unfold delete_image.
    destruct (truthy (current_question_id app)) as [qid|] eqn:Hsel;
      [|by apply image_only_refl].
    apply truthy_Some in Hsel as [Hsel _].
    destruct (truthy (current_image_path app)) as [p|];
      [|by apply image_only_refl].
    destruct (askyesno u); [|by apply image_only_refl].
    run_app. unfold modify.
    destruct (file_exists d p);
      [destruct (unlink_file u p) as [[]|e]; [|by apply image_only_refl]|];
      by eapply image_only_set.
Qed.

Lemma sql_set_image_undo p qid rows :
  (∀ r, r ∈ rows → id r = qid → image_path r = None) →
  sql_set_image None qid (sql_set_image (Some p) qid rows) = rows.
Proof.
  unfold sql_set_image. intros Hnone. rewrite <- list_fmap_compose.
  rewrite <- (list_fmap_id rows) at 2. apply list_fmap_ext.
  intros i r Hr%list_elem_of_lookup_2. cbn.
  destruct (decide (id r = qid)) as [Hid|Hid]; [|by rewrite decide_False].
  cbn [id with_image_path]. rewrite decide_True by done.
  specialize (Hnone r Hr Hid). destruct r; cbn in *. by subst.
Qed.

(** ** Paths *)

Lemma str_path_nonempty path : str_path path ≠ "".
Proof. unfold str_path. cbv zeta. by case_decide. Qed.

Lemma path_join_nonempty a b : path_join a b ≠ "".
Proof. apply str_path_nonempty. Qed.

Lemma split_sep_part a b :
  split_sep a = [a] →
  split_sep (a +:+ String slash b) = a :: split_sep b.
Proof.
  revert b. induction a as [|c a IH]; intros b Ha; [done|].
  cbn [split_sep] in Ha.
  change (String c a +:+ ?x) with (String c (a +:+ x)). cbn [split_sep].
  destruct (Ascii.eqb c slash); [done|].
  destruct (split_sep a) as [|part parts] eqn:Hparts.
  - injection Ha as Ha. rewrite <- Ha in Hparts. cbn in Hparts.
    rewrite Ha in Hparts. by rewrite IH.
  - injection Ha as -> ->. by rewrite IH.
Qed.

(** A plain name is put behind the directory as it is. *)
Lemma path_join_plain name :
  plain_name name →
  path_join "assets/images" name = "assets/images/" +:+ name.
Proof.
  intros (Hempty & Hdot & Hpart).
  assert (char_is_sep 0 name = false) as Hfirst.
  { destruct name as [|c name]; [done|].
    unfold char_is_sep. cbn [String.get]. cbn [split_sep] in Hpart.
    by destruct (Ascii.eqb c slash). }
  unfold path_join, posixpath_join. rewrite Hfirst.
  change (bool_decide ("assets/images" = "") || ends_with_sep "assets/images")
    with false. cbn match.
  unfold str_path.
  change (root_of ("assets/images" +:+ "/" +:+ name)) with "".
  cbv zeta. cbn [String.length]. rewrite Nat.sub_0_r, substring_all.
  change ("assets/images" +:+ "/" +:+ name)
    with ("assets" +:+ String slash ("images" +:+ String slash name)).
  rewrite !split_sep_part, Hpart by done.
  rewrite !filter_cons_True, filter_nil by done.
  cbn [join_sep]. by case_decide.
Qed.

Example path_join_samples :
  path_join "assets/images" "DS01000001.png" = "assets/images/DS01000001.png"
  ∧ path_join "assets/images" "/tmp/q.png" = "/tmp/q.png"
  ∧ path_join "assets/images" "a//b.png" = "assets/images/a/b.png"
  ∧ path_join "assets/images" "../x.png" = "assets/images/../x.png"
  ∧ path_join "assets/images" "." = "assets/images"
  ∧ path_join "assets/images" "//srv/q.png" = "//srv/q.png"
  ∧ path_join "assets/images" "///q.png" = "/q.png".
Proof. by vm_compute. Qed.

(** X12.  Upload, then delete the image: after a successful upload the
    selection and every row with the selected id name the file
    [Path("assets/images") / (id + suffix)], which is
    [assets/images/<id><suffix>] when the id with the suffix is a plain
    file name; deleting the image, confirmed and with the file
    removable, gives back the table of a record that had no image
    before. *)
Theorem upload_then_delete_image d u app qid file_path :
  truthy (current_question_id app) = Some qid →
  truthy (askopenfilename u) = Some file_path →
  mkdir u = Ok () →
  copy2 d file_path (path_join "assets/images" (qid +:+ suffix d file_path))
  = Ok () →
  askyesno u = true →
  (∀ p, unlink_file u p = Ok ()) →
  (∀ r, r ∈ db app → id r = qid → image_path r = None) →
  let new_image_name := qid +:+ suffix d file_path in
  let new_image_path := path_join "assets/images" new_image_name in
  let app1 := (upload_image d u app).2 in
  let app2 := (delete_image d u app1).2 in
  current_image_path app1 = Some new_image_path
  ∧ (∀ r, r ∈ db app1 → id r = qid → image_path r = Some new_image_path)
  ∧ db app2 = db app
  ∧ current_image_path app2 = None
  ∧ (plain_name new_image_name →
     new_image_path = "assets/images/" +:+ new_image_name).
Proof.
  intros Hsel Hfile Hmkdir Hcopy Hyes Hunlink Hnone new_image_name
    new_image_path app1 app2.
  assert (new_image_path ≠ "") as Hpath by apply path_join_nonempty.
  assert (app1 = {| db := sql_set_image (Some new_image_path) qid (db app);
                    current_question_id := current_question_id app;
                    current_question_data := current_question_data app;
                    current_image_path := Some new_image_path;
                    dialogs := dialogs app ++ ["图片上传成功!"] |}) as Happ1.
  { subst app1 new_image_path new_image_name. unfold upload_image.
    rewrite Hsel, Hfile.
    run_app. unfold modify. by rewrite Hmkdir, Hcopy. }
  subst app2. rewrite Happ1. clear app1 Happ1.
  cbn [db current_image_path]. split_and!; [done| | | |].
  - unfold sql_set_image.
    intros r' (r & -> & Hr)%list_elem_of_fmap Hid.
    case_decide; [done|]. by destruct r.
  - unfold delete_image. cbn [current_question_id current_image_path].
    rewrite Hsel, truthy_nonempty, Hyes by done.
    run_app. unfold modify.
    destruct (file_exists d new_image_path); [rewrite Hunlink|];
      cbn [fst snd db set_db]; by apply sql_set_image_undo.
  - unfold delete_image. cbn [current_question_id current_image_path].
    rewrite Hsel, truthy_nonempty, Hyes by done.
    run_app. unfold modify.
    by destruct (file_exists d new_image_path); [rewrite Hunlink|].
  - apply path_join_plain.
Qed.

(** ** Saving the edit form *)

Lemma get_question_type_code_cases type_name :
  get_question_type_code type_name = "single_choice"
  ∨ get_question_type_code type_name = "application".
Proof.
  unfold get_question_type_code, QUESTION_TYPES. cbn [find_code].
  repeat case_decide; auto.
Qed.

(** X13.  The code read back from the type box is always a configured
    one; it is the record's own code when the box shows the display name
    of a configured code, and [single_choice] for every text that is not
    a display name. *)
Theorem get_question_type_code_round_trip :
  (∀ type_name, get_question_type_code type_name ∈ QUESTION_TYPES.*1)
  ∧ (∀ code, code ∈ QUESTION_TYPES.*1 →
             get_question_type_code (type_display code) = code)
  ∧ (∀ t, t ∉ QUESTION_TYPES.*2 → get_question_type_code t = "single_choice").
Proof.
  split_and!.
  - intros type_name.
    destruct (get_question_type_code_cases type_name) as [->| ->];
      compute_done.
  - intros code Hcode. cbn in Hcode.
    repeat (apply elem_of_cons in Hcode as [->|Hcode]; [done|]).
    by apply elem_of_nil in Hcode.
  - intros t Ht. unfold get_question_type_code, QUESTION_TYPES.
    cbn [find_code]. cbn in Ht.
    repeat (case_decide; [subst; exfalso; apply Ht; compute_done|]). done.
Qed.

Lemma sql_update_total qid (g : Question → Question) rows :
  sql_update (Some qid) (λ r, Ok (g r)) rows
  = Ok ((λ r, if decide (id r = qid) then g r else r) <$> rows).
Proof.
  induction rows as [|r rows IH]; [done|]. cbn [sql_update]. rewrite IH.
  csimpl. by destruct (decide (id r = qid)) as [->|Hne];
    [rewrite decide_True|rewrite decide_False by congruence].
Qed.

Lemma update_question_saved_data d f qid data img app :
  update_question d (saved_data f qid data img) app
  = (Ok (),
     set_db ((λ r, if decide (id r = qid) then saved_row d f data img r else r)
               <$> db app) app).
Proof.
  transitivity
    (match sql_update (Some qid) (λ r, Ok (saved_row d f data img r)) (db app)
     with
     | Ok rows => (Ok (), set_db rows app)
     | Raise e => (Raise e, app)
     end); [reflexivity|].
  by rewrite sql_update_total.
Qed.

(** X14.  Saving the edit form, with a record selected and loaded and a
    non-empty text, never fails.  Rows with another id are untouched; a
    row with the selected id keeps its id and creation date, gets the
    subject and chapter of the loaded record, today as modification date,
    a configured type code, and, unless that code is [single_choice],
    four empty choices. *)
Theorem save_current_question_row d f app qid data :
  truthy (current_question_id app) = Some qid →
  current_question_data app = Some data →
  form_question_text f ≠ "" →
  let app' := (save_current_question d f app).2 in
  (save_current_question d f app).1 = Ok ()
  ∧ Forall2 (λ r r',
       if decide (id r = qid) then
         id r' = id r ∧ created_date r' = created_date r
         ∧ subject_code r' = subject_code data
         ∧ chapter_num r' = chapter_num data
         ∧ last_modified r' = today d
         ∧ question_text r' = form_question_text f
         ∧ question_type r' ∈ QUESTION_TYPES.*1
         ∧ (question_type r' ≠ "single_choice" →
            option_a r' = Some "" ∧ option_b r' = Some ""
            ∧ option_c r' = Some "" ∧ option_d r' = Some "")
         ∧ image_path r' = current_image_path app
       else r' = r) (db app) (db app').
Proof.
  intros Hsel Hdata Htext app'. subst app'.
  unfold save_current_question.
  rewrite Hsel, Hdata, decide_False, update_question_saved_data by done.
  split; [done|]. cbn [snd db set_db].
  apply Forall2_fmap_r, Forall_Forall2_diag, Forall_forall.
  intros r _. unfold compose. destruct (decide (id r = qid)); [|done].
  cbn [saved_row id created_date subject_code chapter_num last_modified
       question_text question_type option_a option_b option_c option_d
       image_path].
  split_and!; try done.
  - destruct (get_question_type_code_cases (form_type f)) as [->| ->];
      compute_done.
  - intros Htype. by rewrite !bool_decide_eq_false_2.
Qed.

(** ** What the story shows: headings, images and page breaks *)

Section extract.
Context {A : Type} (f : Flowable → option A).
Context (fs : Assets).
Context (item_part answer_part : Question → list A).
Hypothesis Hitem : ∀ n q, omap f (item_blocks fs n q) = item_part q.
Hypothesis Hanswer : ∀ i q story,
  omap f (answer_plan fs i q story) = omap f story ++ answer_part q.

Lemma chapter_group_plan_extract g story n :
  omap f (chapter_group_plan fs g (story, n)).1
  = omap f story ++ (g ≫= item_part).
Proof.
  revert story n. induction g as [|q g IH]; intros story n.
  - csimpl. by rewrite app_nil_r.
  - cbn [chapter_group_plan]. rewrite item_plan_eq, IH, omap_app, Hitem.
    csimpl. by rewrite <- app_assoc.
Qed.

Lemma chapters_plan_extract k groups st st' :
  chapters_plan fs k groups st = Ok st' →
  omap f st'.1 = omap f st.1 ++ (groups ≫= chapter_part f item_part k).
Proof.
  revert st. induction groups as [|[c g] rest IH]; intros [story n].
  - intros [= <-]. csimpl. by rewrite app_nil_r.
  - cbn [chapters_plan].
    destruct (getitem k SUBJECTS) as [info|] eqn:Hk; [|done].
    cbn [mbind result_bind].
    destruct (getitem c (chapters info)) as [chapter_name|] eqn:Hc; [|done].
    cbn [mbind result_bind fst snd].
    intros Hrest%IH. rewrite Hrest, chapter_group_plan_extract, omap_app.
    apply getitem_Ok in Hk, Hc.
    csimpl. unfold chapter_part at 2, chapter_title. cbn [fst snd].
    rewrite Hk. csimpl. rewrite Hc. csimpl.
    by rewrite <- !app_assoc.
Qed.

Lemma subjects_plan_extract groups st st' :
  subjects_plan fs groups st = Ok st' →
  omap f st'.1 = omap f st.1 ++ (groups ≫= subject_part f item_part).
Proof.
  revert st. induction groups as [|[k g] rest IH]; intros [story n].
  - intros [= <-]. csimpl. by rewrite app_nil_r.
  - cbn [subjects_plan].
    destruct (getitem k SUBJECTS) as [info|] eqn:Hk; [|done].
    cbn [mbind result_bind fst snd].
    destruct (chapters_plan fs k _ _) as [st1|] eqn:Hch; [|done].
    cbn [mbind result_bind].
    apply chapters_plan_extract in Hch.
    intros Hrest%IH. rewrite Hrest. cbn [fst snd] in *.
    rewrite omap_app, Hch, omap_app.
    apply getitem_Ok in Hk.
    csimpl. unfold subject_part at 2, subject_title. cbn [fst snd].
    rewrite Hk. csimpl.
    by rewrite <- !app_assoc.
Qed.

Lemma answers_plan_extract iqs story :
  omap f (answers_plan fs iqs story) = omap f story ++ (iqs.*2 ≫= answer_part).
Proof.
  revert story. induction iqs as [|[i q] iqs IH]; intros story.
  - csimpl. by rewrite app_nil_r.
  - cbn [answers_plan]. rewrite IH, Hanswer. csimpl. by rewrite <- app_assoc.
Qed.

Lemma story_plan_extract now qs st :
  story_plan fs now qs = Ok st →
  omap f st
  = omap f (cover_plan now)
    ++ (groupby subject_code qs ≫= subject_part f item_part)
    ++ omap f [Paragraph (Literal "答案解析") chapter_title_style; Spacer 1 12]
    ++ (qs ≫= answer_part).
Proof.
  unfold story_plan.
  destruct (subjects_plan fs _ _) as [st1|] eqn:Hloop; [|done].
  cbn [mbind result_bind]. intros [= <-].
  apply subjects_plan_extract in Hloop. cbn [fst] in Hloop.
  rewrite answers_plan_extract, omap_app, Hloop, enumerate_from_snd.
  by rewrite <- !app_assoc.
Qed.

End extract.

Lemma groupby_bind {A B} (key : A → string) (h : A → list B) l :
  (groupby key l ≫= λ kg, kg.2 ≫= h) = l ≫= h.
Proof.
  rewrite <- (groupby_concat key l) at 2.
  induction (groupby key l) as [|[k g] rest IH]; [done|].
  csimpl. by rewrite bind_app, IH.
Qed.

Lemma omap_image_blocks {A} (f : Flowable → option A) fs q :
  f (Spacer 1 6) = None →
  omap f match safe_image fs (image_path q) with
         | Some img => [Spacer 1 6; img]
         | None => []
         end
  = match safe_image fs (image_path q) with
    | Some img => option_list (f img)
    | None => []
    end.
Proof.
  intros Hs. destruct (safe_image fs (image_path q)) as [img|]; [|done].
  csimpl. rewrite Hs. by destruct (f img).
Qed.

Lemma omap_choices {A} (f : Flowable → option A) (cs : list (string * string)) :
  (∀ opt val, f (Paragraph (ChoiceText opt val) normal_style) = None) →
  omap f ((λ '(opt, val), Paragraph (ChoiceText opt val) normal_style) <$> cs)
  = [].
Proof.
  intros Hf. induction cs as [|[opt val] cs IH]; [done|].
  csimpl. by rewrite Hf.
Qed.

(** What a record adds to an extraction that sees neither paragraphs of
    the normal style nor spacers: its image, in either part. *)
Lemma item_blocks_image_only {A} (f : Flowable → option A) fs n q :
  (∀ t, f (Paragraph t normal_style) = None) →
  (∀ w h, f (Spacer w h) = None) →
  omap f (item_blocks fs n q)
  = match safe_image fs (image_path q) with
    | Some img => option_list (f img)
    | None => []
    end.
Proof.
  intros Hp Hs. rewrite item_blocks_eq, !omap_app, omap_image_blocks by done.
  csimpl. rewrite Hp, Hs.
  case_decide; [rewrite omap_choices by done|]; csimpl; by rewrite app_nil_r.
Qed.

Lemma answer_plan_image_only {A} (f : Flowable → option A) fs i q story :
  (∀ t, f (Paragraph t normal_style) = None) →
  (∀ w h, f (Spacer w h) = None) →
  omap f (answer_plan fs i q story)
  = omap f story
    ++ match safe_image fs (image_path q) with
       | Some img => option_list (f img)
       | None => []
       end.
Proof.
  intros Hp Hs. unfold answer_plan.
  assert (truthy (image_path q) = None → safe_image fs (image_path q) = None)
    as Hnone by (unfold safe_image; by intros ->).
  destruct (truthy (explanation q)), (truthy (image_path q)) as [p|];
    rewrite ?Hnone by done;
    destruct (safe_image fs (image_path q)) as [img|];
    rewrite ?omap_app; csimpl; rewrite ?Hp, ?Hs; csimpl;
    try destruct (f img); csimpl; by rewrite ?app_nil_r, <- ?app_assoc.
Qed.

Lemma safe_image_extract {A} (f : Flowable → option A) fs q :
  (∀ p w, f (PlatypusImage p w) = None) →
  match safe_image fs (image_path q) with
  | Some img => option_list (f img)
  | None => []
  end = [].
Proof.
  intros Hf. destruct (safe_image fs (image_path q)) as [img|] eqn:E; [|done].
  apply safe_image_Some in E as [path ->]. by rewrite Hf.
Qed.

Lemma subject_entries_titles part1 handle page gks :
  title <$> subject_entries part1 handle page gks
  = gks ≫= λ '(k, chs), subject_title k :: (chapter_title k <$> chs).
Proof.
  revert handle page. induction gks as [|[k chs] rest IH]; intros handle page;
    [done|].
  csimpl. by rewrite fmap_app, chapter_entries_titles, IH.
Qed.

Lemma headings_groups (groups : list (string * list Question)) :
  (groups ≫= subject_part heading_of (λ _, []))
  = ((λ '(k, g), (k, (groupby chapter_num g).*1)) <$> groups)
    ≫= λ '(k, chs), subject_title k :: (chapter_title k <$> chs).
Proof.
  induction groups as [|[k g] rest IH]; [done|].
  csimpl. rewrite IH, app_nil_r. do 2 f_equal.
  induction (groupby chapter_num g) as [|[c g'] chs IHc]; [done|].
  csimpl. rewrite <- IHc. do 2 f_equal. by induction g'.
Qed.

Lemma story_plan_headings fs now qs st :
  story_plan fs now qs = Ok st →
  headings st
  = ["习题"]
    ++ (group_keys qs
          ≫= λ '(k, chs), subject_title k :: (chapter_title k <$> chs))
    ++ ["答案解析"].
Proof.
  intros Hst.
  apply (story_plan_extract heading_of fs (λ _, []) (λ _, [])) in Hst.
  - unfold headings. rewrite Hst, headings_groups.
    csimpl. do 3 f_equal. clear Hst. by induction qs.
  - intros n q. rewrite item_blocks_image_only by (by intros []).
    by apply safe_image_extract.
  - intros i q story. rewrite answer_plan_image_only by (by intros []).
    by rewrite safe_image_extract.
Qed.

Lemma chapters_plan_raises fs k h groups st wp e :
  chapters_plan fs k groups st = Raise e
  ↔ bookmark_chapters_loop k h groups wp = Raise e.
Proof.
  revert st wp. induction groups as [|[c g] rest IH]; intros st [w p]; [by split|].
  cbn [chapters_plan bookmark_chapters_loop].
  destruct (getitem k SUBJECTS) as [info|]; cbn [mbind result_bind];
    [|by split; intros [= ->]].
  cbn [mbind result_bind].
  destruct (getitem c (chapters info)) as [chapter_name|];
    cbn [mbind result_bind]; [|by split; intros [= ->]].
  cbn [mbind result_bind]. apply IH.
Qed.

Lemma subjects_plan_raises fs part1 groups st wp e :
  subjects_plan fs groups st = Raise e
  ↔ bookmark_subjects_loop part1 groups wp = Raise e.
Proof.
  revert st wp. induction groups as [|[k g] rest IH]; intros st [w p]; [by split|].
  cbn [subjects_plan bookmark_subjects_loop].
  destruct (getitem k SUBJECTS) as [info|]; cbn [mbind result_bind];
    [|by split; intros [= ->]].
  cbn [mbind result_bind add_outline_item].
  match goal with
  | |- context [chapters_plan fs k ?gs ?s] =>
      match goal with
      | |- context [bookmark_chapters_loop k ?h gs ?s'] =>
          pose proof (λ e, chapters_plan_raises fs k h gs s s' e) as Hch;
          destruct (chapters_plan fs k gs s) as [st1|e1];
          destruct (bookmark_chapters_loop k h gs s') as [wp1|e2]
      end
  end; cbn [mbind result_bind].
  - apply IH.
  - by pose proof (proj2 (Hch e2) eq_refl).
  - by pose proof (proj1 (Hch e1) eq_refl).
  - pose proof (proj1 (Hch e1) eq_refl). by simplify_eq.
Qed.

Lemma headings_plan_outline fs now n qs :
  match story_plan fs now qs, bookmarked n qs with
  | Ok st, Ok w => headings st = title <$> outline w
  | Raise e, Raise e' => e = e'
  | _, _ => False
  end.
Proof.
  destruct (story_plan fs now qs) as [st|e] eqn:Hst;
    destruct (bookmarked n qs) as [w|e'] eqn:Hw.
  { apply story_plan_headings in Hst. apply bookmarked_eq in Hw as [_ ->].
    by rewrite Hst, !fmap_app, subject_entries_titles. }
  all: unfold story_plan, bookmarked in *; cbn [add_outline_item] in Hw;
    match type of Hw with
    | context [bookmark_subjects_loop ?p ?g ?wp] =>
        pose proof (λ e, subjects_plan_raises fs p g (cover_plan now, 1) wp e)
          as Hraise;
        destruct (bookmark_subjects_loop p g wp) as [wp1|e1];
        destruct (subjects_plan fs g (cover_plan now, 1)) as [st1|e2]
    end; simplify_eq/=.
  all: try (by pose proof (proj1 (Hraise _) eq_refl)).
  all: try (by pose proof (proj2 (Hraise _) eq_refl)).
  pose proof (proj1 (Hraise _) eq_refl). by simplify_eq.
Qed.


Lemma safe_image_shown fs q :
  match safe_image fs (image_path q) with
  | Some img => option_list (match img with
                             | PlatypusImage p _ => Some p
                             | _ => None
                             end)
  | None => []
  end = option_list (shown_image fs q).
Proof.
  unfold safe_image, shown_image, new_image.
  destruct (truthy (image_path q)) as [p|]; [|done]. csimpl.
  by destruct (path_exists fs p), (image_opens fs p).
Qed.

Lemma images_groups (h : Question → list string)
    (groups : list (string * list Question)) :
  (groups ≫= subject_part (λ b, match b with
                                 | PlatypusImage p _ => Some p
                                 | _ => None
                                 end) h)
  = groups ≫= λ kg, kg.2 ≫= h.
Proof.
  induction groups as [|[k g] rest IH]; [done|].
  csimpl. rewrite IH. unfold subject_part at 1. csimpl.
  rewrite app_nil_r. f_equal.
  rewrite <- (groupby_bind chapter_num h g).
  induction (groupby chapter_num g) as [|[c g'] chs IHc]; [done|].
  csimpl. by rewrite <- IHc.
Qed.

Lemma page_breaks_groups (groups : list (string * list Question)) :
  (groups ≫= subject_part (λ b, match b with
                                 | PageBreak => Some ()
                                 | _ => None
                                 end) (λ _, []))
  = (λ _, ()) <$> groups.
Proof.
  induction groups as [|[k g] rest IH]; [done|].
  csimpl. rewrite IH. unfold subject_part at 1. csimpl.
  replace (groupby chapter_num g ≫= _) with (@nil unit); [done|].
  induction (groupby chapter_num g) as [|[c g'] chs IHc]; [done|].
  csimpl. rewrite <- IHc, app_nil_r. unfold chapter_part. csimpl.
  clear. by induction g'.
Qed.

Lemma story_plan_images fs now qs st :
  story_plan fs now qs = Ok st →
  images st = omap (shown_image fs) qs ++ omap (shown_image fs) qs.
Proof.
  intros Hst.
  apply (story_plan_extract (λ b, match b with
                              | PlatypusImage p _ => Some p
                              | _ => None
                              end)
           fs (λ q, option_list (shown_image fs q))
           (λ q, option_list (shown_image fs q))) in Hst.
  - unfold images. rewrite Hst, images_groups, groupby_bind. csimpl.
    f_equal; clear; induction qs as [|q qs IH]; csimpl; [done| |done|];
      destruct (shown_image fs q); csimpl; by rewrite IH.
  - intros n q. rewrite item_blocks_image_only by done.
    apply safe_image_shown.
  - intros i q story. rewrite answer_plan_image_only by done.
    by rewrite safe_image_shown.
Qed.


Lemma layout_item_blocks fs n q :
  omap mark_of (item_blocks fs n q) = [ItemMark q].
Proof.
  rewrite item_blocks_eq, !omap_app.
  rewrite omap_image_blocks by done.
  rewrite safe_image_extract by done.
  case_decide; [rewrite omap_choices by done|]; done.
Qed.

Lemma layout_answer_plan fs i q story :
  omap mark_of (answer_plan fs i q story)
  = omap mark_of story ++ [AnswerMark q].
Proof.
  unfold answer_plan.
  assert (truthy (image_path q) = None → safe_image fs (image_path q) = None)
    as Hnone by (unfold safe_image; by intros ->).
  destruct (truthy (explanation q)), (truthy (image_path q)) as [p|];
    rewrite ?Hnone by done;
    destruct (safe_image fs (image_path q)) as [img|] eqn:Himg;
    try (apply safe_image_Some in Himg as [path ->]);
    rewrite ?omap_app; csimpl; by rewrite ?app_nil_r, <- ?app_assoc.
Qed.

Lemma layout_chapters k (chs : list (string * list Question)) :
  (chs ≫= chapter_part mark_of (λ q, [ItemMark q]) k)
  = chs ≫= chapter_layout k.
Proof.
  induction chs as [|[c g] chs IH]; [done|].
  csimpl. by rewrite IH.
Qed.

Lemma layout_groups (groups : list (string * list Question)) :
  (groups ≫= subject_part mark_of (λ q, [ItemMark q]))
  = groups ≫= subject_layout.
Proof.
  induction groups as [|[k g] rest IH]; [done|].
  csimpl. rewrite IH. f_equal.
Qed.

Lemma story_plan_layout fs now qs st :
  story_plan fs now qs = Ok st →
  marks st
  = [BreakMark; TitleMark chapter_title_style "习题"]
    ++ (groupby subject_code qs ≫= subject_layout)
    ++ [TitleMark chapter_title_style "答案解析"]
    ++ (AnswerMark <$> qs).
Proof.
  intros Hst.
  apply (story_plan_extract mark_of fs (λ q, [ItemMark q]) (λ q, [AnswerMark q]))
    in Hst.
  - unfold marks. by rewrite Hst, layout_groups.
  - apply layout_item_blocks.
  - apply layout_answer_plan.
Qed.

Lemma page_breaks_layout story :
  page_breaks story
  = omap (λ m, match m with BreakMark => Some () | _ => None end)
      (marks story).
Proof.
  unfold page_breaks, marks.
  induction story as [|b story IH]; [done|].
  destruct b as [[] []| | |]; csimpl; by rewrite IH.
Qed.

Lemma story_plan_page_breaks fs now qs st :
  story_plan fs now qs = Ok st →
  length (page_breaks st) = S (length (groupby subject_code qs)).
Proof.
  intros Hst.
  apply (story_plan_extract (λ b, match b with
                              | PageBreak => Some ()
                              | _ => None
                              end)
           fs (λ _, []) (λ _, [])) in Hst.
  - unfold page_breaks. rewrite Hst, page_breaks_groups. csimpl.
    rewrite length_app, length_fmap.
    replace (qs ≫= _) with (@nil unit); [csimpl; lia|].
    clear. by induction qs.
  - intros n q. rewrite item_blocks_image_only by done.
    by apply safe_image_extract.
  - intros i q story. rewrite answer_plan_image_only by done.
    by rewrite safe_image_extract.
Qed.


Example story_marks_sample :
  match story no_assets "2024年01月03日"
          (fetch_published_questions catalog_rows) with
  | Ok st =>
      omap (λ m, match m with
                 | BreakMark => Some "break"
                 | TitleMark _ s => Some s
                 | ItemMark q | AnswerMark q => Some (id q)
                 end) (marks st)
      = ["break"; "习题";
         subject_title "DS"; chapter_title "DS" "01"; "DS01000001";
         chapter_title "DS" "02"; "DS02000001"; "break";
         subject_title "CO"; chapter_title "CO" "02"; "CO02000001"; "break";
         "答案解析"; "DS01000001"; "DS02000001"; "CO02000001"]
  | Raise _ => False
  end.
Proof. by vm_compute. Qed.

(** ** Runs of the sorted catalog *)

Lemma groupby_keys_elem {A} (key : A → string) l k :
  k ∈ (groupby key l).*1 → k ∈ key <$> l.
Proof.
  revert k. induction l as [|x l IH]; intros k; [done|]. cbn [groupby].
  destruct (groupby key l) as [|[k' g] rest].
  - csimpl. intros ->%list_elem_of_singleton. by left.
  - case_decide as Hk; csimpl; csimpl in IH.
    + intros Hin. right. by apply IH.
    + intros [->|Hin]%elem_of_cons; [by left|]. right. by apply IH.
Qed.

Lemma groupby_head {A} (key : A → string) y l k g rest :
  groupby key (y :: l) = (k, g) :: rest → k = key y.
Proof.
  cbn [groupby]. destruct (groupby key l) as [|[k' g'] rest'].
  - by intros [= <- _ _].
  - case_decide; by intros [= <- _ _].
Qed.

Lemma groupby_keys_NoDup {A} (key : A → string) (rk : A → nat) l :
  StronglySorted (λ x y, (rk x ≤ rk y)%nat) l →
  (∀ x y, x ∈ l → y ∈ l → rk x = rk y ↔ key x = key y) →
  NoDup (groupby key l).*1.
Proof.
  induction 1 as [|x l Hl IH Hx]; intros Hrk; [constructor|].
  assert (NoDup (groupby key l).*1) as Hnd.
  { apply IH. intros y z Hy Hz. apply Hrk; by right. }
  cbn [groupby].
  destruct (groupby key l) as [|[k g] rest] eqn:Hg.
  { csimpl. apply NoDup_singleton. }
  case_decide as Hk; [done|].
  change (NoDup (key x :: ((k, g) :: rest).*1)).
  apply NoDup_cons. split; [|done].
  rewrite <- Hg. intros (y & Hxy & Hy)%groupby_keys_elem%list_elem_of_fmap.
  destruct l as [|h l']; [done|].
  apply groupby_head in Hg as ->.
  rewrite Forall_forall in Hx.
  assert (rk x = rk y) as Hxy'.
  { apply Hrk; [by left|by right|done]. }
  assert (rk h ≤ rk y)%nat as Hhy.
  { apply elem_of_cons in Hy as [->|Hy]; [done|].
    apply StronglySorted_inv in Hl as [_ Hh].
    rewrite Forall_forall in Hh. by apply Hh. }
  pose proof (Hx h ltac:(by left)) as Hxh. 
  apply Hk. apply Hrk; [by left|right; by left|lia].
Qed.

Lemma StronglySorted_weaken {A} (R R' : relation A) l :
  StronglySorted R l →
  (∀ x y, x ∈ l → y ∈ l → R x y → R' x y) →
  StronglySorted R' l.
Proof.
  induction 1 as [|x l Hl IH Hx]; intros Himpl; constructor.
  - apply IH. intros y z Hy Hz. apply Himpl; by right.
  - rewrite Forall_forall in *. intros y Hy.
    apply Himpl; [by left|by right|by apply Hx].
Qed.

Lemma StronglySorted_concat {A} (R : relation A) (ls : list (list A)) :
  StronglySorted R (concat ls) → Forall (StronglySorted R) ls.
Proof.
  induction ls as [|l ls IH]; csimpl; [constructor|].
  intros Hs. constructor.
  - by apply StronglySorted_app_1_l in Hs.
  - apply IH. by apply StronglySorted_app_1_r in Hs.
Qed.

Lemma configured_CHAPTERS q :
  configured q ↔ (subject_code q, chapter_num q) ∈ CHAPTERS.
Proof.
  unfold configured, known_chapter.
  generalize (subject_code q) (chapter_num q). intros s c.
  split.
  - intros (info & Hs & [chname Hc]).
    unfold SUBJECTS in Hs. cbn [assoc] in Hs.
    repeat (case_decide; [simplify_eq/=;
      repeat (case_decide; [subst; compute_done|]); done|]).
    done.
  - intros Hin. unfold CHAPTERS in Hin. vm_compute in Hin.
    repeat (apply elem_of_cons in Hin as [[= -> ->]|Hin];
            [eexists; split; [reflexivity|by eexists]|]).
    by apply elem_of_nil in Hin.
Qed.

Lemma sort_key_idx q :
  sort_key q = (subject_idx (subject_code q),
                chapter_idx (subject_code q) (chapter_num q), id q).
Proof. apply sort_key_ranks. Qed.

Lemma ranks_injective :
  Forall (λ p1, Forall (λ p2,
    (subject_idx p1.1 = subject_idx p2.1 → p1.1 = p2.1)
    ∧ (p1.1 = p2.1 → chapter_idx p1.1 p1.2 = chapter_idx p2.1 p2.2 →
       p1.2 = p2.2)) CHAPTERS) CHAPTERS.
Proof. apply (bool_decide_unpack _). by vm_compute. Qed.

Lemma ranks_of_configured x y :
  configured x → configured y →
  (subject_idx (subject_code x) = subject_idx (subject_code y)
   ↔ subject_code x = subject_code y)
  ∧ (subject_code x = subject_code y →
     chapter_idx (subject_code x) (chapter_num x)
     = chapter_idx (subject_code y) (chapter_num y)
     ↔ chapter_num x = chapter_num y).
Proof.
  intros Hx%configured_CHAPTERS Hy%configured_CHAPTERS.
  pose proof ranks_injective as Hinj.
  rewrite Forall_forall in Hinj. specialize (Hinj _ Hx).
  rewrite Forall_forall in Hinj. specialize (Hinj _ Hy) as [Hs Hc].
  cbn [fst snd] in *. split; [split; [done|congruence]|].
  intros Hsub. split; [by apply Hc|congruence].
Qed.

Lemma fetch_published_questions_sorted rows :
  StronglySorted (by_key key_le sort_key) (fetch_published_questions rows).
Proof.
  apply Sorted_StronglySorted.
  - intros x y z. unfold by_key. apply transitivity.
  - apply Sorted_sort_by, _.
Qed.

Lemma fetch_published_questions_Forall (P : Question → Prop) rows :
  Forall P (published rows) → Forall P (fetch_published_questions rows).
Proof.
  intros HP. unfold fetch_published_questions, select_published.
  by rewrite !sort_by_Permutation.
Qed.

Lemma sorted_runs qs :
  StronglySorted (by_key key_le sort_key) qs →
  Forall configured qs →
  NoDup (group_keys qs).*1
  ∧ Forall (λ kg, NoDup kg.2) (group_keys qs).
Proof.
  intros Hsorted Hconf. rewrite Forall_forall in Hconf. split.
  - assert ((group_keys qs).*1 = (groupby subject_code qs).*1) as ->.
    { unfold group_keys. rewrite <- list_fmap_compose.
      apply list_fmap_ext. by intros ? [] ?. }
    apply (groupby_keys_NoDup subject_code
             (λ q, subject_idx (subject_code q))).
    + eapply StronglySorted_weaken; [done|].
      intros x y _ _. unfold by_key. rewrite !sort_key_idx.
      cbn. lia.
    + intros x y Hx Hy. by apply ranks_of_configured; apply Hconf.
  - unfold group_keys. apply Forall_fmap, Forall_forall.
    intros [k g] Hkg. cbn [snd].
    pose proof (groupby_Forall subject_code configured qs
                  ltac:(by apply Forall_forall)) as Hgroups.
    rewrite Forall_forall in Hgroups.
    destruct (Hgroups _ Hkg) as [_ Hg]. cbn [fst snd] in Hg.
    rewrite Forall_forall in Hg.
    assert (StronglySorted (by_key key_le sort_key) g) as Hgs.
    { rewrite <- (groupby_concat subject_code qs) in Hsorted.
      apply StronglySorted_concat in Hsorted.
      rewrite Forall_forall in Hsorted. apply Hsorted.
      apply list_elem_of_fmap. by exists (k, g). }
    apply (groupby_keys_NoDup chapter_num
             (λ q, chapter_idx (subject_code q) (chapter_num q))).
    + eapply StronglySorted_weaken; [done|].
      intros x y Hx Hy. unfold by_key. rewrite !sort_key_idx.
      destruct (Hg x Hx) as [-> _], (Hg y Hy) as [-> _]. cbn. lia.
    + intros x y Hx Hy.
      destruct (Hg x Hx) as [Hkx Hcx], (Hg y Hy) as [Hky Hcy].
      apply ranks_of_configured; [done..|congruence].
Qed.

(** X18.  When every published record has a configured subject and
    chapter, the order the loader returns puts the records of a subject
    in one run and, within it, the records of a chapter in one run: no
    subject and no (subject, chapter) pair has two runs, so the document
    has one heading and one bookmark for each. *)
Theorem fetch_published_questions_runs rows :
  Forall configured (published rows) →
  let out := fetch_published_questions rows in
  NoDup (group_keys out).*1 ∧ NoDup (subgroups out).
Proof.
  intros Hconf out.
  destruct (sorted_runs out) as [Hsub Hch].
  { apply fetch_published_questions_sorted. }
  { by apply fetch_published_questions_Forall. }
  split; [done|]. unfold subgroups.
  apply NoDup_bind.
  - intros [k1 chs1] [k2 chs2] [k c] H1 H2.
    intros (? & [= <- <-] & _)%list_elem_of_fmap
           (? & [= <- <-] & _)%list_elem_of_fmap.
    by apply (NoDup_fmap_inj_on fst (group_keys out)).
  - intros [k chs] Hk. rewrite Forall_forall in Hch.
    apply (NoDup_fmap_2 _), (Hch _ Hk).
  - by apply NoDup_fmap_1 in Hsub.
Qed.

(** ** Creating, statistics and the number format *)

Lemma split_head_values :
  Forall (λ '(code, info),
    split_head " - " (code +:+ " - " +:+ name info) = code
    ∧ Forall (λ '(num, chapter_name),
                split_head " - " (num +:+ " - " +:+ chapter_name) = num)
             (chapters info)) SUBJECTS.
Proof. apply (bool_decide_unpack _). by vm_compute. Qed.

Lemma configured_values :
  Forall (λ '(code, info),
    assoc code SUBJECTS = Some info
    ∧ Forall (λ '(num, chapter_name), is_Some (assoc num (chapters info)))
             (chapters info)) SUBJECTS.
Proof.
  unfold SUBJECTS.
  repeat (constructor; [split; [reflexivity|repeat constructor; by eexists]|]).
  constructor.
Qed.

Lemma string_app_nonempty (a b : string) : b ≠ "" → a +:+ b ≠ "".
Proof.
  intros Hb Hab. apply (f_equal String.length) in Hab.
  rewrite length_app_string in Hab. destruct b; [done|]. cbn in Hab. lia.
Qed.

Lemma create_question_appends d dialog app code info :
  (code, info) ∈ SUBJECTS →
  new_subject_var dialog = code +:+ " - " +:+ name info →
  new_chapter_var dialog ∈ chapter_values info →
  new_type_var dialog ∈ QUESTION_TYPES.*2 →
  Forall well_formed_row (db app) →
  Forall (λ num, (code +:+ num) +:+ "999999" ∉ id <$> db app)
         (keys (chapters info)) →
  ∃ new,
    create_question_from_dialog d dialog app
    = (Ok (),
       {| db := db app ++ [new];
          current_question_id := Some (id new);
          current_question_data := Some new;
          current_image_path := None;
          dialogs := dialogs app ++ ["题目 " +:+ id new +:+ " 创建成功!"] |})
    ∧ (id new ∉ id <$> db app)
    ∧ well_formed_row new
    ∧ subject_code new = code
    ∧ (∃ chapter_name, (chapter_num new, chapter_name) ∈ chapters info
                       ∧ new_chapter_var dialog
                         = chapter_num new +:+ " - " +:+ chapter_name)
    ∧ question_type new ∈ QUESTION_TYPES.*1
    ∧ status new = "draft".
Proof.
  intros Hcode Hsubject Hchapter Htype Hwf Hlast.
  apply list_elem_of_fmap in Hchapter as ([num chapter_name] & Hchapter & Hnum).
  pose proof split_head_values as Hsplit.
  pose proof configured_values as Hconf.
  rewrite Forall_forall in Hsplit, Hconf.
  destruct (Hsplit _ Hcode) as [Hs Hc], (Hconf _ Hcode) as [Hinfo Hchs].
  rewrite Forall_forall in Hc, Hchs.
  specialize (Hc _ Hnum). specialize (Hchs _ Hnum). cbn beta iota in Hc, Hchs.
  assert (known_chapter code num) as Hknown by (by exists info).
  assert ((code +:+ num) +:+ "999999" ∉ id <$> db app) as Hfree.
  { rewrite Forall_forall in Hlast. apply Hlast.
    apply list_elem_of_fmap. by exists (num, chapter_name). }
  destruct (generate_question_id_unused (db app) code num Hknown Hwf Hfree)
    as [Hnew Hid].
  assert (∃ question_type_code,
            truthy (find_code (new_type_var dialog) QUESTION_TYPES)
            = Some question_type_code
            ∧ question_type_code ∈ QUESTION_TYPES.*1)
    as (question_type_code & Hfind & Hcodes).
  { cbn in Htype.
    repeat (apply elem_of_cons in Htype as [->|Htype];
            [eexists; split; [reflexivity|compute_done]|]).
    by apply elem_of_nil in Htype. }
  exists (new_question d (generate_question_id (db app) code num) code num
            question_type_code).
  split_and!; try done.
  - unfold create_question_from_dialog. cbv zeta.
    rewrite decide_False; last first.
    { rewrite Hsubject, Hchapter.
      intros [?%string_app_nonempty|?%string_app_nonempty]; done. }
    rewrite Hsubject, Hchapter, Hs, Hc, Hfind.
    unfold insert_question, mbind, SE_bind. cbn [id new_question].
    rewrite decide_False by done.
    unfold load_question. cbn [fst snd db set_db].
    set (new := new_question d (generate_question_id (db app) code num) code
                  num question_type_code).
    pose proof (filter_id_unique (db app) new Hnew) as Hrow.
    change (id new) with (generate_question_id (db app) code num) in Hrow.
    by rewrite Hrow, (update_view_tab_configured new Hknown).
  - by exists chapter_name.
Qed.

(** X19.  Well-formedness is an invariant of creating.  With a subject, a
    chapter of that subject and a type chosen from the values the dialog
    offers, on a table of well-formed records with pairwise distinct ids
    in which no chapter of that subject has used up its last number,
    the creation succeeds: the codes are read back from the labels, one
    draft of that subject and chapter is appended and selected, and the
    table is again well-formed with pairwise distinct ids. *)
Theorem create_question_well_formed d dialog app code info :
  (code, info) ∈ SUBJECTS →
  new_subject_var dialog = code +:+ " - " +:+ name info →
  new_chapter_var dialog ∈ chapter_values info →
  new_type_var dialog ∈ QUESTION_TYPES.*2 →
  Forall well_formed_row (db app) →
  NoDup (id <$> db app) →
  Forall (λ num, (code +:+ num) +:+ "999999" ∉ id <$> db app)
         (keys (chapters info)) →
  let app' := (create_question_from_dialog d dialog app).2 in
  (create_question_from_dialog d dialog app).1 = Ok ()
  ∧ Forall well_formed_row (db app')
  ∧ NoDup (id <$> db app')
  ∧ ∃ new, db app' = db app ++ [new]
           ∧ subject_code new = code
           ∧ (∃ chapter_name,
                (chapter_num new, chapter_name) ∈ chapters info
                ∧ new_chapter_var dialog
                  = chapter_num new +:+ " - " +:+ chapter_name)
           ∧ question_type new ∈ QUESTION_TYPES.*1
           ∧ status new = "draft"
           ∧ current_question_id app' = Some (id new)
           ∧ current_question_data app' = Some new.
Proof.
  intros Hcode Hsubject Hchapter Htype Hwf Hnd Hlast app'. subst app'.
  destruct (create_question_appends d dialog app code info)
    as (new & -> & Hnew & Hrow & Hs & Hc & Ht & Hst); [done..|].
  cbn [fst snd db current_question_id current_question_data].
  split_and!; [done| | |].
  - apply Forall_app. split; [done|by apply Forall_singleton].
  - rewrite fmap_app. apply NoDup_app. split_and!; [done| |apply NoDup_singleton].
    intros x Hx Hx'. apply list_elem_of_singleton in Hx'. by subst.
  - by exists new.
Qed.

Lemma stats_loop_total groups st :
  (stats_loop groups st).2 = st.2 + sum_list groups.*2.
Proof.
  revert st. induction groups as [|[t c] rest IH]; intros st; csimpl; [lia|].
  rewrite IH. cbn [snd]. lia.
Qed.

Lemma sum_counts {A} (key : A → string) (ts : list string) (l : list A) :
  NoDup ts →
  sum_list ((λ t, length (filter (λ x, key x = t) l)) <$> ts)
  = length (filter (λ x, key x ∈ ts) l).
Proof.
  intros Hts. induction l as [|x l IH]; csimpl.
  { induction ts; csimpl; [done|]. apply IHts. by apply NoDup_cons in Hts as []. }
  rewrite filter_cons. 
  assert (sum_list ((λ t, length (filter (λ x0, key x0 = t) (x :: l))) <$> ts)
          = (if decide (key x ∈ ts) then 1 else 0)
            + sum_list ((λ t, length (filter (λ x0, key x0 = t) l)) <$> ts))
    as ->.
  { clear IH. induction Hts as [|t ts Ht Hts IHts]; csimpl; [done|].
    rewrite IHts, filter_cons.
    repeat case_decide; subst; csimpl; try lia; exfalso;
      repeat match goal with
             | H : _ ∈ _ :: _ |- _ => apply elem_of_cons in H as [|]
             | H : _ ∉ _ :: _ |- _ => apply not_elem_of_cons in H as []
             end; done. }
  rewrite IH. by case_decide.
Qed.

Lemma subject_stats_total rows subject :
  (stats_loop (subject_stats rows subject) (∅, 0)).2
  = length (filter (λ q, subject_code q = subject) rows).
Proof.
  rewrite stats_loop_total. unfold subject_stats. cbn [snd]. rewrite Nat.add_0_l.
  set (selected := filter (λ q, subject_code q = subject) rows).
  rewrite <- list_fmap_compose.
  change (sum_list ((λ t, length (filter (λ q, question_type q = t) selected))
                      <$> sort_by String.le (λ t, t)
                            (remove_dups (question_type <$> selected)))
          = length selected).
  rewrite sort_by_Permutation.
  rewrite (sum_counts question_type) by apply NoDup_remove_dups.
  f_equal. apply filter_all, Forall_forall. intros q Hq.
  apply elem_of_remove_dups. by apply list_elem_of_fmap_2.
Qed.

(** X20.  The statistics count every record of a configured subject
    once: the total of a subject is the number of its records, in
    whatever order the store returns the groups by type, and the totals of the subjects add up
    to the number of records whose subject is configured; they add up to
    the overall total exactly when no record has another subject. *)
Theorem get_statistics_totals rows :
  let stats := get_statistics rows in
  Forall2 (λ '(subject, info) '(subject_name, st),
             subject_name = name info
             ∧ stat_total st = length (filter (λ q, subject_code q = subject) rows))
          SUBJECTS stats.2
  ∧ sum_list ((λ s, stat_total s.2) <$> stats.2)
    = length (filter (λ q, subject_code q ∈ SUBJECT_ORDER) rows)
  ∧ (sum_list ((λ s, stat_total s.2) <$> stats.2) ≤ stats.1)%nat
  ∧ (sum_list ((λ s, stat_total s.2) <$> stats.2) = stats.1
     ↔ Forall (λ q, subject_code q ∈ SUBJECT_ORDER) rows)
  ∧ (∀ subject groups,
       groups ≡ₚ subject_stats rows subject →
       (stats_loop groups (∅, 0)).2
       = length (filter (λ q, subject_code q = subject) rows)).
Proof.
  intros stats.
  assert (sum_list ((λ s, stat_total s.2) <$> stats.2)
          = length (filter (λ q, subject_code q ∈ SUBJECT_ORDER) rows))
    as Hsum.
  { rewrite <- (sum_counts subject_code) by compute_done.
    subst stats. unfold get_statistics, SUBJECT_ORDER, keys. cbn [snd].
    rewrite <- !list_fmap_compose. f_equal. apply list_fmap_ext.
    intros i [subject info] _. cbn. apply subject_stats_total. }
  split_and!; [|done| | |].
  - subst stats. unfold get_statistics. cbn [snd].
    apply Forall2_fmap_r, Forall_Forall2_diag, Forall_forall.
    intros [subject info] _. cbn. split; [done|apply subject_stats_total].
  - rewrite Hsum. apply length_filter.
  - rewrite Hsum. subst stats. cbn [fst get_statistics]. split.
    + intros Hlen. apply Forall_forall. intros q Hq.
      destruct (decide (subject_code q ∈ SUBJECT_ORDER)) as [|Hout]; [done|].
      pose proof (length_filter_lt (λ q, subject_code q ∈ SUBJECT_ORDER)
                    rows q Hq Hout). lia.
    + intros Hall. by rewrite filter_all.
  - intros subject groups Hperm.
    rewrite <- subject_stats_total, !stats_loop_total. by rewrite Hperm.
Qed.

Lemma configured_codes_literal :
  Forall (λ sc, literal_code sc.1 = true ∧ literal_code sc.2 = true) CHAPTERS.
Proof. apply (bool_decide_unpack _). by vm_compute. Qed.

(** X21.  The six-digit format and the reading of the number are
    inverse to each other: [int] reads back every formatted number; up to
    999999 the format has exactly six digits and, for codes made of
    letters and digits, the pattern of the assigner finds the number in
    the id made of the two codes and the formatted number; from one
    million on the format is longer than six digits, the width being a
    minimum. *)
Theorem format_06d_round_trip s c n :
  int (format_06d n) = Some n
  ∧ if decide (n < 1000000)%N then
      String.length (format_06d n) = 6
      ∧ (literal_code s = true → literal_code c = true →
         parsed_seq s c (s +:+ c +:+ format_06d n) = Some n)
    else (6 < String.length (format_06d n))%nat.
Proof.
  pose proof (int_format_06d n) as Hint. split; [done|].
  case_decide as Hn.
  - pose proof (length_format_06d n Hn) as Hlen. split; [done|].
    intros _ _.
    rewrite <- string_app_assoc, parsed_seq_well_formed; [done..|].
    rewrite Hint. by eexists.
  - unfold int in Hint. case_decide; [done|].
    apply int_from_upper in Hint.
    destruct (decide (6 < String.length (format_06d n))%nat) as [|Hshort];
      [done|exfalso].
    assert (10 ^ N.of_nat (String.length (format_06d n)) ≤ 10 ^ 6)%N.
    { apply N.pow_le_mono_r; lia. }
    lia.
Qed.

(** The number 42 of chapter DS/01. *)
Lemma format_06d_round_trip_witness :
  literal_code "DS" = true ∧ literal_code "01" = true
  ∧ format_06d 42 = "000042"
  ∧ parsed_seq "DS" "01" "DS01000042" = Some 42%N.
Proof.
  destruct (format_06d_round_trip "DS" "01" 42) as [_ Hround].
  rewrite decide_True in Hround by lia.
  destruct Hround as [_ Hparsed].
  split_and!; [reflexivity..|exact (Hparsed eq_refl eq_refl)].
Defined.

(** ** Reference tables and the dates of an update *)

Section insert_or_ignore.
Context {K V : Type} `{EqDecision K}.
Implicit Types (table : list (K * V)) (kvs : list (K * V)).

Lemma insert_or_ignore_spec k v table :
  table `prefix_of` insert_or_ignore k v table
  ∧ k ∈ (insert_or_ignore k v table).*1
  ∧ (NoDup table.*1 → NoDup (insert_or_ignore k v table).*1)
  ∧ (∀ k', k' ∈ (insert_or_ignore k v table).*1 → k' = k ∨ k' ∈ table.*1).
Proof.
  unfold insert_or_ignore. case_decide as Hk.
  - split_and!; [done..|by right].
  - rewrite fmap_app. split_and!.
    + by apply prefix_app_r.
    + apply elem_of_app. right. by left.
    + intros Hnd. apply NoDup_app. split_and!; [done| |apply NoDup_singleton].
      intros x Hx Hx'. apply list_elem_of_singleton in Hx'. by subst.
    + intros k' [?|Hk']%elem_of_app; [by right|].
      apply list_elem_of_singleton in Hk'. by left.
Qed.

Lemma insert_all_spec kvs : ∀ table,
  table `prefix_of` insert_all kvs table
  ∧ (∀ k, k ∈ kvs.*1 → k ∈ (insert_all kvs table).*1)
  ∧ (NoDup table.*1 → NoDup (insert_all kvs table).*1)
  ∧ (∀ k, k ∈ (insert_all kvs table).*1 → k ∈ kvs.*1 ∨ k ∈ table.*1).
Proof.
  induction kvs as [|[k v] kvs IH]; intros table.
  { split_and!; [done| |done|by right]. by intros k ?%elem_of_nil. }
  destruct (insert_or_ignore_spec k v table) as (Hpre & Hin & Hnd & Hfrom).
  destruct (IH (insert_or_ignore k v table)) as (Hpre' & Hin' & Hnd' & Hfrom').
  unfold insert_all in *. cbn [foldl]. split_and!.
  - by etrans.
  - intros k' [->|Hk']%elem_of_cons; [|by apply Hin'].
    destruct Hpre' as [rest ->]. rewrite fmap_app. apply elem_of_app. by left.
  - auto.
  - intros k' [Hk'|Hk']%Hfrom'; [left; by right|].
    apply Hfrom in Hk' as [->|?]; [left; by left|by right].
Qed.

Lemma insert_all_present kvs : ∀ table,
  (∀ k, k ∈ kvs.*1 → k ∈ table.*1) → insert_all kvs table = table.
Proof.
  induction kvs as [|[k v] kvs IH]; intros table Hin; [done|].
  unfold insert_all in *. cbn [foldl]. unfold insert_or_ignore at 2.
  rewrite decide_True by (apply Hin; by left).
  apply IH. intros k' Hk'. apply Hin. by right.
Qed.

End insert_or_ignore.

Lemma foldl_bind {A B C} (f : A → C → A) (g : B → list C) (l : list B) a :
  foldl f a (l ≫= g) = foldl (λ a x, foldl f a (g x)) a l.
Proof.
  revert a. induction l as [|x l IH]; intros a; [done|].
  csimpl. by rewrite foldl_app, IH.
Qed.

Lemma _insert_initial_data_eq r :
  _insert_initial_data r
  = {| subjects := insert_all subject_rows (subjects r);
       chapter_rows := insert_all configured_chapter_rows (chapter_rows r) |}.
Proof.
  unfold _insert_initial_data, subject_rows, configured_chapter_rows,
    insert_all.
  generalize SUBJECTS. intros cfg. f_equal.
  - rewrite foldl_fmap. generalize (subjects r).
    induction cfg as [|[code info] cfg IH]; intros table; [done|].
    cbn [foldl]. apply IH.
  - rewrite foldl_bind. generalize (chapter_rows r).
    induction cfg as [|[code info] cfg IH]; intros table; [done|].
    cbn [foldl]. rewrite <- IH. f_equal.
    rewrite foldl_fmap. generalize (chapters info). intros chs. revert table.
    induction chs as [|[num chapter_name] chs IHc]; intros table; [done|].
    cbn [foldl]. apply IHc.
Qed.

(** X22.  Initialising the reference tables only adds what is missing:
    the rows that were there stay first and as they were, also when a
    name differs from the configured one; afterwards every configured
    subject and chapter has a row; keys that were pairwise distinct stay
    so; and a second initialisation changes nothing. *)
Theorem insert_initial_data_idempotent r :
  let r' := _insert_initial_data r in
  _insert_initial_data r' = r'
  ∧ subjects r `prefix_of` subjects r'
  ∧ chapter_rows r `prefix_of` chapter_rows r'
  ∧ keys SUBJECTS ⊆ (subjects r').*1
  ∧ CHAPTERS ⊆ (chapter_rows r').*1
  ∧ (NoDup (subjects r).*1 → NoDup (subjects r').*1)
  ∧ (NoDup (chapter_rows r).*1 → NoDup (chapter_rows r').*1).
Proof.
  intros r'. subst r'. rewrite !_insert_initial_data_eq.
  cbn [subjects chapter_rows].
  destruct (insert_all_spec subject_rows (subjects r))
    as (Hpre & Hin & Hnd & _).
  destruct (insert_all_spec configured_chapter_rows (chapter_rows r))
    as (Hpre' & Hin' & Hnd' & _).
  assert (subject_rows.*1 = keys SUBJECTS) as Hkeys by reflexivity.
  assert (configured_chapter_rows.*1 = CHAPTERS) as Hchapters by reflexivity.
  rewrite Hkeys in Hin. rewrite Hchapters in Hin'.
  split_and!;
    [|exact Hpre|exact Hpre'|exact Hin|exact Hin'|exact Hnd|exact Hnd'].
  f_equal; by apply insert_all_present.
Qed.

(** X23.  [update_question] reads neither [created_date] nor
    [last_modified] from the dict it is given: whatever the two entries
    hold, and whether they are there at all, the outcome is the same, the
    modification date being set to today and the creation date left to
    the row. *)
Theorem update_question_ignores_dates d question_data app v w :
  update_question d
    (<["created_date" := v]> (<["last_modified" := w]> question_data)) app
  = update_question d question_data app
  ∧ update_question d
      (delete "created_date" (delete "last_modified" question_data)) app
    = update_question d question_data app.
Proof.
  unfold update_question, item.
  by rewrite !lookup_insert_ne, !lookup_delete_ne by done.
Qed.

(** ** The properties on the sample data *)

Lemma catalog_rows_well_formed : Forall well_formed_row catalog_rows.
Proof.
  repeat constructor;
    first [ eexists; split; [reflexivity|by eexists]
          | eexists; split_and!; [reflexivity|reflexivity|by eexists] ].
Qed.

Lemma insert_question_then_load_witness :
  NoDup (id <$> db sample_app)
  ∧ db (insert_question bare_question sample_app).2
    = db sample_app ++ [bare_question]
  ∧ (load_question "OS03000007"
       (insert_question bare_question sample_app).2).1 = Ok ()
  ∧ current_question_data
      (load_question "OS03000007"
         (insert_question bare_question sample_app).2).2
    = Some bare_question.
Proof.
  assert (NoDup (id <$> db sample_app)) as Hnd by compute_done.
  split; [done|].
  pose proof (insert_question_then_load bare_question sample_app Hnd) as Hload.
  destruct (decide (id bare_question ∈ id <$> db sample_app)) as [Hin|_].
  - exfalso. revert Hin. compute_done.
  - destruct Hload as (_ & Hdb & _ & _ & _ & Hdata & _).
    split_and!; [exact Hdb|reflexivity|exact Hdata].
Defined.

Lemma import_questions_one_row_per_id_witness :
  NoDup (id <$> db sample_app)
  ∧ NoDup (id <$> db (import_questions sample_desktop
                        (Some (Ok [sample_edit])) sample_app).2).
Proof.
  assert (NoDup (id <$> db sample_app)) as Hnd by compute_done.
  split; [done|].
  exact (import_questions_one_row_per_id sample_desktop
           (Some (Ok [sample_edit])) sample_app Hnd).
Defined.

Lemma import_of_own_export_witness :
  db (import_questions sample_desktop
        (Some (Ok (export_data (db sample_app)))) sample_app).2
  = with_last_modified "2024-01-03" <$> db sample_app.
Proof.
  assert (NoDup (id <$> db sample_app)) as Hnd by compute_done.
  assert (Forall (λ r, id r ≠ "") (db sample_app)) as Hne
    by (repeat constructor; done).
  exact (proj1 (import_of_own_export sample_desktop sample_app Hnd Hne)).
Defined.

Lemma import_of_foreign_export_witness :
  db (import_questions sample_desktop
        (Some (Ok (export_data [bare_question]))) sample_app).2
  = db sample_app ++ [bare_question].
Proof.
  assert (Forall (λ r, id r ≠ "") [bare_question]) as Hne
    by (repeat constructor; done).
  assert (NoDup (id <$> [bare_question])) as Hnd by compute_done.
  assert (∀ x, x ∈ id <$> [bare_question] → x ∉ id <$> db sample_app) as Hnew.
  { intros x ->%list_elem_of_singleton. compute_done. }
  exact (proj1 (import_of_foreign_export sample_desktop [bare_question]
                  sample_app Hne Hnd Hnew)).
Defined.

Lemma generate_question_id_fresh_witness :
  generate_question_id catalog_rows "DS" "01" = "DS01000003"
  ∧ generate_question_id catalog_rows "DS" "01" ∉ id <$> catalog_rows.
Proof.
  split; [reflexivity|].
  assert (known_chapter "DS" "01") as Hknown
    by (eexists; split; [reflexivity|by eexists]).
  assert (("DS" +:+ "01") +:+ "999999" ∉ id <$> catalog_rows) as Hlast
    by compute_done.
  exact (proj1 (generate_question_id_fresh catalog_rows "DS" "01" Hknown
                  catalog_rows_well_formed Hlast)).
Defined.

Lemma catalog_app_ready :
  truthy (current_question_id catalog_app) = Some "DS02000001"
  ∧ current_question_data catalog_app
    = Some (sample_question "DS02000001" "DS" "02" "application" "published")
  ∧ configured
      (sample_question "DS02000001" "DS" "02" "application" "published")
  ∧ Forall well_formed_row (db catalog_app)
  ∧ NoDup (id <$> db catalog_app)
  ∧ (("DS" +:+ "02") +:+ "999999" ∉ id <$> db catalog_app)
  ∧ is_Ok (copy_image sample_desktop catalog_app
             (generate_question_id (db catalog_app) "DS" "02")
             (sample_question "DS02000001" "DS" "02" "application"
                "published")).
Proof.
  split_and!.
  - reflexivity.
  - reflexivity.
  - eexists; split; [reflexivity|by eexists].
  - apply catalog_rows_well_formed.
  - compute_done.
  - compute_done.
  - by eexists.
Qed.


Lemma duplicate_question_well_formed_witness :
  (duplicate_question sample_desktop catalog_app).1 = Ok ()
  ∧ Forall well_formed_row (db (duplicate_question sample_desktop catalog_app).2)
  ∧ id <$> db (duplicate_question sample_desktop catalog_app).2
    = (id <$> db catalog_app) ++ ["DS02000002"].
Proof.
  destruct catalog_app_ready as (Hsel & Hdata & Hconf & Hwf & Hnd & Hlast & Hcopy).
  destruct (duplicate_question_well_formed sample_desktop catalog_app
              "DS02000001" _ Hsel Hdata Hconf Hwf Hnd Hlast Hcopy)
    as (Hok & Hwf' & _).
  split_and!; [done|done|reflexivity].
Defined.

Lemma duplicate_then_delete_witness :
  db (delete_current_question sample_desktop sample_prompts
        (duplicate_question sample_desktop catalog_app).2).2
  = db catalog_app.
Proof.
  destruct catalog_app_ready as (Hsel & Hdata & Hconf & Hwf & _ & Hlast & Hcopy).
  exact (proj1 (proj2 (duplicate_then_delete sample_desktop sample_prompts
                         catalog_app "DS02000001" _ Hsel Hdata Hconf Hwf
                         Hlast Hcopy eq_refl (λ _, eq_refl)))).
Defined.

Lemma upload_then_delete_image_witness :
  current_image_path (upload_image sample_desktop sample_prompts sample_app).2
  = Some "assets/images/DS02000001.png"
  ∧ db (delete_image sample_desktop sample_prompts
          (upload_image sample_desktop sample_prompts sample_app).2).2
    = db sample_app.
Proof.
  assert (∀ r, r ∈ db sample_app → id r = "DS02000001" → image_path r = None)
    as Hnone.
  { intros r Hr _. revert r Hr. apply Forall_forall. by repeat constructor. }
  destruct (upload_then_delete_image sample_desktop sample_prompts sample_app
              "DS02000001" "/home/user/figure.png"
              eq_refl eq_refl eq_refl eq_refl eq_refl (λ _, eq_refl) Hnone)
    as (Hpath & _ & Hdb & _).
  by split.
Defined.

Lemma save_current_question_row_witness :
  (save_current_question sample_desktop sample_form sample_app).1 = Ok ()
  ∧ id <$> db (save_current_question sample_desktop sample_form sample_app).2
    = id <$> db sample_app.
Proof.
  destruct (save_current_question_row sample_desktop sample_form sample_app
              "DS02000001" _ eq_refl eq_refl ltac:(done))
    as [Hok _].
  split; [done|reflexivity].
Defined.

Lemma fetch_published_questions_runs_witness :
  Forall configured (published catalog_rows)
  ∧ subgroups (fetch_published_questions catalog_rows)
    = [("DS", "01"); ("DS", "02"); ("CO", "02")]
  ∧ NoDup (subgroups (fetch_published_questions catalog_rows)).
Proof.
  assert (Forall configured (published catalog_rows)) as Hconf.
  { repeat constructor; (eexists; split; [reflexivity|by eexists]). }
  split_and!; [done|reflexivity|].
  exact (proj2 (fetch_published_questions_runs catalog_rows Hconf)).
Defined.

Lemma create_question_well_formed_witness :
  (create_question_from_dialog sample_desktop sample_dialog catalog_app).1
  = Ok ()
  ∧ id <$> db (create_question_from_dialog sample_desktop sample_dialog
                 catalog_app).2
    = (id <$> db catalog_app) ++ ["DS03000001"].
Proof.
  destruct catalog_app_ready as (_ & _ & _ & Hwf & Hnd & _ & _).
  edestruct (create_question_well_formed sample_desktop sample_dialog
               catalog_app "DS") as (Hok & _).
  - left.
  - reflexivity.
  - compute_done.
  - compute_done.
  - exact Hwf.
  - exact Hnd.
  - by repeat constructor; compute_done.
  - split; [exact Hok|reflexivity].
Defined.
